(** * peer-calls: socket handler, signaller and message codec

    A shallow embedding of
      - package [wshandler], [src/server/wshandler/wshandler.go]:
        [HandleRoomWithCleanup] and [HandleRoom];
      - package [signals], the signaller (in the sources at hand its text
        follows [config/read.go] in [src/server/config/read_test.go]):
        [NewSignaller], [initialize], [Close], [Signal], the handlers of
        remote offers and answers, [SendTransceiverRequest];
      - package [wsmessage], of which only the tests are at hand: the
        message envelope and its JSON codec, modelled from the
        specification;
      - the functions of Go's standard package [path] that the socket
        handler calls ([Base], [Dir], and with them [Split] and [Clean]),
        transcribed from the library.

    Go strings are byte sequences: they are modelled as [list ascii].  A
    Go [error] is an [option]: [None] is [nil].

    The handler and the signaller work on collaborators (socket, client,
    room manager, adapter, peer connection, media engine, negotiator,
    callbacks).  Every call on a collaborator is recorded, in order, in a
    trace; what the call returns is read from an environment.  A call on
    the negotiator is recorded as such: what the negotiator does in turn
    is its own business (package [negotiator] is not at hand). *)

From Stdlib Require Import Ascii String ZArith NArith Lia Bool Arith List.
From Stdlib Require Import DecimalString DecimalZ DecimalPos.
Import ListNotations.

Set Implicit Arguments.

Definition gostring := list ascii.

(** A string literal as a Go string. *)
Definition gs (s : string) : gostring := list_ascii_of_string s.
Arguments gs : simpl never.

(** A small state monad: the Go methods below read and update the fields
    of their receiver and call collaborators, whose calls are recorded. *)
Module State.
Section Monad.
Variable St : Type.
Definition M (A : Type) : Type := St -> A * St.
Definition ret {A} (a : A) : M A := fun s => (a, s).
Definition bind {A B} (m : M A) (k : A -> M B) : M B :=
  fun s => let (a, s') := m s in k a s'.
Definition get : M St := fun s => (s, s).
Definition put (s : St) : M unit := fun _ => (tt, s).
Definition when (b : bool) (m : M unit) : M unit := if b then m else ret tt.
End Monad.
End State.

Notation "x <- m ;; k" := (State.bind m (fun x => k))
  (at level 61, m at next level, right associativity).
Notation "m ;; k" := (State.bind m (fun _ => k))
  (at level 61, right associativity).

(* ===================================================================== *)
(** * Go's [path] package: [Base], [Dir], [Split], [Clean]               *)
(* ===================================================================== *)

Module GoPath.

Definition slash : ascii := "/"%char.
Definition dot : ascii := "."%char.

(** [func lastSlash(s string) int]:
    [i := len(s) - 1; for i >= 0 && s[i] != '/' { i-- }; return i].
    [lastSlash_from s i] is the loop entered with index [i - 1]. *)
Fixpoint lastSlash_from (s : gostring) (i : nat) : Z :=
  match i with
  | O => (-1)%Z
  | S j => if Ascii.eqb (nth j s zero) slash then Z.of_nat j
           else lastSlash_from s j
  end.

Definition lastSlash (s : gostring) : Z := lastSlash_from s (length s).

(** [for len(path) > 0 && path[len(path)-1] == '/' { path = path[0:len(path)-1] }] *)
Fixpoint stripTrailingSlashes (fuel : nat) (path : gostring) : gostring :=
  match fuel with
  | O => path
  | S fuel' =>
      if (0 <? length path) && Ascii.eqb (nth (length path - 1) path zero) slash
      then stripTrailingSlashes fuel' (firstn (length path - 1) path)
      else path
  end.

(** [func Base(path string) string] *)
Definition Base (path : gostring) : gostring :=
  match path with
  | [] => [dot]
  | _ =>
      let path1 := stripTrailingSlashes (length path) path in
      let i := lastSlash path1 in
      let path2 := if (0 <=? i)%Z then skipn (Z.to_nat (i + 1)) path1 else path1 in
      match path2 with
      | [] => [slash]
      | _ => path2
      end
  end.

(** [func Split(path string) (dir, file string)]:
    [i := lastSlash(path); return path[:i+1], path[i+1:]] *)
Definition Split (path : gostring) : gostring * gostring :=
  let i := lastSlash path in
  (firstn (Z.to_nat (i + 1)) path, skipn (Z.to_nat (i + 1)) path).

(** The [lazybuf] of [Clean] is an allocation-saving view of the bytes
    written so far; it is modelled by the list of those bytes, [out.w]
    being its length. *)

(** [out.w--; for out.w > dotdot && out.index(out.w) != '/' { out.w-- }]:
    the loop, entered with write index [w], reads the bytes of the buffer
    as it was before the truncation. *)
Fixpoint backtrack_loop (fuel : nat) (out : gostring) (w dotdot : nat) : nat :=
  match fuel with
  | O => w
  | S fuel' =>
      if (dotdot <? w) && negb (Ascii.eqb (nth w out zero) slash)
      then backtrack_loop fuel' out (w - 1) dotdot
      else w
  end.

Definition backtrack (out : gostring) (dotdot : nat) : gostring :=
  firstn (backtrack_loop (length out) out (length out - 1) dotdot) out.

(** [for ; r < n && path[r] != '/'; r++ { out.append(path[r]) }]:
    the bytes copied and the input left. *)
Fixpoint copyElement (rest : gostring) : gostring * gostring :=
  match rest with
  | [] => ([], [])
  | c :: rest' =>
      if Ascii.eqb c slash then ([], rest)
      else let (e, r) := copyElement rest' in (c :: e, r)
  end.

(** [r + 1 == n || path[r+1] == '/'], on the input after [path[r]]. *)
Definition endOrSlash (rest : gostring) : bool :=
  match rest with
  | [] => true
  | c :: _ => Ascii.eqb c slash
  end.

Definition headIs (a : ascii) (rest : gostring) : bool :=
  match rest with
  | [] => false
  | c :: _ => Ascii.eqb c a
  end.

(** The main loop [for r < n { switch { ... } }] of [Clean], on the input
    [path[r:]] still to read.  Every iteration reads at least one byte, so
    [length rest] iterations are enough (see [Clean_loop_fuel]). *)
Fixpoint Clean_loop (fuel : nat) (rooted : bool) (rest out : gostring)
         (dotdot : nat) : gostring :=
  match fuel with
  | O => out
  | S fuel' =>
      match rest with
      | [] => out
      | c :: rest1 =>
          if Ascii.eqb c slash then
            (* empty path element *)
            Clean_loop fuel' rooted rest1 out dotdot
          else if Ascii.eqb c dot && endOrSlash rest1 then
            (* . element *)
            Clean_loop fuel' rooted rest1 out dotdot
          else if Ascii.eqb c dot && headIs dot rest1 && endOrSlash (tl rest1) then
            (* .. element: remove to last / *)
            let rest2 := tl rest1 in
            if dotdot <? length out then
              Clean_loop fuel' rooted rest2 (backtrack out dotdot) dotdot
            else if negb rooted then
              let out1 := if 0 <? length out then out ++ [slash] else out in
              let out2 := out1 ++ [dot; dot] in
              Clean_loop fuel' rooted rest2 out2 (length out2)
            else
              Clean_loop fuel' rooted rest2 out dotdot
          else
            (* real path element: add slash if needed, copy element *)
            let out1 :=
              if (rooted && negb (length out =? 1))
                 || (negb rooted && negb (length out =? 0))
              then out ++ [slash] else out in
            let (e, rest') := copyElement rest in
            Clean_loop fuel' rooted rest' (out1 ++ e) dotdot
      end
  end.

(** [func Clean(path string) string] *)
Definition Clean (path : gostring) : gostring :=
  match path with
  | [] => [dot]
  | c :: rest =>
      let rooted := Ascii.eqb c slash in
      let out :=
        if rooted then Clean_loop (length path) rooted rest [slash] 1
        else Clean_loop (length path) rooted path [] 0 in
      match out with
      | [] => [dot]
      | _ => out
      end
  end.

(** [func Dir(path string) string]: [dir, _ := Split(path); return Clean(dir)] *)
Definition Dir (path : gostring) : gostring := Clean (fst (Split path)).

End GoPath.

(* ===================================================================== *)
(** * [wsmessage]: the message envelope                                   *)
(* ===================================================================== *)

Module WsMessage.

(** Modelled from the spec: the payload of a message ([interface{}] in the
    tests of [wsmessage]) is a JSON value; [message.go] is not under
    [src/].  Numbers are the integers (fractions and exponents are
    floating point in Go and are left out); an object keeps its fields in
    order. *)
#[local] Unset Elimination Schemes.
Inductive Json : Type :=
| JNull
| JBool (b : bool)
| JNumber (n : Z)
| JString (s : gostring)
| JArray (items : list Json)
| JObject (fields : list (gostring * Json)).
#[local] Set Elimination Schemes.

(** Modelled from the spec: [Message: { type: string, room: string,
    payload: JSON value }]; the tests read the fields [Type], [Room] and
    [Payload]. *)
Record Message : Type := NewMessage {
  Type_ : gostring;
  Room : gostring;
  Payload : Json
}.

Definition MessageTypeRoomJoin : gostring := gs "ws_room_join".
Definition MessageTypeRoomLeave : gostring := gs "ws_room_leave".

(** Modelled from the spec: [NewMessageRoomJoin(room, clientID, metadata)]
    carries payload [{clientID, metadata}] (the test reads both keys of a
    string-to-string map). *)
Definition NewMessageRoomJoin (room clientID metadata : gostring) : Message :=
  NewMessage MessageTypeRoomJoin room
    (JObject [(gs "clientID", JString clientID); (gs "metadata", JString metadata)]).

(** Modelled from the spec: [NewMessageRoomLeave(room, clientID)] carries
    payload [= clientID]. *)
Definition NewMessageRoomLeave (room clientID : gostring) : Message :=
  NewMessage MessageTypeRoomLeave room (JString clientID).

(** ** The codec

    Modelled from the spec: [Serialize(Message) -> bytes] and
    [Deserialize(bytes) -> Message], the on-wire encoding being UTF-8
    JSON, one object [{"type": ..., "room": ..., "payload": <any>}] per
    frame; [Deserialize] fails ([None]) with [malformed] on a parse
    failure.  [ByteSerializer] is not under [src/]. *)

Definition quote : ascii := "034"%char.
Definition backslash : ascii := "\"%char.

Definition isSpace (c : ascii) : bool :=
  Ascii.eqb c " " || Ascii.eqb c "009" || Ascii.eqb c "010" || Ascii.eqb c "013".

Fixpoint skip_ws (s : gostring) : gostring :=
  match s with
  | [] => []
  | c :: r => if isSpace c then skip_ws r else s
  end.

Definition hexDigit (n : N) : ascii := nth (N.to_nat n) (gs "0123456789abcdef") "0"%char.

Definition hexValue (c : ascii) : option N :=
  let n := N_of_ascii c in
  if (48 <=? n)%N && (n <=? 57)%N then Some (n - 48)%N
  else if (97 <=? n)%N && (n <=? 102)%N then Some (n - 87)%N
  else if (65 <=? n)%N && (n <=? 70)%N then Some (n - 55)%N
  else None.

(** A byte of a string, as it is written between the quotes. *)
Definition escape (c : ascii) : gostring :=
  let n := N_of_ascii c in
  if Ascii.eqb c quote then [backslash; quote]
  else if Ascii.eqb c backslash then [backslash; backslash]
  else if Ascii.eqb c "010" then [backslash; "n"%char]
  else if Ascii.eqb c "013" then [backslash; "r"%char]
  else if Ascii.eqb c "009" then [backslash; "t"%char]
  else if (n <? 32)%N then
    [backslash; "u"%char; "0"%char; "0"%char; hexDigit (n / 16); hexDigit (n mod 16)]
  else [c].

Definition print_string (s : gostring) : gostring :=
  quote :: flat_map escape s ++ [quote].

Definition print_number (n : Z) : gostring :=
  list_ascii_of_string (NilZero.string_of_int (Z.to_int n)).

(** The JSON text of a value, without white space. *)
Fixpoint print (v : Json) : gostring :=
  match v with
  | JNull => gs "null"
  | JBool b => if b then gs "true" else gs "false"
  | JNumber n => print_number n
  | JString s => print_string s
  | JArray items =>
      "["%char ::
        match items with
        | [] => []
        | x :: xs => print x ++ flat_map (fun y => ","%char :: print y) xs
        end ++ ["]"%char]
  | JObject fields =>
      "{"%char ::
        match fields with
        | [] => []
        | kx :: fs =>
            print_string (fst kx) ++ ":"%char :: print (snd kx) ++
            flat_map (fun ky => ","%char :: print_string (fst ky) ++ ":"%char :: print (snd ky)) fs
        end ++ ["}"%char]
  end.

Definition toJson (m : Message) : Json :=
  JObject [(gs "type", JString (Type_ m));
           (gs "room", JString (Room m));
           (gs "payload", Payload m)].

(** [func (s ByteSerializer) Serialize(m Message) ([]byte, error)]; the
    error is [nil] on every JSON value. *)
Definition Serialize (m : Message) : gostring := print (toJson m).

(** The code point of a [\uXXXX] escape as UTF-8; the halves of a
    surrogate pair are refused. *)
Definition utf8 (cp : N) : option gostring :=
  if (cp <? 128)%N then Some [ascii_of_N cp]
  else if (cp <? 2048)%N then
    Some [ascii_of_N (192 + cp / 64); ascii_of_N (128 + cp mod 64)]
  else if (55296 <=? cp)%N && (cp <=? 57343)%N then None
  else Some [ascii_of_N (224 + cp / 4096);
             ascii_of_N (128 + (cp / 64) mod 64);
             ascii_of_N (128 + cp mod 64)].

Definition hex4 (a b c d : ascii) : option N :=
  match hexValue a, hexValue b, hexValue c, hexValue d with
  | Some x, Some y, Some z, Some w => Some (((x * 16 + y) * 16 + z) * 16 + w)%N
  | _, _, _, _ => None
  end.

Definition simpleEscape (e : ascii) : option ascii :=
  if Ascii.eqb e quote then Some quote
  else if Ascii.eqb e backslash then Some backslash
  else if Ascii.eqb e "/" then Some "/"%char
  else if Ascii.eqb e "b" then Some "008"%char
  else if Ascii.eqb e "f" then Some "012"%char
  else if Ascii.eqb e "n" then Some "010"%char
  else if Ascii.eqb e "r" then Some "013"%char
  else if Ascii.eqb e "t" then Some "009"%char
  else None.

Definition prepend (bytes : gostring) (r : option (gostring * gostring))
  : option (gostring * gostring) :=
  match r with
  | Some (str, rest) => Some (bytes ++ str, rest)
  | None => None
  end.

(** A string after its opening quote: its bytes and the input after the
    closing quote. *)
Fixpoint parse_string_body (s : gostring) : option (gostring * gostring) :=
  match s with
  | [] => None
  | c :: r =>
      if Ascii.eqb c quote then Some ([], r)
      else if Ascii.eqb c backslash then
        match r with
        | [] => None
        | e :: r1 =>
            if Ascii.eqb e "u" then
              match r1 with
              | a :: b :: c' :: d :: r2 =>
                  match hex4 a b c' d with
                  | Some cp =>
                      match utf8 cp with
                      | Some bytes => prepend bytes (parse_string_body r2)
                      | None => None
                      end
                  | None => None
                  end
              | _ => None
              end
            else
              match simpleEscape e with
              | Some ch => prepend [ch] (parse_string_body r1)
              | None => None
              end
        end
      else if (N_of_ascii c <? 32)%N then None
      else prepend [c] (parse_string_body r)
  end.

Fixpoint expect (lit s : gostring) : option gostring :=
  match lit with
  | [] => Some s
  | c :: lit' =>
      match s with
      | [] => None
      | d :: s' => if Ascii.eqb c d then expect lit' s' else None
      end
  end.

Definition isDigit (c : ascii) : bool :=
  (48 <=? N_of_ascii c)%N && (N_of_ascii c <=? 57)%N.

Definition isNumChar (c : ascii) : bool := Ascii.eqb c "-" || isDigit c.

Fixpoint spanNum (s : gostring) : gostring * gostring :=
  match s with
  | [] => ([], [])
  | c :: r =>
      if isNumChar c then let (t, r') := spanNum r in (c :: t, r')
      else ([], s)
  end.

Definition startsFraction (s : gostring) : bool :=
  match s with
  | [] => false
  | c :: _ => Ascii.eqb c "." || Ascii.eqb c "e" || Ascii.eqb c "E"
  end.

(** An integer; a number with a fraction or an exponent is refused. *)
Definition parse_number (s : gostring) : option (Json * gostring) :=
  let (tok, rest) := spanNum s in
  if startsFraction rest then None
  else match NilZero.int_of_string (string_of_list_ascii tok) with
       | Some d => Some (JNumber (Z.of_int d), rest)
       | None => None
       end.

(** One field ["key": value] of an object, [pv] parsing the value. *)
Definition parse_field (pv : gostring -> option (Json * gostring)) (s : gostring)
  : option ((gostring * Json) * gostring) :=
  match skip_ws s with
  | c :: r =>
      if Ascii.eqb c quote then
        match parse_string_body r with
        | Some (k, r1) =>
            match skip_ws r1 with
            | d :: r2 =>
                if Ascii.eqb d ":" then
                  match pv r2 with
                  | Some (v, r3) => Some ((k, v), r3)
                  | None => None
                  end
                else None
            | [] => None
            end
        | None => None
        end
      else None
  | [] => None
  end.

(** The parser.  Every call reads at least one byte before it calls
    another, so the length of the input is fuel enough. *)
Fixpoint parse_value (fuel : nat) (s : gostring) {struct fuel}
  : option (Json * gostring) :=
  match fuel with
  | O => None
  | S fuel' =>
      match skip_ws s with
      | [] => None
      | c :: r =>
          if Ascii.eqb c "n" then option_map (pair JNull) (expect (gs "ull") r)
          else if Ascii.eqb c "t" then option_map (pair (JBool true)) (expect (gs "rue") r)
          else if Ascii.eqb c "f" then option_map (pair (JBool false)) (expect (gs "alse") r)
          else if Ascii.eqb c quote then
            match parse_string_body r with
            | Some (str, r') => Some (JString str, r')
            | None => None
            end
          else if Ascii.eqb c "[" then
            match skip_ws r with
            | [] => None
            | d :: r' =>
                if Ascii.eqb d "]" then Some (JArray [], r')
                else
                  match parse_value fuel' r with
                  | Some (v, r1) =>
                      match parse_items fuel' r1 with
                      | Some (vs, r2) => Some (JArray (v :: vs), r2)
                      | None => None
                      end
                  | None => None
                  end
            end
          else if Ascii.eqb c "{" then
            match skip_ws r with
            | [] => None
            | d :: r' =>
                if Ascii.eqb d "}" then Some (JObject [], r')
                else
                  match parse_field (parse_value fuel') r with
                  | Some (kv, r1) =>
                      match parse_fields fuel' r1 with
                      | Some (kvs, r2) => Some (JObject (kv :: kvs), r2)
                      | None => None
                      end
                  | None => None
                  end
            end
          else parse_number (c :: r)
      end
  end

with parse_items (fuel : nat) (s : gostring) {struct fuel}
  : option (list Json * gostring) :=
  match fuel with
  | O => None
  | S fuel' =>
      match skip_ws s with
      | [] => None
      | c :: r =>
          if Ascii.eqb c "]" then Some ([], r)
          else if Ascii.eqb c "," then
            match parse_value fuel' r with
            | Some (v, r1) =>
                match parse_items fuel' r1 with
                | Some (vs, r2) => Some (v :: vs, r2)
                | None => None
                end
            | None => None
            end
          else None
      end
  end

with parse_fields (fuel : nat) (s : gostring) {struct fuel}
  : option (list (gostring * Json) * gostring) :=
  match fuel with
  | O => None
  | S fuel' =>
      match skip_ws s with
      | [] => None
      | c :: r =>
          if Ascii.eqb c "}" then Some ([], r)
          else if Ascii.eqb c "," then
            match parse_field (parse_value fuel') r with
            | Some (kv, r1) =>
                match parse_fields fuel' r1 with
                | Some (kvs, r2) => Some (kv :: kvs, r2)
                | None => None
                end
            | None => None
            end
          else None
      end
  end.

Fixpoint gostring_eqb (a b : gostring) : bool :=
  match a, b with
  | [], [] => true
  | x :: a', y :: b' => Ascii.eqb x y && gostring_eqb a' b'
  | _, _ => false
  end.

(** The value of a key of an object; the last one wins. *)
Fixpoint lookup (k : gostring) (fields : list (gostring * Json)) : option Json :=
  match fields with
  | [] => None
  | (k', v) :: fs =>
      match lookup k fs with
      | Some v' => Some v'
      | None => if gostring_eqb k k' then Some v else None
      end
  end.

(** A string field of the envelope: absent or [null] leaves it empty, any
    other value that is not a string is an error. *)
Definition stringField (k : gostring) (fields : list (gostring * Json))
  : option gostring :=
  match lookup k fields with
  | None | Some JNull => Some []
  | Some (JString s) => Some s
  | Some _ => None
  end.

(** [func (s ByteSerializer) Deserialize(data []byte) (Message, error)] *)
Definition Deserialize (data : gostring) : option Message :=
  match parse_value (S (length data)) data with
  | Some (JObject fields, rest) =>
      match skip_ws rest with
      | [] =>
          match stringField (gs "type") fields, stringField (gs "room") fields with
          | Some t, Some r =>
              Some (NewMessage t r
                      match lookup (gs "payload") fields with
                      | Some v => v
                      | None => JNull
                      end)
          | _, _ => None
          end
      | _ => None
      end
  | _ => None
  end.


End WsMessage.

(* ===================================================================== *)
(** * Go error values                                                     *)
(* ===================================================================== *)

Module GoErrors.

(** The error values the handlers look into: [context.Canceled], a
    [websocket.CloseError], any other error, and an error wrapping another
    one ([fmt.Errorf("...: %w", err)]). *)
Inductive GoError : Type :=
| ContextCanceled
| CloseError (code : Z) (reason : gostring)
| OtherError (msg : gostring)
| Wrapped (msg : gostring) (inner : GoError).

(** A Go [error]: [None] is [nil]. *)
Definition error := option GoError.

(** [errors.Is(err, context.Canceled)]: walks the [Unwrap] chain. *)
Fixpoint chainIsCanceled (e : GoError) : bool :=
  match e with
  | ContextCanceled => true
  | Wrapped _ inner => chainIsCanceled inner
  | _ => false
  end.

Definition errors_Is_Canceled (err : error) : bool :=
  match err with
  | None => false
  | Some e => chainIsCanceled e
  end.

(** [websocket.CloseStatus(err)]: the code of the first [CloseError] of the
    chain ([errors.As]), [-1] when there is none. *)
Fixpoint chainCloseStatus (e : GoError) : Z :=
  match e with
  | CloseError code _ => code
  | Wrapped _ inner => chainCloseStatus inner
  | _ => (-1)%Z
  end.

Definition CloseStatus (err : error) : Z :=
  match err with
  | None => (-1)%Z
  | Some e => chainCloseStatus e
  end.

Definition StatusNormalClosure : Z := 1000.
Definition StatusGoingAway : Z := 1001.
Definition StatusInternalError : Z := 1011.

End GoErrors.

(* ===================================================================== *)
(** * [wshandler]: the socket handler                                     *)
(* ===================================================================== *)

Module WsHandler.
Import GoErrors.

(** The adapter object [rooms.Enter] returns, by identity. *)
Definition AdapterRef := nat.

(** [type RoomEvent struct] *)
Record RoomEvent : Type := {
  re_ClientID : gostring;
  re_Room : gostring;
  re_Adapter : AdapterRef;
  re_Message : WsMessage.Message
}.

(** [type CleanupEvent struct] *)
Record CleanupEvent : Type := {
  ce_ClientID : gostring;
  ce_Room : gostring;
  ce_Adapter : AdapterRef
}.

(** The [log.Printf] calls of the handler, one constructor per format. *)
Inductive LogLine : Type :=
| LogAcceptError (err : GoError)            (* "Error accepting websocket connection: %s" *)
| LogClosing (room clientID : gostring)     (* "Closing websocket connection room: %s, clientID: %s" *)
| LogNewConnection (room clientID : gostring) (* "New websocket connection - room: %s, clientID: %s" *)
| LogExit (room clientID : gostring)        (* "wss.rooms.Exit room: %s, clientID: %s" *)
| LogAddError (err : GoError)               (* "Error adding client to room: %s" *)
| LogRemove (room clientID : gostring)      (* "adapter.Remove room: %s, clientID: %s" *)
| LogRemoveError (err : GoError)            (* "Error removing client from adapter: %s" *)
| LogSubscriptionError (err : GoError).     (* "Subscription error: %s" *)

(** What the handler does to the outside, in the order it does it. *)
Inductive Event : Type :=
| EvLog (l : LogLine)
| EvAccept                                         (* websocket.Accept(w, r, ...) *)
| EvSocketClose (code : Z) (reason : gostring)     (* c.Close(code, reason) *)
| EvNewClient (clientID : gostring)                (* ws.NewClientWithID(c, clientID) *)
| EvClientClose                                    (* client.Close() *)
| EvEnter (room : gostring)                        (* wss.rooms.Enter(room) *)
| EvExit (room : gostring)                         (* wss.rooms.Exit(room) *)
| EvAdd (adapter : AdapterRef) (clientID : gostring)    (* adapter.Add(client) *)
| EvRemove (adapter : AdapterRef) (clientID : gostring) (* adapter.Remove(clientID) *)
| EvSubscribe                                      (* client.Subscribe(ctx, ...) *)
| EvHandleMessage (ev : RoomEvent)                 (* handleMessage(RoomEvent{...}) *)
| EvCleanup (ev : CleanupEvent).                   (* cleanup(CleanupEvent{...}) *)

(** The results of the calls on the collaborators.  [client_Subscribe] is
    the list of frames [Subscribe] hands to its callback before it
    returns, and the error it returns. *)
Record Env : Type := {
  websocket_Accept : error;
  rooms_Enter : gostring -> AdapterRef;
  adapter_Add : error;
  adapter_Remove : error;
  client_Subscribe : list WsMessage.Message * error
}.

(** A deferred call, with its arguments evaluated when [defer] runs. *)
Inductive Deferred : Type :=
| DeferSocketClose (room clientID : gostring)
| DeferClientClose
| DeferExit (room clientID : gostring)
| DeferCleanup (ev : CleanupEvent)
| DeferRemove (room clientID : gostring) (adapter : AdapterRef).

(** The frame of one call of the handler: the events so far, oldest first,
    and the stack of deferred calls, last deferred first. *)
Record Frame : Type := {
  trace : list Event;
  deferred : list Deferred
}.

Definition M : Type -> Type := State.M Frame.
Definition ret {A} (a : A) : M A := State.ret a.
Definition when : bool -> M unit -> M unit := @State.when Frame.

Definition emit (e : Event) : M unit :=
  fun f => (tt, {| trace := trace f ++ [e]; deferred := deferred f |}).

Definition defer (d : Deferred) : M unit :=
  fun f => (tt, {| trace := trace f; deferred := d :: deferred f |}).

Section Handler.

Variable env : Env.

(** The body of each deferred call. *)
Definition runDeferred (d : Deferred) : M unit :=
  match d with
  | DeferSocketClose room clientID =>
      emit (EvLog (LogClosing room clientID)) ;;
      emit (EvSocketClose StatusInternalError [])
  | DeferClientClose =>
      emit EvClientClose
  | DeferExit room clientID =>
      emit (EvLog (LogExit room clientID)) ;;
      emit (EvExit room)
  | DeferCleanup ev =>
      emit (EvCleanup ev)
  | DeferRemove room clientID adapter =>
      emit (EvLog (LogRemove room clientID)) ;;
      emit (EvRemove adapter clientID) ;;
      match adapter_Remove env with
      | Some err => emit (EvLog (LogRemoveError err))
      | None => ret tt
      end
  end.

Fixpoint runAll (ds : list Deferred) : M unit :=
  match ds with
  | [] => ret tt
  | d :: ds' => runDeferred d ;; runAll ds'
  end.

(** [return]: the deferred calls run, last deferred first. *)
Definition return_ : M unit :=
  fun f => runAll (deferred f) {| trace := trace f; deferred := [] |}.

(** [client.Subscribe(ctx, func(message) { handleMessage(RoomEvent{...}) })] *)
Fixpoint deliver (clientID room : gostring) (adapter : AdapterRef)
         (msgs : list WsMessage.Message) : M unit :=
  match msgs with
  | [] => ret tt
  | m :: msgs' =>
      emit (EvHandleMessage {| re_ClientID := clientID; re_Room := room;
                               re_Adapter := adapter; re_Message := m |}) ;;
      deliver clientID room adapter msgs'
  end.

(** [func (wss * WSS) HandleRoomWithCleanup(w, r, handleMessage, cleanup)]:
    [path] is [r.URL.Path], [cleanup] tells whether the callback is
    non-nil. *)
Definition HandleRoomWithCleanup_body (path : gostring) (cleanup : bool) : M unit :=
  emit EvAccept ;;
  match websocket_Accept env with
  | Some err =>
      emit (EvLog (LogAcceptError err)) ;;
      return_
  | None =>
      let clientID := GoPath.Base path in
      let room := GoPath.Base (GoPath.Dir path) in
      defer (DeferSocketClose room clientID) ;;
      emit (EvNewClient clientID) ;;
      defer DeferClientClose ;;
      emit (EvLog (LogNewConnection room clientID)) ;;
      emit (EvEnter room) ;;
      let adapter := rooms_Enter env room in
      defer (DeferExit room clientID) ;;
      emit (EvAdd adapter clientID) ;;
      match adapter_Add env with
      | Some err =>
          emit (EvLog (LogAddError err)) ;;
          return_
      | None =>
          when cleanup
            (defer (DeferCleanup {| ce_ClientID := clientID; ce_Room := room;
                                    ce_Adapter := adapter |})) ;;
          defer (DeferRemove room clientID adapter) ;;
          emit EvSubscribe ;;
          deliver clientID room adapter (fst (client_Subscribe env)) ;;
          let err := snd (client_Subscribe env) in
          if errors_Is_Canceled err then return_
          else if (CloseStatus err =? StatusNormalClosure)%Z
                  || (CloseStatus err =? StatusGoingAway)%Z then return_
          else match err with
               | Some e => emit (EvLog (LogSubscriptionError e)) ;; return_
               | None => return_
               end
      end
  end.

(** The events of one call of the handler. *)
Definition HandleRoomWithCleanup (path : gostring) (cleanup : bool) : list Event :=
  trace (snd (HandleRoomWithCleanup_body path cleanup {| trace := []; deferred := [] |})).

(** [HandleRoom]: [wss.HandleRoomWithCleanup(w, r, handleMessage, nil)] *)
Definition HandleRoom (path : gostring) : list Event :=
  HandleRoomWithCleanup path false.

End Handler.

(** The calls on the collaborators, the log lines left out. *)
Definition isCall (e : Event) : bool :=
  match e with
  | EvLog _ => false
  | _ => true
  end.

Definition calls (t : list Event) : list Event := filter isCall t.

End WsHandler.

(* ===================================================================== *)
(** * [signals]: the signaller                                            *)
(* ===================================================================== *)

Module Signals.
Import GoErrors.

(** [webrtc.RTPCodecType], with its zero value. *)
Inductive RTPCodecType : Type :=
| RTPCodecTypeUnknown | RTPCodecTypeAudio | RTPCodecTypeVideo.

(** [webrtc.RTPTransceiverDirection] *)
Inductive RTPTransceiverDirection : Type :=
| RTPTransceiverDirectionSendrecv
| RTPTransceiverDirectionSendonly
| RTPTransceiverDirectionRecvonly
| RTPTransceiverDirectionInactive.

(** [webrtc.RtpTransceiverInit] *)
Record RtpTransceiverInit : Type := { Direction : RTPTransceiverDirection }.

(** [webrtc.SDPType], with its zero value. *)
Inductive SDPType : Type :=
| SDPTypeUnknown | SDPTypeOffer | SDPTypePranswer | SDPTypeAnswer | SDPTypeRollback.

(** [webrtc.SessionDescription] *)
Record SessionDescription : Type := { Type_ : SDPType; SDP : gostring }.

(** [webrtc.ICECandidateInit] *)
Record ICECandidateInit : Type := { Candidate_ : gostring }.

(** [webrtc.ICEConnectionState], with its zero value. *)
Inductive ICEConnectionState : Type :=
| ICEConnectionStateUnknown
| ICEConnectionStateNew
| ICEConnectionStateChecking
| ICEConnectionStateConnected
| ICEConnectionStateCompleted
| ICEConnectionStateDisconnected
| ICEConnectionStateFailed
| ICEConnectionStateClosed.

(** Modelled from the spec: the signalling envelopes ([payload.go] is not
    under [src/]): [{userID, signal}] where the signal is an ICE candidate,
    a renegotiation request, a transceiver request or a session
    description.  [Signal] switches on the dynamic type of the signal, so
    a value of any other type is kept as [OtherSignal]. *)
Inductive SignalValue : Type :=
| Candidate (c : ICECandidateInit)
| Renegotiate
| TransceiverRequest (kind : RTPCodecType) (direction : RTPTransceiverDirection)
| SessionDescriptionSignal (sd : SessionDescription)
| OtherSignal (goType : gostring).

Record Payload : Type := { UserID : gostring; Signal_ : SignalValue }.

(** Modelled from the spec: the constructors of outbound payloads
    ([payload.go] is not under [src/]). *)
Definition NewPayloadSDP (userID : gostring) (sd : SessionDescription) : Payload :=
  {| UserID := userID; Signal_ := SessionDescriptionSignal sd |}.
Definition NewPayloadRenegotiate (userID : gostring) : Payload :=
  {| UserID := userID; Signal_ := Renegotiate |}.
Definition NewTransceiverRequest (userID : gostring) (kind : RTPCodecType)
           (direction : RTPTransceiverDirection) : Payload :=
  {| UserID := userID; Signal_ := TransceiverRequest kind direction |}.

(** [map[string]interface{}], the argument of [Signal]. *)
Definition PayloadMap := list (gostring * WsMessage.Json).

(** The calls of the signaller on its collaborators and the effects on its
    close channel, in the order they happen.  The [log.Printf] lines are
    not recorded. *)
Inductive Event : Type :=
| MediaEngine_RegisterDefaultCodecs
| MediaEngine_PopulateFromSDP (sd : SessionDescription)
| PC_OnICEConnectionStateChange
| PC_AddICECandidate (c : ICECandidateInit)
| PC_AddTransceiverFromKind (kind : RTPCodecType) (init : RtpTransceiverInit)
| PC_SetRemoteDescription (sd : SessionDescription)
| PC_SetLocalDescription (sd : SessionDescription)
| PC_CreateAnswer
| PC_Close
| Negotiator_New (initiator : bool) (remotePeerID : gostring)
| Negotiator_Negotiate
| Negotiator_AddTransceiverFromKind (kind : RTPCodecType) (init : RtpTransceiverInit)
| OnSignal (p : Payload)
| Chan_close                     (* close(s.closeChannel) *)
| Panic (msg : gostring).

(** The collaborators: the [PeerConnection] interface, the media engine
    and the decoder of inbound payloads.  What a call returns may depend
    on every call made before it. *)
Record Collaborators : Type := {
  pc_AddICECandidate : list Event -> ICECandidateInit -> error;
  pc_AddTransceiverFromKind : list Event -> RTPCodecType -> RtpTransceiverInit -> error;
  pc_SetRemoteDescription : list Event -> SessionDescription -> error;
  pc_SetLocalDescription : list Event -> SessionDescription -> error;
  pc_CreateAnswer : list Event -> SessionDescription * error;
  pc_Close : list Event -> error;
  me_PopulateFromSDP : list Event -> SessionDescription -> error;
  NewPayloadFromMap : PayloadMap -> Payload * error
}.

(** [chan struct{}] as far as [close] is concerned. *)
Inductive Chan : Type := ChanOpen | ChanClosed.

(** [type Signaller struct]: the fields that are data; [closeOnce] is the
    [done] flag of the [sync.Once].  The peer connection, the media engine,
    the negotiator and [onSignal] are the collaborators. *)
Record Signaller : Type := {
  initiator : bool;
  localPeerID : gostring;
  remotePeerID : gostring;
  closeChannel : Chan;
  closeOnce : bool
}.

Record World : Type := {
  signaller : Signaller;
  events : list Event
}.

Definition M : Type -> Type := State.M World.
Definition ret {A} (a : A) : M A := State.ret a.
Definition when : bool -> M unit -> M unit := @State.when World.

Definition this : M Signaller := fun w => (signaller w, w).

Definition emit (e : Event) : M unit :=
  fun w => (tt, {| signaller := signaller w; events := events w ++ [e] |}).

(** A call on a collaborator: recorded, its result read from the
    collaborator at the calls made before. *)
Definition call {A} (e : Event) (result : list Event -> A) : M A :=
  fun w => (result (events w),
            {| signaller := signaller w; events := events w ++ [e] |}).

(** [close(s.closeChannel)]: closing a closed channel panics. *)
Definition close_closeChannel : M unit :=
  fun w =>
    let s := signaller w in
    match closeChannel s with
    | ChanOpen =>
        (tt, {| signaller := {| initiator := initiator s;
                                localPeerID := localPeerID s;
                                remotePeerID := remotePeerID s;
                                closeChannel := ChanClosed;
                                closeOnce := closeOnce s |};
                events := events w ++ [Chan_close] |})
    | ChanClosed =>
        (tt, {| signaller := s;
                events := events w ++ [Panic (gs "close of closed channel")] |})
    end.

(** [s.closeOnce.Do(f)]: [f] runs if the [Once] is not done, which is then
    marked done.  [f] sets the named result [err], [nil] otherwise. *)
Definition closeOnce_Do (f : M error) : M error :=
  s <- this ;;
  if closeOnce s then ret None
  else
    err <- f ;;
    (fun w =>
       let s := signaller w in
       (tt, {| signaller := {| initiator := initiator s;
                               localPeerID := localPeerID s;
                               remotePeerID := remotePeerID s;
                               closeChannel := closeChannel s;
                               closeOnce := true |};
               events := events w |})) ;;
    ret err.

Section Methods.

Variable env : Collaborators.

Definition recvonly : RtpTransceiverInit :=
  {| Direction := RTPTransceiverDirectionRecvonly |}.
Definition sendrecv : RtpTransceiverInit :=
  {| Direction := RTPTransceiverDirectionSendrecv |}.

(** [func (s * Signaller) Negotiate()] *)
Definition Negotiate : M unit := emit Negotiator_Negotiate.

(** [func (s * Signaller) initialize() error] *)
Definition initialize : M error :=
  s <- this ;;
  when (initiator s) (emit MediaEngine_RegisterDefaultCodecs) ;;
  err <- call (PC_AddTransceiverFromKind RTPCodecTypeVideo recvonly)
              (fun h => pc_AddTransceiverFromKind env h RTPCodecTypeVideo recvonly) ;;
  match err with
  | Some _ =>
      ret (Some (OtherError (gs "[%s] NewSignaller: Error pre-adding video transceiver: %s")))
  | None =>
      err <- call (PC_AddTransceiverFromKind RTPCodecTypeAudio recvonly)
                  (fun h => pc_AddTransceiverFromKind env h RTPCodecTypeAudio recvonly) ;;
      match err with
      | Some _ =>
          ret (Some (OtherError (gs "[%s] NewSignaller: Error pre-adding audio transceiver: %s")))
      | None =>
          when (initiator s) (emit Negotiator_Negotiate) ;;
          ret None
      end
  end.

(** [func NewSignaller(initiator, peerConnection, mediaEngine, localPeerID,
    remotePeerID, onSignal)], returning the signaller and an error: the new signaller with
    the calls made so far, and the error. *)
Definition NewSignaller (initiator : bool) (localPeerID remotePeerID : gostring)
  : error * World :=
  (emit (Negotiator_New initiator remotePeerID) ;;
   emit PC_OnICEConnectionStateChange ;;
   initialize)
    {| signaller := {| initiator := initiator;
                       localPeerID := localPeerID;
                       remotePeerID := remotePeerID;
                       closeChannel := ChanOpen;
                       closeOnce := false |};
       events := [] |}.

(** [func (s * Signaller) Close() (err error)] *)
Definition Close : M error :=
  closeOnce_Do
    (err <- call PC_Close (pc_Close env) ;;
     close_closeChannel ;;
     ret err).

(** [func (s * Signaller) handleICEConnectionStateChange(connectionState)] *)
Definition handleICEConnectionStateChange (connectionState : ICEConnectionState) : M unit :=
  match connectionState with
  | ICEConnectionStateClosed
  | ICEConnectionStateDisconnected
  | ICEConnectionStateFailed => Close ;; ret tt
  | _ => ret tt
  end.

(** [func (s * Signaller) handleTransceiverRequest(transceiverRequest)] *)
Definition handleTransceiverRequest (kind : RTPCodecType) : M unit :=
  emit (Negotiator_AddTransceiverFromKind kind sendrecv).

(** [func (s * Signaller) handleRemoteOffer(sessionDescription) (err error)] *)
Definition handleRemoteOffer (sessionDescription : SessionDescription) : M error :=
  s <- this ;;
  err <- call (MediaEngine_PopulateFromSDP sessionDescription)
              (fun h => me_PopulateFromSDP env h sessionDescription) ;;
  match err with
  | Some _ => ret (Some (OtherError (gs "[%s] Error populating codec info from SDP: %s")))
  | None =>
      err <- call (PC_SetRemoteDescription sessionDescription)
                  (fun h => pc_SetRemoteDescription env h sessionDescription) ;;
      match err with
      | Some e => ret (Some (Wrapped (gs "[%s] Error setting remote description: %w") e))
      | None =>
          r <- call PC_CreateAnswer (pc_CreateAnswer env) ;;
          let (answer, err) := r : SessionDescription * error in
          match err with
          | Some e => ret (Some (Wrapped (gs "[%s] Error creating answer: %w") e))
          | None =>
              err <- call (PC_SetLocalDescription answer)
                          (fun h => pc_SetLocalDescription env h answer) ;;
              match err with
              | Some e =>
                  ret (Some (Wrapped (gs "[%s] Error setting local description: %w") e))
              | None =>
                  emit (OnSignal (NewPayloadSDP (localPeerID s) answer)) ;;
                  ret None
              end
          end
      end
  end.

(** [func (s * Signaller) handleRemoteAnswer(sessionDescription) (err error)] *)
Definition handleRemoteAnswer (sessionDescription : SessionDescription) : M error :=
  err <- call (PC_SetRemoteDescription sessionDescription)
              (fun h => pc_SetRemoteDescription env h sessionDescription) ;;
  match err with
  | Some e => ret (Some (Wrapped (gs "[%s] Error setting remote description: %w") e))
  | None => ret None
  end.

(** [func (s * Signaller) handleRemoteSDP(sessionDescription) (err error)] *)
Definition handleRemoteSDP (sessionDescription : SessionDescription) : M error :=
  match Type_ sessionDescription with
  | SDPTypeOffer => handleRemoteOffer sessionDescription
  | SDPTypeAnswer => handleRemoteAnswer sessionDescription
  | _ => ret (Some (OtherError (gs "[%s] Unexpected sdp type: %s")))
  end.

(** [func (s * Signaller) Signal(payload map[string]interface{}) error] *)
Definition Signal (payload : PayloadMap) : M error :=
  let (signalPayload, err) := NewPayloadFromMap env payload in
  match err with
  | Some _ => ret (Some (OtherError (gs "Error constructing signal from payload: %s")))
  | None =>
      match Signal_ signalPayload with
      | Candidate c =>
          call (PC_AddICECandidate c) (fun h => pc_AddICECandidate env h c)
      | Renegotiate =>
          Negotiate ;;
          ret None
      | TransceiverRequest kind _ =>
          handleTransceiverRequest kind ;;
          ret None
      | SessionDescriptionSignal sd =>
          handleRemoteSDP sd
      | OtherSignal _ =>
          ret (Some (OtherError (gs "[%s] Unexpected signal: %#v ")))
      end
  end.

(** [func (s * Signaller) handleLocalRequestNegotiation()] *)
Definition handleLocalRequestNegotiation : M unit :=
  s <- this ;;
  emit (OnSignal (NewPayloadRenegotiate (localPeerID s))).

(** [func (s * Signaller) handleLocalOffer(offer, err)] *)
Definition handleLocalOffer (offer : SessionDescription) (err : error) : M unit :=
  s <- this ;;
  match err with
  | Some _ => ret tt
  | None =>
      err <- call (PC_SetLocalDescription offer)
                  (fun h => pc_SetLocalDescription env h offer) ;;
      match err with
      | Some _ => ret tt
      | None => emit (OnSignal (NewPayloadSDP (localPeerID s) offer))
      end
  end.

(** [func (s * Signaller) SendTransceiverRequest(kind, direction)] *)
Definition SendTransceiverRequest (kind : RTPCodecType)
           (direction : RTPTransceiverDirection) : M unit :=
  s <- this ;;
  if negb (initiator s) then
    emit (OnSignal (NewTransceiverRequest (localPeerID s) kind direction))
  else ret tt.

(** The calls a user of the signaller and the peer connection make on it. *)
Inductive Op : Type :=
| OpClose
| OpICEConnectionStateChange (connectionState : ICEConnectionState)
| OpSignal (payload : PayloadMap)
| OpNegotiate
| OpSendTransceiverRequest (kind : RTPCodecType) (direction : RTPTransceiverDirection).

Definition step (op : Op) : M unit :=
  match op with
  | OpClose => Close ;; ret tt
  | OpICEConnectionStateChange st => handleICEConnectionStateChange st
  | OpSignal payload => Signal payload ;; ret tt
  | OpNegotiate => Negotiate
  | OpSendTransceiverRequest kind direction => SendTransceiverRequest kind direction
  end.

Fixpoint run (ops : list Op) (w : World) : World :=
  match ops with
  | [] => w
  | op :: ops' => run ops' (snd (step op w))
  end.

End Methods.

(** An operation that asks for the signaller to be closed. *)
Definition closes (op : Op) : bool :=
  match op with
  | OpClose => true
  | OpICEConnectionStateChange ICEConnectionStateClosed
  | OpICEConnectionStateChange ICEConnectionStateDisconnected
  | OpICEConnectionStateChange ICEConnectionStateFailed => true
  | _ => false
  end.

Definition isPCClose (e : Event) : bool :=
  match e with PC_Close => true | _ => false end.
Definition isChanClose (e : Event) : bool :=
  match e with Chan_close => true | _ => false end.
Definition isPanic (e : Event) : bool :=
  match e with Panic _ => true | _ => false end.

(** A call on the peer connection. *)
Definition isPCCall (e : Event) : bool :=
  match e with
  | PC_OnICEConnectionStateChange | PC_AddICECandidate _
  | PC_AddTransceiverFromKind _ _ | PC_SetRemoteDescription _
  | PC_SetLocalDescription _ | PC_CreateAnswer | PC_Close => true
  | _ => false
  end.

Definition count (p : Event -> bool) (t : list Event) : nat := length (filter p t).

End Signals.

(* ===================================================================== *)
(** * [signals]: the callback of the peer connection for ICE candidates   *)
(* ===================================================================== *)

Module SignalsCallbacks.
Import GoErrors Signals.

Section Candidates.

(** [webrtc.ICECandidate] and its method [ToJSON], of the WebRTC library. *)
Variable ICECandidate : Type.
Variable ToJSON : ICECandidate -> ICECandidateInit.

(** [func (s * Signaller) handleICECandidate(c * webrtc.ICECandidate)];
    [None] is the [nil] candidate. *)
Definition handleICECandidate (c : option ICECandidate) : M unit :=
  match c with
  | None => ret tt
  | Some c =>
      s <- this ;;
      let payload := {| UserID := localPeerID s;
                        Signal_ := Candidate (ToJSON c) |} in
      emit (OnSignal payload)
  end.

(** [func (s * Signaller) CloseChannel() <-chan struct{}] *)
Definition CloseChannel : M Chan :=
  s <- this ;; ret (closeChannel s).

(** [func (s * Signaller) Initiator() bool] *)
Definition Initiator : M bool :=
  s <- this ;; ret (initiator s).

(** Everything that is called on a signaller: the calls of its user
    ([Op]), and the callbacks it gave to the negotiator and that are
    written for the peer connection. *)
Inductive Call : Type :=
| CallOp (op : Op)
| CallLocalOffer (offer : SessionDescription) (err : error)
| CallLocalRequestNegotiation
| CallICECandidate (c : option ICECandidate).

Definition exec (env : Collaborators) (c : Call) : M unit :=
  match c with
  | CallOp op => step env op
  | CallLocalOffer offer err => handleLocalOffer env offer err
  | CallLocalRequestNegotiation => handleLocalRequestNegotiation
  | CallICECandidate c => handleICECandidate c
  end.

Fixpoint runCalls (env : Collaborators) (cs : list Call) (w : World) : World :=
  match cs with
  | [] => w
  | c :: cs' => runCalls env cs' (snd (exec env c w))
  end.

End Candidates.

End SignalsCallbacks.

(* ===================================================================== *)
(** * [config]: reading the configuration                                 *)
(* ===================================================================== *)

Module Config.
Import GoErrors.

(** ** Library functions

    [strings.Split(s, ",")] and [strconv.Atoi] of Go's standard library. *)

Definition comma : ascii := ","%char.

(** [strings.Split(s, ",")]: the substrings between the commas; one more
    than there are commas, so [[""]] for the empty string. *)
Fixpoint Split (s : gostring) : list gostring :=
  match s with
  | [] => [[]]
  | c :: r =>
      if Ascii.eqb c comma then [] :: Split r
      else match Split r with
           | h :: t => (c :: h) :: t
           | [] => [[c]]
           end
  end.

(** The loop [for _, ch := range []byte(s) { ch -= '0'; if ch > 9 { error };
    n = n*10 + int(ch) }] of [strconv.Atoi], from the accumulator [n]. *)
Fixpoint digits (n : Z) (s : gostring) : option Z :=
  match s with
  | [] => Some n
  | ch :: r =>
      if WsMessage.isDigit ch
      then digits (n * 10 + (Z.of_N (N_of_ascii ch) - 48)) r
      else None
  end.

(** The bounds of [int], 64 bits wide. *)
Definition maxInt : Z := 9223372036854775807.
Definition minInt : Z := -9223372036854775808.

(** [strconv.Atoi(s)]: an optional sign, then decimal digits, at least one;
    [None] stands for the syntax error and for the range error. *)
Definition Atoi (s : gostring) : option Z :=
  match s with
  | [] => None
  | c :: r =>
      let neg := Ascii.eqb c "-" in
      let body := if neg || Ascii.eqb c "+" then r else s in
      match body with
      | [] => None
      | _ =>
          match digits 0 body with
          | None => None
          | Some n =>
              let v := if neg then (- n)%Z else n in
              if (minInt <=? v)%Z && (v <=? maxInt)%Z then Some v else None
          end
      end
  end.

(** ** The configuration

    [type Config struct] is declared in [config.go], which is not at hand:
    the fields below are those [read.go] and its tests read and write,
    with the types they are used at.  [NetworkType], [StoreType] and
    [AuthType] are string types.  A slice is a list, [nil] being the empty
    list. *)

Record TLSConfig : Type := { Cert : gostring; Key : gostring }.

Record RedisConfig : Type := { Host : gostring; Port : Z; Prefix : gostring }.

Record StoreConfig : Type := { Store_Type : gostring; Redis : RedisConfig }.

Record AuthSecretConfig : Type := { Username : gostring; Secret : gostring }.

Record ICEServer : Type := {
  URLs : list gostring;
  AuthType : gostring;
  AuthSecret : AuthSecretConfig
}.

Record SFUConfig : Type := { Interfaces : list gostring }.

Record NetworkConfig : Type := { Network_Type : gostring; SFU : SFUConfig }.

Record Config : Type := {
  BaseURL : gostring;
  BindHost : gostring;
  BindPort : Z;
  TLS : TLSConfig;
  Store : StoreConfig;
  Network : NetworkConfig;
  ICEServers : list ICEServer
}.

(** The zero values: [var c Config], [var ice ICEServer]. *)
Definition zeroICEServer : ICEServer :=
  {| URLs := []; AuthType := [];
     AuthSecret := {| Username := []; Secret := [] |} |}.

Definition zeroConfig : Config :=
  {| BaseURL := []; BindHost := []; BindPort := 0;
     TLS := {| Cert := []; Key := [] |};
     Store := {| Store_Type := [];
                 Redis := {| Host := []; Port := 0; Prefix := [] |} |};
     Network := {| Network_Type := []; SFU := {| Interfaces := [] |} |};
     ICEServers := [] |}.

(** Assignments to one field, the others kept. *)
Definition set_BaseURL (c : Config) (v : gostring) : Config :=
  {| BaseURL := v; BindHost := BindHost c; BindPort := BindPort c; TLS := TLS c;
     Store := Store c; Network := Network c; ICEServers := ICEServers c |}.
Definition set_BindHost (c : Config) (v : gostring) : Config :=
  {| BaseURL := BaseURL c; BindHost := v; BindPort := BindPort c; TLS := TLS c;
     Store := Store c; Network := Network c; ICEServers := ICEServers c |}.
Definition set_BindPort (c : Config) (v : Z) : Config :=
  {| BaseURL := BaseURL c; BindHost := BindHost c; BindPort := v; TLS := TLS c;
     Store := Store c; Network := Network c; ICEServers := ICEServers c |}.
Definition set_TLS (c : Config) (v : TLSConfig) : Config :=
  {| BaseURL := BaseURL c; BindHost := BindHost c; BindPort := BindPort c; TLS := v;
     Store := Store c; Network := Network c; ICEServers := ICEServers c |}.
Definition set_Store (c : Config) (v : StoreConfig) : Config :=
  {| BaseURL := BaseURL c; BindHost := BindHost c; BindPort := BindPort c; TLS := TLS c;
     Store := v; Network := Network c; ICEServers := ICEServers c |}.
Definition set_Network (c : Config) (v : NetworkConfig) : Config :=
  {| BaseURL := BaseURL c; BindHost := BindHost c; BindPort := BindPort c; TLS := TLS c;
     Store := Store c; Network := v; ICEServers := ICEServers c |}.
Definition set_ICEServers (c : Config) (v : list ICEServer) : Config :=
  {| BaseURL := BaseURL c; BindHost := BindHost c; BindPort := BindPort c; TLS := TLS c;
     Store := Store c; Network := Network c; ICEServers := v |}.

Definition set_Cert (c : Config) (v : gostring) : Config :=
  set_TLS c {| Cert := v; Key := Key (TLS c) |}.
Definition set_Key (c : Config) (v : gostring) : Config :=
  set_TLS c {| Cert := Cert (TLS c); Key := v |}.
Definition set_Store_Type (c : Config) (v : gostring) : Config :=
  set_Store c {| Store_Type := v; Redis := Redis (Store c) |}.
Definition set_Redis (c : Config) (v : RedisConfig) : Config :=
  set_Store c {| Store_Type := Store_Type (Store c); Redis := v |}.
Definition set_Redis_Host (c : Config) (v : gostring) : Config :=
  set_Redis c {| Host := v; Port := Port (Redis (Store c));
                 Prefix := Prefix (Redis (Store c)) |}.
Definition set_Redis_Port (c : Config) (v : Z) : Config :=
  set_Redis c {| Host := Host (Redis (Store c)); Port := v;
                 Prefix := Prefix (Redis (Store c)) |}.
Definition set_Redis_Prefix (c : Config) (v : gostring) : Config :=
  set_Redis c {| Host := Host (Redis (Store c)); Port := Port (Redis (Store c));
                 Prefix := v |}.
Definition set_Network_Type (c : Config) (v : gostring) : Config :=
  set_Network c {| Network_Type := v; SFU := SFU (Network c) |}.
Definition set_Interfaces (c : Config) (v : list gostring) : Config :=
  set_Network c {| Network_Type := Network_Type (Network c);
                   SFU := {| Interfaces := v |} |}.

Definition set_URLs (ice : ICEServer) (v : list gostring) : ICEServer :=
  {| URLs := v; AuthType := AuthType ice; AuthSecret := AuthSecret ice |}.
Definition set_AuthType (ice : ICEServer) (v : gostring) : ICEServer :=
  {| URLs := URLs ice; AuthType := v; AuthSecret := AuthSecret ice |}.
Definition set_Secret (ice : ICEServer) (v : gostring) : ICEServer :=
  {| URLs := URLs ice; AuthType := AuthType ice;
     AuthSecret := {| Username := Username (AuthSecret ice); Secret := v |} |}.
Definition set_Username (ice : ICEServer) (v : gostring) : ICEServer :=
  {| URLs := URLs ice; AuthType := AuthType ice;
     AuthSecret := {| Username := v; Secret := Secret (AuthSecret ice) |} |}.

(** [value != ""] *)
Definition nonEmpty (value : gostring) : bool :=
  match value with
  | [] => false
  | _ => true
  end.

Section Reading.

(** The constants of [config.go], which is not at hand. *)
Variables NetworkTypeMesh NetworkTypeSFU : gostring.
Variables StoreTypeRedis StoreTypeMemory : gostring.
Variables AuthTypeSecret AuthTypeNone : gostring.

(** [os.Getenv]: the value of a variable, empty when it is not set. *)
Variable Getenv : gostring -> gostring.

(** A setter [setEnvX(dest * T, name string)] takes the value [dest]
    points to and gives the value it leaves there. *)

(** [func setEnvSlice(dest * []string, name string)] *)
Definition setEnvSlice (dest : list gostring) (name : gostring) : list gostring :=
  let value := Getenv name in
  fold_left (fun dest v => if nonEmpty v then dest ++ [v] else dest)
            (Split value) dest.

(** [func setEnvString(dest * string, name string)] *)
Definition setEnvString (dest : gostring) (name : gostring) : gostring :=
  let value := Getenv name in
  if nonEmpty value then value else dest.

(** [func setEnvInt(dest * int, name string)] *)
Definition setEnvInt (dest : Z) (name : gostring) : Z :=
  match Atoi (Getenv name) with
  | Some value => value
  | None => dest
  end.

(** [func setEnvAuthType(authType * AuthType, name string)] *)
Definition setEnvAuthType (authType : gostring) (name : gostring) : gostring :=
  let value := Getenv name in
  if WsMessage.gostring_eqb value AuthTypeSecret then AuthTypeSecret
  else if WsMessage.gostring_eqb value AuthTypeNone then AuthTypeNone
  else authType.

(** [func setEnvNetworkType(networkType * NetworkType, name string)] *)
Definition setEnvNetworkType (networkType : gostring) (name : gostring) : gostring :=
  let value := Getenv name in
  if WsMessage.gostring_eqb value NetworkTypeMesh then NetworkTypeMesh
  else if WsMessage.gostring_eqb value NetworkTypeSFU then NetworkTypeSFU
  else networkType.

(** [func setEnvStoreType(storeType * StoreType, name string)] *)
Definition setEnvStoreType (storeType : gostring) (name : gostring) : gostring :=
  let value := Getenv name in
  if WsMessage.gostring_eqb value StoreTypeRedis then StoreTypeRedis
  else if WsMessage.gostring_eqb value StoreTypeMemory then StoreTypeMemory
  else storeType.

(** [func setEnvStringArray(interfaces * []string, name string)] *)
Definition setEnvStringArray (interfaces : list gostring) (name : gostring)
  : list gostring :=
  let value := Getenv name in
  if nonEmpty value then Split value else interfaces.

(** [func ReadEnv(prefix string, c * Config)] *)
Definition ReadEnv (prefix : gostring) (c : Config) : Config :=
  let c := set_BaseURL c (setEnvString (BaseURL c) (prefix ++ gs "BASE_URL")) in
  let c := set_BindHost c (setEnvString (BindHost c) (prefix ++ gs "BIND_HOST")) in
  let c := set_BindPort c (setEnvInt (BindPort c) (prefix ++ gs "BIND_PORT")) in
  let c := set_Cert c (setEnvString (Cert (TLS c)) (prefix ++ gs "TLS_CERT")) in
  let c := set_Key c (setEnvString (Key (TLS c)) (prefix ++ gs "TLS_KEY")) in
  let c := set_Store_Type c
             (setEnvStoreType (Store_Type (Store c)) (prefix ++ gs "STORE_TYPE")) in
  let c := set_Redis_Host c
             (setEnvString (Host (Redis (Store c))) (prefix ++ gs "STORE_REDIS_HOST")) in
  let c := set_Redis_Port c
             (setEnvInt (Port (Redis (Store c))) (prefix ++ gs "STORE_REDIS_PORT")) in
  let c := set_Redis_Prefix c
             (setEnvString (Prefix (Redis (Store c))) (prefix ++ gs "STORE_REDIS_PREFIX")) in
  let c := set_Network_Type c
             (setEnvNetworkType (Network_Type (Network c)) (prefix ++ gs "NETWORK_TYPE")) in
  let c := set_Interfaces c
             (setEnvStringArray (Interfaces (SFU (Network c)))
                                (prefix ++ gs "NETWORK_SFU_INTERFACES")) in
  let ice := zeroICEServer in
  let ice := set_URLs ice (setEnvSlice (URLs ice) (prefix ++ gs "ICE_SERVER_URLS")) in
  if 0 <? length (URLs ice) then
    let ice := set_AuthType ice
                 (setEnvAuthType (AuthType ice) (prefix ++ gs "ICE_SERVER_AUTH_TYPE")) in
    let ice := set_Secret ice
                 (setEnvString (Secret (AuthSecret ice)) (prefix ++ gs "ICE_SERVER_SECRET")) in
    let ice := set_Username ice
                 (setEnvString (Username (AuthSecret ice))
                               (prefix ++ gs "ICE_SERVER_USERNAME")) in
    set_ICEServers c (ICEServers c ++ [ice])
  else c.

(** [func Init(c * Config)] *)
Definition Init (c : Config) : Config :=
  let c := set_BindPort c 3000 in
  let c := set_Network_Type c NetworkTypeMesh in
  let c := set_Store_Type c StoreTypeMemory in
  set_ICEServers c
    [set_URLs zeroICEServer [gs "stun:stun.l.google.com:19302"];
     set_URLs zeroICEServer [gs "stun:global.stun.twilio.com:3478?transport=udp"]].

(** ** Files

    A file is known by its name; a reader by the bytes it yields. *)

(** What [ReadFile] does to the file system, in order. *)
Inductive FsEvent : Type :=
| FsOpen (filename : gostring) (ok : bool)      (* os.Open(filename) *)
| FsDecode (filename : gostring)                (* decoder.Decode(c) on the file *)
| FsClose (filename : gostring).                (* f.Close() *)

(** The file system and the YAML decoder: [os_Open] gives the bytes of a
    file or an error; [yaml_Decode] the configuration the decoder leaves
    in [c], and its error. *)
Record FileSystem : Type := {
  os_Open : gostring -> gostring + GoError;
  yaml_Decode : gostring -> Config -> Config * error
}.

Variable fs : FileSystem.

(** [func ReadYAML(reader io.Reader, c * Config) error] *)
Definition ReadYAML (reader : gostring) (c : Config) : error * Config :=
  let (c', err) := yaml_Decode fs reader c in
  match err with
  | Some e => (Some (Wrapped (gs "Error parsing YAML: %w") e), c')
  | None => (None, c')
  end.

(** The configuration [c] points to, and the calls on the file system. *)
Record Loading : Type := {
  cfg : Config;
  fslog : list FsEvent
}.

Definition L : Type -> Type := State.M Loading.

Definition logFs (e : FsEvent) : L unit :=
  fun l => (tt, {| cfg := cfg l; fslog := fslog l ++ [e] |}).

(** [func ReadFile(filename string, c * Config) (err error)] *)
Definition ReadFile (filename : gostring) : L error :=
  match os_Open fs filename with
  | inr err =>
      logFs (FsOpen filename false) ;;
      State.ret (Some (Wrapped (gs "Error opening YAML file: %w") err))
  | inl f =>
      logFs (FsOpen filename true) ;;
      logFs (FsDecode filename) ;;
      err <- (fun l => let (err, c') := ReadYAML f (cfg l) in
                       (err, {| cfg := c'; fslog := fslog l |})) ;;
      logFs (FsClose filename) ;;
      State.ret err
  end.

(** [func ReadFiles(filenames []string, c * Config) (err error)] *)
Fixpoint ReadFiles (filenames : list gostring) : L error :=
  match filenames with
  | [] => State.ret None
  | filename :: rest =>
      err <- ReadFile filename ;;
      match err with
      | Some _ => State.ret err
      | None => ReadFiles rest
      end
  end.

(** [func Read(filenames []string) (c Config, err error)], with the calls
    it made on the file system. *)
Definition Read (filenames : list gostring) : Config * error * list FsEvent :=
  let c := Init zeroConfig in
  let (err, l) := ReadFiles filenames {| cfg := c; fslog := [] |} in
  let c := ReadEnv (gs "PEERCALLS_") (cfg l) in
  (c, err, fslog l).

End Reading.

End Config.

Unset Implicit Arguments.

(* ===================================================================== *)
(** * Vocabulary: paths *)
(* ===================================================================== *)

Module PathProps.
Import GoPath.

(** A path segment: not empty, no slash in it. *)
Definition segment (s : gostring) : Prop := s <> [] /\ ~ In slash s.

(** The input read so far stops at a segment boundary. *)
Definition boundary (x : gostring) : Prop := x = [] \/ exists x0, x = x0 ++ [slash].

(** On a rooted path the buffer keeps its leading slash, which [..] never
    removes. *)
Definition rootedInv (rooted : bool) (out : gostring) (dotdot : nat) : Prop :=
  rooted = true -> dotdot = 1 /\ exists t, out = slash :: t.

(** The slash written before a real path element. *)
Definition sep (rooted : bool) (out : gostring) : gostring :=
  if (rooted && negb (length out =? 1)) || (negb rooted && negb (length out =? 0))
  then out ++ [slash] else out.

End PathProps.

(* ===================================================================== *)
(** * Vocabulary: the traces of the socket handler *)
(* ===================================================================== *)

Module HandlerProps.
Import GoErrors WsHandler.

Section Traces.

Variable env : Env.
Variable path : gostring.
Variable cleanup : bool.

Let clientID := GoPath.Base path.
Let room := GoPath.Base (GoPath.Dir path).
Let adapter := rooms_Enter env room.

(** The events up to and including [adapter.Add]. *)
Definition opening : list Event :=
  [EvAccept; EvNewClient clientID; EvLog (LogNewConnection room clientID);
   EvEnter room; EvAdd adapter clientID].

(** The calls of the message handler, one per frame. *)
Definition handled (msgs : list WsMessage.Message) : list Event :=
  map (fun m => EvHandleMessage {| re_ClientID := clientID; re_Room := room;
                                   re_Adapter := adapter; re_Message := m |}) msgs.

(** The log line written for the result of [Subscribe]. *)
Definition subscriptionLog (err : error) : list Event :=
  if errors_Is_Canceled err then []
  else if (CloseStatus err =? StatusNormalClosure)%Z
          || (CloseStatus err =? StatusGoingAway)%Z then []
  else match err with
       | Some e => [EvLog (LogSubscriptionError e)]
       | None => []
       end.

Definition cleanupEvent : CleanupEvent :=
  {| ce_ClientID := clientID; ce_Room := room; ce_Adapter := adapter |}.

(** The deferred calls that run when the handler returns after
    [adapter.Add] failed. *)
Definition closing : list Event :=
  [EvLog (LogExit room clientID); EvExit room; EvClientClose;
   EvLog (LogClosing room clientID); EvSocketClose StatusInternalError []].

(** The deferred calls that run when the handler returns after
    [adapter.Add] succeeded. *)
Definition teardown : list Event :=
  [EvLog (LogRemove room clientID); EvRemove adapter clientID]
  ++ match adapter_Remove env with
     | Some err => [EvLog (LogRemoveError err)]
     | None => []
     end
  ++ (if cleanup then [EvCleanup cleanupEvent] else [])
  ++ closing.

End Traces.

(** The calls from [websocket.Accept] to [client.Subscribe]. *)
Definition openingCalls (env : Env) (path : gostring) : list Event :=
  let clientID := GoPath.Base path in
  let room := GoPath.Base (GoPath.Dir path) in
  [EvAccept; EvNewClient clientID; EvEnter room;
   EvAdd (rooms_Enter env room) clientID].

(** The calls of the teardown, in the order the handler makes them. *)
Definition teardownCalls (env : Env) (path : gostring) (cleanup : bool) : list Event :=
  let clientID := GoPath.Base path in
  let room := GoPath.Base (GoPath.Dir path) in
  [EvRemove (rooms_Enter env room) clientID]
  ++ (if cleanup then [EvCleanup (cleanupEvent env path)] else [])
  ++ [EvExit room; EvClientClose; EvSocketClose StatusInternalError []].

(** The calls of the teardown in the order of the specification: the
    cleanup callback first, then [adapter.Remove]. *)
Definition specTeardownCalls (env : Env) (path : gostring) (cleanup : bool) : list Event :=
  let clientID := GoPath.Base path in
  let room := GoPath.Base (GoPath.Dir path) in
  (if cleanup then [EvCleanup (cleanupEvent env path)] else [])
  ++ [EvRemove (rooms_Enter env room) clientID;
      EvExit room; EvClientClose; EvSocketClose StatusInternalError []].

(** A client that connects to [/ws/r/c], sends nothing and goes away. *)
Definition envLeaves : Env :=
  {| websocket_Accept := None;
     rooms_Enter := fun _ => 0;
     adapter_Add := None;
     adapter_Remove := None;
     client_Subscribe := ([], Some (CloseError StatusNormalClosure [])) |}.

(** The adapter refuses the client. *)
Definition envAddFails : Env :=
  {| websocket_Accept := None;
     rooms_Enter := fun _ => 0;
     adapter_Add := Some (OtherError (gs "duplicate client"));
     adapter_Remove := None;
     client_Subscribe := ([], None) |}.

(** C8, as the specification states it: whenever the path is
    [<pre>/<room>/<clientID>], the handler enters [room] for the client
    [clientID]. *)
Definition lastTwoSegments (env : Env) (path : gostring) : Prop :=
  forall pre room clientID,
    path = pre ++ GoPath.slash :: room ++ GoPath.slash :: clientID ->
    PathProps.segment room -> PathProps.segment clientID ->
    In (EvNewClient clientID) (HandleRoomWithCleanup env path false) /\
    In (EvEnter room) (HandleRoomWithCleanup env path false).

End HandlerProps.

(* ===================================================================== *)
(** * Vocabulary: the worlds of the signaller *)
(* ===================================================================== *)

Module SignallerProps.
Import GoErrors Signals.

Definition answer0 : SessionDescription :=
  {| Type_ := SDPTypeAnswer; SDP := gs "v=0" |}.

Definition offer0 : SessionDescription :=
  {| Type_ := SDPTypeOffer; SDP := gs "v=0" |}.

(** A peer connection and a media engine on which every call succeeds; the
    answer is [answer0]; every inbound payload decodes to a signal of a
    type the signaller does not know. *)
Definition envOK : Collaborators :=
  {| pc_AddICECandidate := fun _ _ => None;
     pc_AddTransceiverFromKind := fun _ _ _ => None;
     pc_SetRemoteDescription := fun _ _ => None;
     pc_SetLocalDescription := fun _ _ => None;
     pc_CreateAnswer := fun _ => (answer0, None);
     pc_Close := fun _ => None;
     me_PopulateFromSDP := fun _ _ => None;
     NewPayloadFromMap := fun _ =>
       ({| UserID := gs "remote"; Signal_ := OtherSignal (gs "string") |}, None) |}.

(** The peer connection refuses the video transceiver. *)
Definition envVideoFails : Collaborators :=
  {| pc_AddICECandidate := fun _ _ => None;
     pc_AddTransceiverFromKind := fun _ kind _ =>
       match kind with
       | RTPCodecTypeVideo => Some (OtherError (gs "no video codec"))
       | _ => None
       end;
     pc_SetRemoteDescription := fun _ _ => None;
     pc_SetLocalDescription := fun _ _ => None;
     pc_CreateAnswer := fun _ => (answer0, None);
     pc_Close := fun _ => None;
     me_PopulateFromSDP := fun _ _ => None;
     NewPayloadFromMap := fun _ =>
       ({| UserID := gs "remote"; Signal_ := Renegotiate |}, None) |}.

(** Every call succeeds and every inbound payload decodes to the offer
    [offer0]. *)
Definition envOffer : Collaborators :=
  {| pc_AddICECandidate := fun _ _ => None;
     pc_AddTransceiverFromKind := fun _ _ _ => None;
     pc_SetRemoteDescription := fun _ _ => None;
     pc_SetLocalDescription := fun _ _ => None;
     pc_CreateAnswer := fun _ => (answer0, None);
     pc_Close := fun _ => None;
     me_PopulateFromSDP := fun _ _ => None;
     NewPayloadFromMap := fun _ =>
       ({| UserID := gs "remote"; Signal_ := SessionDescriptionSignal offer0 |}, None) |}.

(** A responder, open, that has made no call yet. *)
Definition responder0 : World :=
  {| signaller := {| initiator := false; localPeerID := gs "local";
                     remotePeerID := gs "remote";
                     closeChannel := ChanOpen; closeOnce := false |};
     events := [] |}.

(** What the specification says of the constructor, for every input. *)
Definition specConstructor (initiator : bool) (t : list Event) : Prop :=
  (In MediaEngine_RegisterDefaultCodecs t <-> initiator = true) /\
  (exists t1 t2 t3,
      t = t1 ++ PC_AddTransceiverFromKind RTPCodecTypeVideo recvonly
             :: t2 ++ PC_AddTransceiverFromKind RTPCodecTypeAudio recvonly :: t3) /\
  (In Negotiator_Negotiate t <-> initiator = true).

(** The calls of [handleRemoteOffer], in order. *)
Definition offerSteps (localID : gostring) (sd answer : SessionDescription) : list Event :=
  [MediaEngine_PopulateFromSDP sd; PC_SetRemoteDescription sd; PC_CreateAnswer;
   PC_SetLocalDescription answer; OnSignal (NewPayloadSDP localID answer)].

(** What a call of the signaller that handles the offer [sd] does from the
    world [w], [r] being its result and the world it leaves: the steps in
    order, up to the first one that fails. *)
Definition offerOutcome (env : Collaborators) (sd : SessionDescription) (w : World)
           (r : error * World) : Prop :=
  let h := events w in
  let answer :=
    fst (pc_CreateAnswer env
           (h ++ [MediaEngine_PopulateFromSDP sd; PC_SetRemoteDescription sd])) in
  let steps := offerSteps (localPeerID (signaller w)) sd answer in
  signaller (snd r) = signaller w /\
  match me_PopulateFromSDP env h sd with
  | Some _ => events (snd r) = h ++ firstn 1 steps /\ fst r <> None
  | None =>
      match pc_SetRemoteDescription env (h ++ firstn 1 steps) sd with
      | Some _ => events (snd r) = h ++ firstn 2 steps /\ fst r <> None
      | None =>
          match snd (pc_CreateAnswer env (h ++ firstn 2 steps)) with
          | Some _ => events (snd r) = h ++ firstn 3 steps /\ fst r <> None
          | None =>
              match pc_SetLocalDescription env (h ++ firstn 3 steps) answer with
              | Some _ => events (snd r) = h ++ firstn 4 steps /\ fst r <> None
              | None => events (snd r) = h ++ steps /\ fst r = None
              end
          end
      end
  end.

(** The variants of a signal the signaller knows. *)
Definition knownSignal (s : SignalValue) : bool :=
  match s with
  | Candidate _ | Renegotiate | TransceiverRequest _ _ => true
  | SessionDescriptionSignal sd =>
      match Type_ sd with
      | SDPTypeOffer | SDPTypeAnswer => true
      | _ => false
      end
  | OtherSignal _ => false
  end.

(** The two errors for a signal that is not expected. *)
Definition unexpected (e : GoError) : Prop :=
  e = OtherError (gs "[%s] Unexpected signal: %#v ")
  \/ e = OtherError (gs "[%s] Unexpected sdp type: %s").

Definition requestsNegotiation (s : SignalValue) : bool :=
  match s with
  | Renegotiate | TransceiverRequest _ _ => true
  | _ => false
  end.

(** An event that is neither a [peerConnection.Close()] nor a close of the
    close channel nor a panic. *)
Definition quiet (e : Event) : bool :=
  negb (isPCClose e || isChanClose e || isPanic e).

(** A computation that leaves the signaller as it is and only adds quiet
    events. *)
Definition Quiet {A} (m : M A) : Prop :=
  forall w,
    signaller (snd (m w)) = signaller w /\
    exists es, events (snd (m w)) = events w ++ es /\ forallb quiet es = true.

(** The state of the latch: [b] tells whether [Close] has run. *)
Definition latch (b : bool) (w : World) : Prop :=
  closeOnce (signaller w) = b /\
  closeChannel (signaller w) = (if b then ChanClosed else ChanOpen) /\
  count isPCClose (events w) = (if b then 1 else 0) /\
  count isChanClose (events w) = (if b then 1 else 0) /\
  count isPanic (events w) = 0.

(** [Close] called [n] times in a row. *)
Definition closeTimes (env : Collaborators) (n : nat) (w : World) : World :=
  Nat.iter n (fun x => snd (Close env x)) w.

End SignallerProps.

(* ===================================================================== *)
(** * Vocabulary: JSON texts *)
(* ===================================================================== *)

Module CodecProps.
Import WsMessage.

(** What may follow a value: the end of the input, or the separator or the
    closing bracket of the enclosing array or object. *)
Definition delimited (rest : gostring) : bool :=
  match rest with
  | [] => true
  | c :: _ => Ascii.eqb c "," || Ascii.eqb c "]" || Ascii.eqb c "}"
  end.

(** The first byte of a value: no white space, no closing bracket. *)
Definition opens (c : ascii) : bool :=
  negb (isSpace c) && negb (Ascii.eqb c "]") && negb (Ascii.eqb c "}").

(** Parsing the text of [v] gives [v] back and stops after it. *)
Definition roundTrips (v : Json) : Prop :=
  forall fuel rest,
    length (print v) <= fuel -> delimited rest = true ->
    parse_value fuel (print v ++ rest) = Some (v, rest).

Definition itemsText (xs : list Json) : gostring :=
  flat_map (fun y => ","%char :: print y) xs.

Definition fieldsText (fs : list (gostring * Json)) : gostring :=
  flat_map (fun ky => ","%char :: print_string (fst ky) ++ ":"%char :: print (snd ky)) fs.

(** A JSON text written with ['] for the double quote. *)
Definition text (s : string) : gostring :=
  map (fun c => if Ascii.eqb c "'" then quote else c) (list_ascii_of_string s).

End CodecProps.

(* ===================================================================== *)
(** * Vocabulary: what a trace of the socket handler holds *)
(* ===================================================================== *)

Module HandlerCounts.
Import GoErrors WsHandler.

(** The values of the events of one kind, in order. *)
Definition project {A} (f : Event -> option A) (t : list Event) : list A :=
  flat_map (fun e => match f e with Some a => [a] | None => [] end) t.

Definition enterOf (e : Event) : option gostring :=
  match e with EvEnter room => Some room | _ => None end.
Definition exitOf (e : Event) : option gostring :=
  match e with EvExit room => Some room | _ => None end.
Definition newClientOf (e : Event) : option gostring :=
  match e with EvNewClient clientID => Some clientID | _ => None end.
Definition clientCloseOf (e : Event) : option unit :=
  match e with EvClientClose => Some tt | _ => None end.
Definition socketCloseOf (e : Event) : option Z :=
  match e with EvSocketClose code _ => Some code | _ => None end.
Definition addOf (e : Event) : option (AdapterRef * gostring) :=
  match e with EvAdd adapter clientID => Some (adapter, clientID) | _ => None end.
Definition removeOf (e : Event) : option (AdapterRef * gostring) :=
  match e with EvRemove adapter clientID => Some (adapter, clientID) | _ => None end.
Definition cleanupOf (e : Event) : option CleanupEvent :=
  match e with EvCleanup ev => Some ev | _ => None end.

(** The upgrade succeeded; the client was added to the room. *)
Definition accepted (env : Env) : bool :=
  match websocket_Accept env with None => true | Some _ => false end.
Definition added (env : Env) : bool :=
  accepted env && match adapter_Add env with None => true | Some _ => false end.

(** [l] if [b], nothing otherwise. *)
Definition only {A} (b : bool) (l : list A) : list A := if b then l else [].

(** A name that is one path element: not empty, and without a slash unless
    it is the root. *)
Definition oneElement (s : gostring) : Prop :=
  s <> [] /\ (s = [GoPath.slash] \/ ~ In GoPath.slash s).

Definition notCleanup (e : Event) : bool :=
  match e with EvCleanup _ => false | _ => true end.

(** The upgrade fails. *)
Definition envNoUpgrade : Env :=
  {| websocket_Accept := Some (OtherError (gs "not a websocket handshake"));
     rooms_Enter := fun _ => 0;
     adapter_Add := None;
     adapter_Remove := None;
     client_Subscribe := ([], None) |}.

End HandlerCounts.

(* ===================================================================== *)
(** * Vocabulary: what the signaller sends *)
(* ===================================================================== *)

Module SignallerStamps.
Import GoErrors Signals SignalsCallbacks SignallerProps.

(** An outbound payload carries the user ID [local]. *)
Definition stampedBy (local : gostring) (e : Event) : Prop :=
  match e with
  | OnSignal p => UserID p = local
  | _ => True
  end.

(** The fields of a signaller that say who it is. *)
Definition identity (s : Signaller) : bool * gostring * gostring :=
  (initiator s, localPeerID s, remotePeerID s).

(** A computation that keeps the identity of the signaller and stamps
    every payload it sends with the local peer ID [local]. *)
Definition Stamped {A} (local : gostring) (m : M A) : Prop :=
  forall w,
    localPeerID (signaller w) = local ->
    identity (signaller (snd (m w))) = identity (signaller w) /\
    exists es, events (snd (m w)) = events w ++ es /\ Forall (stampedBy local) es.

(** The identity is [id] and everything sent so far is stamped. *)
Definition stampedWorld (id : bool * gostring * gostring) (w : World) : Prop :=
  identity (signaller w) = id /\ Forall (stampedBy (snd (fst id))) (events w).

Definition isOnSignal (e : Event) : bool :=
  match e with OnSignal _ => true | _ => false end.

(** Every call succeeds but [peerConnection.Close()]. *)
Definition envCloseFails : Collaborators :=
  {| pc_AddICECandidate := fun _ _ => None;
     pc_AddTransceiverFromKind := fun _ _ _ => None;
     pc_SetRemoteDescription := fun _ _ => None;
     pc_SetLocalDescription := fun _ _ => None;
     pc_CreateAnswer := fun _ => (answer0, None);
     pc_Close := fun _ => Some (OtherError (gs "connection already closed"));
     me_PopulateFromSDP := fun _ _ => None;
     NewPayloadFromMap := fun _ =>
       ({| UserID := gs "remote"; Signal_ := Renegotiate |}, None) |}.

(** Every inbound payload decodes to the answer [answer0], which the peer
    connection refuses. *)
Definition envAnswerRefused : Collaborators :=
  {| pc_AddICECandidate := fun _ _ => None;
     pc_AddTransceiverFromKind := fun _ _ _ => None;
     pc_SetRemoteDescription := fun _ _ => Some (OtherError (gs "wrong state"));
     pc_SetLocalDescription := fun _ _ => None;
     pc_CreateAnswer := fun _ => (answer0, None);
     pc_Close := fun _ => None;
     me_PopulateFromSDP := fun _ _ => None;
     NewPayloadFromMap := fun _ =>
       ({| UserID := gs "remote"; Signal_ := SessionDescriptionSignal answer0 |}, None) |}.

(** Every inbound payload decodes to a request for a send-only audio
    transceiver. *)
Definition envTransceiver : Collaborators :=
  {| pc_AddICECandidate := fun _ _ => None;
     pc_AddTransceiverFromKind := fun _ _ _ => None;
     pc_SetRemoteDescription := fun _ _ => None;
     pc_SetLocalDescription := fun _ _ => None;
     pc_CreateAnswer := fun _ => (answer0, None);
     pc_Close := fun _ => None;
     me_PopulateFromSDP := fun _ _ => None;
     NewPayloadFromMap := fun _ =>
       ({| UserID := gs "remote";
           Signal_ := TransceiverRequest RTPCodecTypeAudio
                        RTPTransceiverDirectionSendonly |}, None) |}.

End SignallerStamps.

(* ===================================================================== *)
(** * Vocabulary: configurations and environments *)
(* ===================================================================== *)

Module ConfigProps.
Import GoErrors Config.

(** [strings.Join(xs, ",")] *)
Definition Join (xs : list gostring) : gostring :=
  match xs with
  | [] => []
  | x :: rest => x ++ flat_map (fun y => comma :: y) rest
  end.

(** [strconv.Itoa(n)]: the decimal text of an integer. *)
Definition Itoa (n : Z) : gostring :=
  list_ascii_of_string (NilZero.string_of_int (Z.to_int n)).

Definition commaFree (x : gostring) : Prop := ~ In comma x.

(** The value of a sequence of decimal digits read after [n]. *)
Fixpoint horner (n : Z) (d : Decimal.uint) : Z :=
  match d with
  | Decimal.Nil => n
  | Decimal.D0 l => horner (n * 10 + 0) l
  | Decimal.D1 l => horner (n * 10 + 1) l
  | Decimal.D2 l => horner (n * 10 + 2) l
  | Decimal.D3 l => horner (n * 10 + 3) l
  | Decimal.D4 l => horner (n * 10 + 4) l
  | Decimal.D5 l => horner (n * 10 + 5) l
  | Decimal.D6 l => horner (n * 10 + 6) l
  | Decimal.D7 l => horner (n * 10 + 7) l
  | Decimal.D8 l => horner (n * 10 + 8) l
  | Decimal.D9 l => horner (n * 10 + 9) l
  end.

(** Two configurations with the same settings, the ICE servers apart. *)
Definition sameSettings (c1 c2 : Config) : Prop :=
  BaseURL c1 = BaseURL c2 /\ BindHost c1 = BindHost c2 /\
  BindPort c1 = BindPort c2 /\ TLS c1 = TLS c2 /\
  Store c1 = Store c2 /\ Network c1 = Network c2.

(** [value] is one of the values [ks]. *)
Definition known (ks : list gostring) (value : gostring) : bool :=
  existsb (WsMessage.gostring_eqb value) ks.

(** The ICE server [ReadEnv] makes from the environment, if it makes
    one. *)
Definition envICEServers (AuthTypeSecret AuthTypeNone : gostring)
           (Getenv : gostring -> gostring) (prefix : gostring) : list ICEServer :=
  let urls := setEnvSlice Getenv [] (prefix ++ gs "ICE_SERVER_URLS") in
  match urls with
  | [] => []
  | _ =>
      [{| URLs := urls;
          AuthType := setEnvAuthType AuthTypeSecret AuthTypeNone Getenv []
                        (prefix ++ gs "ICE_SERVER_AUTH_TYPE");
          AuthSecret :=
            {| Username := setEnvString Getenv [] (prefix ++ gs "ICE_SERVER_USERNAME");
               Secret := setEnvString Getenv [] (prefix ++ gs "ICE_SERVER_SECRET") |} |}]
  end.

(** The calls on the file system leave no file open: a file is opened
    when none is open, decoded and closed while it is the open one, and
    none is open at the end.  [opened] is the file that is open. *)
Fixpoint closedAll (opened : option gostring) (es : list FsEvent) : bool :=
  match es with
  | [] => match opened with None => true | Some _ => false end
  | FsOpen f ok :: rest =>
      match opened with
      | None => closedAll (if ok then Some f else None) rest
      | Some _ => false
      end
  | FsDecode f :: rest =>
      match opened with
      | Some g => WsMessage.gostring_eqb f g && closedAll opened rest
      | None => false
      end
  | FsClose f :: rest =>
      match opened with
      | Some g => WsMessage.gostring_eqb f g && closedAll None rest
      | None => false
      end
  end.

(** The error [e] wraps the error [cause] of opening or decoding the file
    [filename]. *)
Definition causedBy (fs : FileSystem) (filename : gostring) (e : GoError) : Prop :=
  (exists cause,
      os_Open fs filename = inr cause /\
      e = Wrapped (gs "Error opening YAML file: %w") cause)
  \/ (exists content c cause,
         os_Open fs filename = inl content /\
         snd (yaml_Decode fs content c) = Some cause /\
         e = Wrapped (gs "Error parsing YAML: %w") cause).

(** An environment given by its variables; the first binding of a name
    counts. *)
Fixpoint envOf (vars : list (gostring * gostring)) (name : gostring) : gostring :=
  match vars with
  | [] => []
  | (k, v) :: rest => if WsMessage.gostring_eqb name k then v else envOf rest name
  end.

(** The environment of [TestReadFromEnv]. *)
Definition testEnv : gostring -> gostring :=
  envOf [(gs "PEERCALLSTEST_BASE_URL", gs "/test");
         (gs "PEERCALLSTEST_TLS_CERT", gs "test.pem");
         (gs "PEERCALLSTEST_TLS_KEY", gs "test.key");
         (gs "PEERCALLSTEST_STORE_TYPE", gs "redis");
         (gs "PEERCALLSTEST_STORE_REDIS_HOST", gs "localhost");
         (gs "PEERCALLSTEST_STORE_REDIS_PORT", gs "6379");
         (gs "PEERCALLSTEST_STORE_REDIS_PREFIX", gs "peercalls");
         (gs "PEERCALLSTEST_ICE_SERVER_URLS",
          gs "stun:stun.l.google.com:19302,stuns:stun.l.google.com:19302");
         (gs "PEERCALLSTEST_ICE_SERVER_AUTH_TYPE", gs "secret");
         (gs "PEERCALLSTEST_ICE_SERVER_USERNAME", gs "test_user");
         (gs "PEERCALLSTEST_ICE_SERVER_SECRET", gs "test_secret");
         (gs "PEERCALLSTEST_NETWORK_TYPE", gs "sfu");
         (gs "PEERCALLSTEST_NETWORK_SFU_INTERFACES", gs "a,b")].

(** No variable is set. *)
Definition emptyEnv : gostring -> gostring := fun _ => [].

(** The constants of [config.go]. *)
Record Constants : Type := {
  mesh : gostring;      (* NetworkTypeMesh *)
  sfu : gostring;       (* NetworkTypeSFU *)
  redis : gostring;     (* StoreTypeRedis *)
  memory : gostring;    (* StoreTypeMemory *)
  secret : gostring;    (* AuthTypeSecret *)
  none : gostring       (* AuthTypeNone *)
}.

(** [ReadEnv], [Init] and [Read] at the constants [k]. *)
Definition readEnv (k : Constants) (Getenv : gostring -> gostring)
           (prefix : gostring) (c : Config) : Config :=
  ReadEnv (mesh k) (sfu k) (redis k) (memory k) (secret k) (none k) Getenv prefix c.

Definition init (k : Constants) (c : Config) : Config :=
  Init (mesh k) (memory k) c.

Definition read (k : Constants) (Getenv : gostring -> gostring) (fs : FileSystem)
           (filenames : list gostring) : Config * error * list FsEvent :=
  Read (mesh k) (sfu k) (redis k) (memory k) (secret k) (none k) Getenv fs filenames.

(** The values the tests show ([sfu], [redis], [secret]) and, for the
    three the tests do not show, [mesh], [memory] and [none]. *)
Definition testConstants : Constants :=
  {| mesh := gs "mesh"; sfu := gs "sfu"; redis := gs "redis";
     memory := gs "memory"; secret := gs "secret"; none := gs "none" |}.

(** No network or store type is the empty string. *)
Definition namedTypes (k : Constants) : bool :=
  nonEmpty (mesh k) && nonEmpty (sfu k) && nonEmpty (redis k) && nonEmpty (memory k).

(** The variables [ReadEnv] reads, after the prefix. *)
Definition suffixes : list gostring :=
  [gs "BASE_URL"; gs "BIND_HOST"; gs "BIND_PORT"; gs "TLS_CERT"; gs "TLS_KEY";
   gs "STORE_TYPE"; gs "STORE_REDIS_HOST"; gs "STORE_REDIS_PORT";
   gs "STORE_REDIS_PREFIX"; gs "NETWORK_TYPE"; gs "NETWORK_SFU_INTERFACES";
   gs "ICE_SERVER_URLS"; gs "ICE_SERVER_AUTH_TYPE"; gs "ICE_SERVER_SECRET";
   gs "ICE_SERVER_USERNAME"].

(** Two environments give these variables the same values; an
    environment sets none of them. *)
Definition agree (prefix : gostring) (Getenv1 Getenv2 : gostring -> gostring) : Prop :=
  forall s, In s suffixes -> Getenv1 (prefix ++ s) = Getenv2 (prefix ++ s).

Definition unset (prefix : gostring) (Getenv : gostring -> gostring) : Prop :=
  forall s, In s suffixes -> Getenv (prefix ++ s) = [].

(** The settings that are strings: the variable and the field. *)
Definition stringSettings : list (gostring * (Config -> gostring)) :=
  [(gs "BASE_URL", BaseURL);
   (gs "BIND_HOST", BindHost);
   (gs "TLS_CERT", fun c => Cert (TLS c));
   (gs "TLS_KEY", fun c => Key (TLS c));
   (gs "STORE_REDIS_HOST", fun c => Host (Redis (Store c)));
   (gs "STORE_REDIS_PREFIX", fun c => Prefix (Redis (Store c)))].

(** [n] is an [int]. *)
Definition inRange (n : Z) : bool := (minInt <=? n)%Z && (n <=? maxInt)%Z.

(** The files opened, or tried, in order. *)
Fixpoint opens (es : list FsEvent) : list gostring :=
  match es with
  | [] => []
  | FsOpen f _ :: rest => f :: opens rest
  | _ :: rest => opens rest
  end.

(** The configuration and the error [ReadFiles] leaves, starting from
    [c] with nothing logged. *)
Definition readFiles (fs : FileSystem) (filenames : list gostring) (c : Config)
  : error * Loading :=
  ReadFiles fs filenames {| cfg := c; fslog := [] |}.

(** An environment that sets the two ports, the second to a number that
    is no [int]; and one with a variable [ReadEnv] does not read. *)
Definition portsEnv : gostring -> gostring :=
  envOf [(gs "PEERCALLS_BIND_PORT", gs "8080");
         (gs "PEERCALLS_STORE_REDIS_PORT", gs "99999999999999999999")].

Definition homeEnv : gostring -> gostring :=
  envOf [(gs "HOME", gs "/root")].

(** [Getenv] with the variable [HOME] set as well. *)
Definition withHome (Getenv : gostring -> gostring) : gostring -> gostring :=
  fun name => if WsMessage.gostring_eqb name (gs "HOME") then gs "/root" else Getenv name.

(** An environment with one list, which has an empty entry. *)
Definition listEnv : gostring -> gostring :=
  envOf [(gs "LIST", gs "a,,b")].

(** The ICE server [ReadEnv] adds has the URLs [urls] and takes the rest
    from the environment. *)
Definition fromEnv (k : Constants) (Getenv : gostring -> gostring) (prefix : gostring)
           (urls : list gostring) (ice : ICEServer) : Prop :=
  URLs ice = urls /\
  AuthType ice =
    (let value := Getenv (prefix ++ gs "ICE_SERVER_AUTH_TYPE") in
     if known [secret k; none k] value then value else []) /\
  Username (AuthSecret ice) = Getenv (prefix ++ gs "ICE_SERVER_USERNAME") /\
  Secret (AuthSecret ice) = Getenv (prefix ++ gs "ICE_SERVER_SECRET").

(** The defaults of [Init]. *)
Definition defaults (k : Constants) : Config :=
  {| BaseURL := []; BindHost := []; BindPort := 3000;
     TLS := {| Cert := []; Key := [] |};
     Store := {| Store_Type := memory k;
                 Redis := {| Host := []; Port := 0; Prefix := [] |} |};
     Network := {| Network_Type := mesh k; SFU := {| Interfaces := [] |} |};
     ICEServers :=
       [{| URLs := [gs "stun:stun.l.google.com:19302"]; AuthType := [];
           AuthSecret := {| Username := []; Secret := [] |} |};
        {| URLs := [gs "stun:global.stun.twilio.com:3478?transport=udp"];
           AuthType := [];
           AuthSecret := {| Username := []; Secret := [] |} |}] |}.

(** A file system with one file, [config.yml], which the decoder reads as
    the base URL [/test]; and the same with a file that does not
    decode. *)
Definition oneFile : FileSystem :=
  {| os_Open := fun filename =>
       if WsMessage.gostring_eqb filename (gs "config.yml") then inl (gs "base_url: /test")
       else inr (OtherError (gs "no such file or directory"));
     yaml_Decode := fun content c =>
       if WsMessage.gostring_eqb content (gs "base_url: /test")
       then (set_BaseURL c (gs "/test"), None)
       else (c, Some (OtherError (gs "cannot unmarshal"))) |}.

End ConfigProps.

(* ===================================================================== *)
(** * Facts about [path.Base], [path.Dir] and [path.Clean] *)
(* ===================================================================== *)

Module PathFacts.
Import GoPath PathProps.

Example Base_ex1 : Base (gs "/ws/myroom/client1") = gs "client1".
Proof. reflexivity. Qed.
Example Dir_ex1 : Dir (gs "/ws/myroom/client1") = gs "/ws/myroom".
Proof. reflexivity. Qed.
Example Clean_ex1 : Clean (gs "/a/b/../c/./d//e/") = gs "/a/c/d/e".
Proof. reflexivity. Qed.
Example Clean_ex2 : Clean (gs "../../a/b/../..") = gs "../..".
Proof. reflexivity. Qed.
Example Clean_ex3 : Clean (gs "/../a") = gs "/a".
Proof. reflexivity. Qed.
Example Clean_ex4 : Clean (gs "abc/def/../../..") = gs "..".
Proof. reflexivity. Qed.
Example Base_ex2 : Base (gs "///") = gs "/".
Proof. reflexivity. Qed.
Example Base_ex3 : Base (gs "a/b/") = gs "b".
Proof. reflexivity. Qed.

Lemma eqb_slash_false c : c <> slash -> Ascii.eqb c slash = false.
Proof. intro H. now apply Ascii.eqb_neq. Qed.

Lemma not_in_head (c : ascii) seg : ~ In slash (c :: seg) -> c <> slash /\ ~ In slash seg.
Proof. intro H. split; intro E; apply H; [left; now subst | now right]. Qed.

(** ** [lastSlash] *)

Lemma lastSlash_from_none seg k :
  ~ In slash seg -> k <= length seg -> lastSlash_from seg k = (-1)%Z.
Proof.
  intros Hno. induction k as [|k IH]; intro Hk; simpl; [reflexivity|].
  rewrite eqb_slash_false.
  - apply IH. lia.
  - intro E. apply Hno. rewrite <- E. apply nth_In. lia.
Qed.

Lemma lastSlash_from_last pre seg k :
  ~ In slash seg -> k <= length seg ->
  lastSlash_from (pre ++ slash :: seg) (length pre + 1 + k) = Z.of_nat (length pre).
Proof.
  intros Hno. induction k as [|k IH]; intro Hk.
  - replace (length pre + 1 + 0) with (S (length pre)) by lia. simpl.
    rewrite app_nth2 by lia. rewrite Nat.sub_diag. reflexivity.
  - replace (length pre + 1 + S k) with (S (length pre + 1 + k)) by lia. simpl.
    rewrite app_nth2 by lia.
    replace (length pre + 1 + k - length pre) with (S k) by lia. simpl.
    rewrite eqb_slash_false.
    + apply IH. lia.
    + intro E. apply Hno. rewrite <- E. apply nth_In. lia.
Qed.

Lemma lastSlash_none seg : ~ In slash seg -> lastSlash seg = (-1)%Z.
Proof. intro H. unfold lastSlash. now apply lastSlash_from_none. Qed.

Lemma lastSlash_last pre seg :
  ~ In slash seg -> lastSlash (pre ++ slash :: seg) = Z.of_nat (length pre).
Proof.
  intro H. unfold lastSlash.
  replace (length (pre ++ slash :: seg)) with (length pre + 1 + length seg)
    by (rewrite length_app; simpl; lia).
  now apply lastSlash_from_last.
Qed.

(** ** [Base] and [Split] *)

Lemma stripTrailingSlashes_keep fuel q c :
  c <> slash -> stripTrailingSlashes fuel (q ++ [c]) = q ++ [c].
Proof.
  intro Hc. destruct fuel as [|fuel]; simpl; [reflexivity|].
  rewrite length_app. simpl.
  replace (length q + 1 - 1) with (length q) by lia.
  rewrite app_nth2 by lia. rewrite Nat.sub_diag. simpl.
  rewrite (eqb_slash_false _ Hc). now rewrite andb_false_r.
Qed.

Lemma segment_last seg : segment seg -> exists q c, seg = q ++ [c] /\ c <> slash.
Proof.
  intros [Hne Hno]. destruct (exists_last Hne) as [q [c E]].
  exists q, c. split; [exact E|].
  intro Ec. apply Hno. rewrite E. apply in_or_app. right. left. now symmetry.
Qed.

Lemma skipn_app_cons (pre : gostring) c seg :
  skipn (length pre + 1) (pre ++ c :: seg) = seg.
Proof.
  induction pre as [|a pre IH]; simpl; [reflexivity|exact IH].
Qed.

Lemma firstn_app_cons (pre : gostring) c seg :
  firstn (length pre + 1) (pre ++ c :: seg) = pre ++ [c].
Proof.
  induction pre as [|a pre IH]; simpl; [reflexivity|now rewrite IH].
Qed.

Lemma Base_after_slash pre seg : segment seg -> Base (pre ++ slash :: seg) = seg.
Proof.
  intro Hseg. destruct (segment_last _ Hseg) as [q [c [E Hc]]].
  destruct Hseg as [Hne Hno].
  unfold Base. destruct (pre ++ slash :: seg) eqn:Ep.
  - destruct pre; discriminate.
  - rewrite <- Ep.
    assert (Es : stripTrailingSlashes (length (pre ++ slash :: seg)) (pre ++ slash :: seg)
                 = pre ++ slash :: seg).
    { rewrite E. change (pre ++ slash :: q ++ [c]) with (pre ++ (slash :: q) ++ [c]).
      rewrite app_assoc. now apply stripTrailingSlashes_keep. }
    rewrite Es. rewrite (lastSlash_last pre _ Hno).
    replace (0 <=? Z.of_nat (length pre))%Z with true by (symmetry; apply Z.leb_le; lia).
    replace (Z.to_nat (Z.of_nat (length pre) + 1)) with (length pre + 1) by lia.
    rewrite skipn_app_cons. destruct seg; [contradiction|reflexivity].
Qed.

Lemma Base_segment seg : segment seg -> Base seg = seg.
Proof.
  intro Hseg. destruct (segment_last _ Hseg) as [q [c [E Hc]]].
  destruct Hseg as [Hne Hno].
  unfold Base. destruct seg as [|a seg'] eqn:Es; [contradiction|].
  rewrite <- Es in *.
  assert (Est : stripTrailingSlashes (length seg) seg = seg).
  { rewrite E. now apply stripTrailingSlashes_keep. }
  rewrite Est. rewrite (lastSlash_none _ Hno). simpl.
  rewrite Es. reflexivity.
Qed.

Lemma Split_after_slash pre seg :
  ~ In slash seg -> fst (Split (pre ++ slash :: seg)) = pre ++ [slash].
Proof.
  intro Hno. unfold Split. simpl. rewrite (lastSlash_last pre _ Hno).
  replace (Z.to_nat (Z.of_nat (length pre) + 1)) with (length pre + 1) by lia.
  apply firstn_app_cons.
Qed.

(** ** [Clean] *)

Lemma rootedInv_false out dotdot : rootedInv false out dotdot.
Proof. intro H. discriminate. Qed.

Lemma rootedInv_app rooted out dotdot e :
  rootedInv rooted out dotdot -> rootedInv rooted (out ++ e) dotdot.
Proof.
  intros H Hr. destruct (H Hr) as [Hd [t Ht]]. split; [exact Hd|].
  exists (t ++ e). now rewrite Ht.
Qed.

Lemma backtrack_loop_ge fuel out dotdot : forall w,
  dotdot <= w -> dotdot <= backtrack_loop fuel out w dotdot.
Proof.
  induction fuel as [|fuel IH]; simpl; intros w H; [exact H|].
  destruct (dotdot <? w) eqn:E; simpl; [|exact H].
  destruct (negb (Ascii.eqb (nth w out zero) slash)); [|exact H].
  apply IH. apply Nat.ltb_lt in E. lia.
Qed.

Lemma rootedInv_backtrack rooted out dotdot :
  rootedInv rooted out dotdot -> dotdot < length out ->
  rootedInv rooted (backtrack out dotdot) dotdot.
Proof.
  intros H Hlt Hr. destruct (H Hr) as [Hd [t Ht]]. split; [exact Hd|].
  subst dotdot. unfold backtrack.
  pose proof (backtrack_loop_ge (length out) out 1 (length out - 1)) as G.
  destruct (backtrack_loop (length out) out (length out - 1) 1) as [|w].
  - exfalso. assert (1 <= 0) by (apply G; lia). lia.
  - rewrite Ht. simpl. now exists (firstn w t).
Qed.

Lemma boundary_tl c x : boundary (c :: x) -> boundary x.
Proof.
  intros [E|[x0 E]]; [discriminate|].
  destruct x0 as [|a x0]; simpl in E; inversion E; subst.
  - now left.
  - right. now exists x0.
Qed.

Lemma boundary_head c x : boundary (c :: x) -> c <> slash -> x <> [].
Proof.
  intros [E|[x0 E]] Hc Hx; [discriminate|]. subst x.
  destruct x0 as [|a x0]; simpl in E; inversion E; subst.
  - now apply Hc.
  - destruct x0; discriminate.
Qed.

Lemma copyElement_segment seg tail :
  ~ In slash seg -> copyElement (seg ++ slash :: tail) = (seg, slash :: tail).
Proof.
  induction seg as [|c seg IH]; intro Hno; simpl.
  - reflexivity.
  - destruct (not_in_head _ _ Hno) as [Hc Hno'].
    rewrite (eqb_slash_false _ Hc). now rewrite (IH Hno').
Qed.

Lemma copyElement_boundary tail : forall x,
  boundary x -> x <> [] ->
  exists e y, copyElement (x ++ tail) = (e, y ++ tail) /\ boundary y /\ length y <= length x.
Proof.
  induction x as [|c x IH]; intros Hb Hne; [contradiction|].
  simpl. destruct (Ascii.eqb c slash) eqn:Ec.
  - exists [], (c :: x). repeat split; [exact Hb|simpl; lia].
  - assert (Hc : c <> slash) by (now apply Ascii.eqb_neq).
    destruct (IH (boundary_tl _ _ Hb) (boundary_head _ _ Hb Hc)) as [e [y [E [Hy Hl]]]].
    rewrite E. exists (c :: e), y. repeat split; [exact Hy|simpl; lia].
Qed.

(** Reading up to a segment boundary leaves the loop in a state of the
    same kind. *)
Lemma Clean_loop_prefix tail rooted : forall fuel x out dotdot,
  boundary x -> length (x ++ tail) <= fuel -> rootedInv rooted out dotdot ->
  exists fuel' out' dotdot',
    length tail <= fuel' /\ rootedInv rooted out' dotdot' /\
    Clean_loop fuel rooted (x ++ tail) out dotdot
    = Clean_loop fuel' rooted tail out' dotdot'.
Proof.
  induction fuel as [|fuel IH]; intros x out dotdot Hb Hlen Hinv.
  - exists 0, out, dotdot. rewrite length_app in Hlen.
    split; [lia|]. split; [exact Hinv|].
    destruct x; [|simpl in Hlen; lia]. destruct tail; [reflexivity|simpl in Hlen; lia].
  - destruct x as [|c x].
    + exists (S fuel), out, dotdot. split; [exact Hlen|]. split; [exact Hinv|reflexivity].
    + simpl in Hlen. pose proof (boundary_tl _ _ Hb) as Hb'.
      change ((c :: x) ++ tail) with (c :: (x ++ tail)).
      cbn [Clean_loop].
      destruct (Ascii.eqb c slash) eqn:Ec.
      { apply IH; [exact Hb'|lia|exact Hinv]. }
      assert (Hc : c <> slash) by (now apply Ascii.eqb_neq).
      pose proof (boundary_head _ _ Hb Hc) as Hx.
      destruct (Ascii.eqb c dot && endOrSlash (x ++ tail)) eqn:E1.
      { apply IH; [exact Hb'|lia|exact Hinv]. }
      destruct (Ascii.eqb c dot && headIs dot (x ++ tail) && endOrSlash (tl (x ++ tail))) eqn:E2.
      { destruct x as [|d x]; [contradiction|].
        change (tl ((d :: x) ++ tail)) with (x ++ tail) in *.
        pose proof (boundary_tl _ _ Hb') as Hb''.
        simpl in Hlen.
        destruct (dotdot <? length out) eqn:Ed.
        - apply IH; [exact Hb''|lia|].
          apply rootedInv_backtrack; [exact Hinv|now apply Nat.ltb_lt].
        - destruct rooted; simpl.
          + apply IH; [exact Hb''|lia|exact Hinv].
          + apply IH; [exact Hb''|lia|apply rootedInv_false]. }
      destruct (copyElement_boundary tail x Hb' Hx) as [e [y [E [Hy Hl]]]].
      cbn [copyElement]. rewrite Ec. rewrite E.
      apply IH; [exact Hy|rewrite length_app in *; lia|].
      apply rootedInv_app.
      destruct ((rooted && negb (length out =? 1)) || (negb rooted && negb (length out =? 0)));
        [now apply rootedInv_app|exact Hinv].
Qed.

(** The last element of the input, when it is a real one, ends the
    result. *)
Lemma Clean_loop_last rooted seg out dotdot : forall fuel,
  segment seg -> seg <> [dot] -> seg <> [dot; dot] -> length seg + 1 <= fuel ->
  Clean_loop fuel rooted (seg ++ [slash]) out dotdot = sep rooted out ++ seg.
Proof.
  intros fuel [Hne Hno] Hd Hdd Hlen.
  destruct seg as [|c seg]; [contradiction|].
  destruct (not_in_head _ _ Hno) as [Hc Hno'].
  destruct fuel as [|fuel]; [simpl in Hlen; lia|].
  change ((c :: seg) ++ [slash]) with (c :: (seg ++ [slash])).
  cbn [Clean_loop]. rewrite (eqb_slash_false _ Hc).
  assert (E1 : Ascii.eqb c dot && endOrSlash (seg ++ [slash]) = false).
  { destruct seg as [|d seg]; simpl.
    - rewrite andb_true_r. apply Ascii.eqb_neq. intro E. apply Hd. now subst.
    - destruct (not_in_head _ _ Hno') as [Hd' _].
      rewrite (eqb_slash_false _ Hd'). apply andb_false_r. }
  rewrite E1.
  assert (E2 : Ascii.eqb c dot && headIs dot (seg ++ [slash])
               && endOrSlash (tl (seg ++ [slash])) = false).
  { destruct seg as [|d [|d2 seg]]; simpl.
    - now rewrite andb_false_r.
    - rewrite andb_true_r.
      destruct (Ascii.eqb_spec c dot) as [Ec|Ec]; [|reflexivity].
      destruct (Ascii.eqb_spec d dot) as [Ed|Ed]; [|reflexivity].
      exfalso. apply Hdd. now subst.
    - destruct (not_in_head _ _ Hno') as [_ Hno''].
      destruct (not_in_head _ _ Hno'') as [Hd2 _].
      rewrite (eqb_slash_false _ Hd2). apply andb_false_r. }
  rewrite E2.
  change (c :: seg ++ [slash]) with ((c :: seg) ++ slash :: []).
  rewrite (copyElement_segment (c :: seg) [] Hno).
  fold (sep rooted out).
  destruct fuel as [|fuel]; [simpl in Hlen; lia|].
  cbn [Clean_loop]. rewrite Ascii.eqb_refl.
  destruct fuel; reflexivity.
Qed.

Lemma sep_boundary rooted out dotdot :
  rootedInv rooted out dotdot -> boundary (sep rooted out).
Proof.
  intro Hinv. unfold sep.
  destruct ((rooted && negb (length out =? 1)) || (negb rooted && negb (length out =? 0))) eqn:E.
  - right. now exists out.
  - destruct rooted; simpl in E.
    + destruct (Hinv eq_refl) as [_ [t Ht]]. subst out.
      destruct t; [right; now exists []|discriminate].
    + destruct out; [now left|discriminate].
Qed.

(** Cleaning a path that ends in a real element and a slash gives a path
    that ends in that element. *)
Lemma Clean_ends_with_segment x seg :
  boundary x -> segment seg -> seg <> [dot] -> seg <> [dot; dot] ->
  exists o, boundary o /\ Clean (x ++ seg ++ [slash]) = o ++ seg.
Proof.
  intros Hb Hseg Hd Hdd.
  assert (Hres : forall rooted fuel y out dotdot,
             boundary y -> length (y ++ seg ++ [slash]) <= fuel ->
             rootedInv rooted out dotdot ->
             exists o, boundary o /\
               Clean_loop fuel rooted (y ++ seg ++ [slash]) out dotdot = o ++ seg).
  { intros rooted fuel y out dotdot Hy Hlen Hinv.
    destruct (Clean_loop_prefix (seg ++ [slash]) rooted fuel y out dotdot Hy Hlen Hinv)
      as [fuel' [out' [dotdot' [Hl [Hinv' E]]]]].
    rewrite E. exists (sep rooted out'). split; [now apply (sep_boundary _ _ dotdot')|].
    apply Clean_loop_last; try assumption.
    rewrite length_app in Hl. simpl in Hl. exact Hl. }
  assert (Hne : forall o, o ++ seg <> []).
  { intros o E. destruct Hseg as [Hs _]. destruct o; [now apply Hs|discriminate]. }
  unfold Clean. destruct (x ++ seg ++ [slash]) as [|c rest] eqn:Ep.
  { destruct x; [destruct seg|]; discriminate. }
  destruct (Ascii.eqb c slash) eqn:Ec.
  - destruct x as [|a x].
    + exfalso. destruct seg as [|a seg]; [now destruct Hseg|].
      simpl in Ep. inversion Ep; subst.
      destruct Hseg as [_ Hno]. destruct (not_in_head _ _ Hno) as [Hc _].
      apply Ascii.eqb_eq in Ec. contradiction.
    + simpl in Ep. inversion Ep; subst.
      destruct (Hres true (length (c :: x ++ seg ++ [slash])) x [slash] 1) as [o [Ho E]].
      * now apply (boundary_tl c).
      * simpl. lia.
      * intros _. split; [reflexivity|now exists []].
      * exists o. split; [exact Ho|]. rewrite E.
        destruct (o ++ seg) eqn:Eo; [now apply Hne in Eo|reflexivity].
  - rewrite <- Ep.
    destruct (Hres false (length (x ++ seg ++ [slash])) x [] 0) as [o [Ho E]].
    + exact Hb.
    + lia.
    + apply rootedInv_false.
    + exists o. split; [exact Ho|]. rewrite E.
      destruct (o ++ seg) eqn:Eo; [now apply Hne in Eo|reflexivity].
Qed.

Lemma Base_boundary o seg : boundary o -> segment seg -> Base (o ++ seg) = seg.
Proof.
  intros [->|[o0 ->]] Hseg.
  - now apply Base_segment.
  - rewrite <- app_assoc. simpl. now apply Base_after_slash.
Qed.

(** [path.Base(path.Dir(p))] and [path.Base(p)] on [.../<a>/<b>]. *)
Lemma Base_Dir_layout pre a b :
  segment a -> segment b -> a <> [dot] -> a <> [dot; dot] ->
  Base (pre ++ slash :: a ++ slash :: b) = b /\
  Base (Dir (pre ++ slash :: a ++ slash :: b)) = a.
Proof.
  intros Ha Hb Hd Hdd. split.
  - change (pre ++ slash :: a ++ slash :: b) with (pre ++ (slash :: a) ++ slash :: b).
    rewrite app_assoc. now apply Base_after_slash.
  - unfold Dir.
    change (pre ++ slash :: a ++ slash :: b) with (pre ++ (slash :: a) ++ slash :: b).
    rewrite app_assoc. rewrite Split_after_slash by (now destruct Hb).
    replace ((pre ++ slash :: a) ++ [slash]) with ((pre ++ [slash]) ++ a ++ [slash])
      by (now rewrite <- !app_assoc).
    destruct (Clean_ends_with_segment (pre ++ [slash]) a) as [o [Ho E]];
      try assumption.
    + right. now exists pre.
    + rewrite E. now apply Base_boundary.
Qed.

(** The fuel of [Clean_loop] does not matter once it covers the input. *)
Lemma copyElement_length : forall rest e r,
  copyElement rest = (e, r) -> length r <= length rest.
Proof.
  induction rest as [|c rest IH]; intros e r E; simpl in E.
  - inversion E. simpl. lia.
  - destruct (Ascii.eqb c slash).
    + inversion E. simpl. lia.
    + destruct (copyElement rest) as [e' r'] eqn:E'. inversion E; subst.
      specialize (IH e' r eq_refl). simpl. lia.
Qed.

Lemma Clean_loop_fuel rooted : forall f1 f2 rest out dotdot,
  length rest <= f1 -> length rest <= f2 ->
  Clean_loop f1 rooted rest out dotdot = Clean_loop f2 rooted rest out dotdot.
Proof.
  induction f1 as [|f1 IH]; intros f2 rest out dotdot H1 H2.
  - destruct rest; [|simpl in H1; lia]. destruct f2; reflexivity.
  - destruct rest as [|c rest]; [destruct f2; reflexivity|].
    destruct f2 as [|f2]; [simpl in H2; lia|].
    simpl in H1, H2. cbn [Clean_loop].
    assert (Ht : length (tl rest) <= length rest) by (destruct rest; simpl; lia).
    destruct (Ascii.eqb c slash) eqn:Ec; [apply IH; lia|].
    destruct (Ascii.eqb c dot && endOrSlash rest); [apply IH; lia|].
    destruct (Ascii.eqb c dot && headIs dot rest && endOrSlash (tl rest)).
    + destruct (dotdot <? length out); [apply IH; lia|].
      destruct (negb rooted); apply IH; lia.
    + cbn [copyElement]. rewrite Ec.
      destruct (copyElement rest) as [e r] eqn:E.
      apply copyElement_length in E. apply IH; lia.
Qed.


End PathFacts.

(* ===================================================================== *)
(** * The socket handler *)
(* ===================================================================== *)

Module HandlerFacts.
Import GoErrors WsHandler HandlerProps.

Lemma deliver_trace env path msgs : forall f,
  deliver (GoPath.Base path) (GoPath.Base (GoPath.Dir path))
          (rooms_Enter env (GoPath.Base (GoPath.Dir path))) msgs f
  = (tt, {| trace := trace f ++ handled env path msgs; deferred := deferred f |}).
Proof.
  induction msgs as [|m msgs IH]; intro f.
  - simpl. rewrite app_nil_r. now destruct f.
  - cbn [deliver]. unfold State.bind at 1. unfold emit at 1. rewrite IH.
    cbn [trace deferred]. unfold handled. cbn [map]. now rewrite <- app_assoc.
Qed.

Lemma trace_accept_failed env path cleanup err :
  websocket_Accept env = Some err ->
  HandleRoomWithCleanup env path cleanup = [EvAccept; EvLog (LogAcceptError err)].
Proof.
  intro Ha. unfold HandleRoomWithCleanup, HandleRoomWithCleanup_body.
  rewrite Ha. reflexivity.
Qed.

Lemma trace_add_failed env path cleanup err :
  websocket_Accept env = None -> adapter_Add env = Some err ->
  HandleRoomWithCleanup env path cleanup
  = opening env path ++ [EvLog (LogAddError err)] ++ closing path.
Proof.
  intros Ha Hadd. unfold HandleRoomWithCleanup, HandleRoomWithCleanup_body.
  rewrite Ha, Hadd. reflexivity.
Qed.

Lemma trace_added env path cleanup :
  websocket_Accept env = None -> adapter_Add env = None ->
  HandleRoomWithCleanup env path cleanup
  = opening env path ++ [EvSubscribe]
    ++ handled env path (fst (client_Subscribe env))
    ++ subscriptionLog (snd (client_Subscribe env))
    ++ teardown env path cleanup.
Proof.
  intros Ha Hadd. unfold HandleRoomWithCleanup, HandleRoomWithCleanup_body.
  rewrite Ha, Hadd.
  unfold subscriptionLog, teardown.
  destruct (client_Subscribe env) as [msgs err]. cbn [fst snd].
  unfold State.bind, emit, defer, when, State.when, ret, State.ret, return_.
  cbn [trace deferred].
  destruct cleanup; cbn [trace deferred];
    rewrite deliver_trace; cbn [trace deferred];
    destruct (errors_Is_Canceled err);
    destruct ((CloseStatus err =? StatusNormalClosure)%Z
              || (CloseStatus err =? StatusGoingAway)%Z);
    destruct err; destruct (adapter_Remove env) eqn:Hrem;
    cbn; unfold State.bind, emit, State.ret; cbn; rewrite ?Hrem;
    cbn; rewrite <- ?app_assoc; reflexivity.
Qed.

Lemma calls_app t1 t2 : calls (t1 ++ t2) = calls t1 ++ calls t2.
Proof. apply filter_app. Qed.

Lemma calls_handled env path msgs :
  calls (handled env path msgs) = handled env path msgs.
Proof.
  unfold calls, handled. induction msgs as [|m msgs IH]; simpl; [reflexivity|].
  now rewrite IH.
Qed.

Lemma calls_subscriptionLog err : calls (subscriptionLog err) = [].
Proof.
  unfold subscriptionLog.
  destruct (errors_Is_Canceled err); [reflexivity|].
  destruct ((CloseStatus err =? StatusNormalClosure)%Z
            || (CloseStatus err =? StatusGoingAway)%Z); [reflexivity|].
  destruct err; reflexivity.
Qed.

Lemma calls_teardown env path cleanup :
  calls (teardown env path cleanup) = teardownCalls env path cleanup.
Proof.
  unfold teardown, teardownCalls.
  destruct (adapter_Remove env); destruct cleanup; reflexivity.
Qed.

(** C1, as the specification states it, fails: with a cleanup callback the
    calls of the handler do not end with cleanup, Remove, Exit, client
    close, socket close; [adapter.Remove] comes before the callback. *)
Lemma C1_counterexample :
  ~ (exists before,
        calls (HandleRoomWithCleanup envLeaves (gs "/ws/r/c") true)
        = before ++ specTeardownCalls envLeaves (gs "/ws/r/c") true).
Proof.
  intros [before H].
  apply (f_equal (@rev Event)) in H. rewrite rev_app_distr in H.
  vm_compute in H. discriminate H.
Qed.

Lemma calls_added env path cleanup :
  websocket_Accept env = None -> adapter_Add env = None ->
  calls (HandleRoomWithCleanup env path cleanup)
  = openingCalls env path ++ [EvSubscribe]
    ++ handled env path (fst (client_Subscribe env))
    ++ teardownCalls env path cleanup.
Proof.
  intros Ha Hadd. rewrite (trace_added env path cleanup Ha Hadd).
  rewrite !calls_app, calls_handled, calls_subscriptionLog, calls_teardown.
  reflexivity.
Qed.

Lemma calls_add_failed env path cleanup err :
  websocket_Accept env = None -> adapter_Add env = Some err ->
  calls (HandleRoomWithCleanup env path cleanup)
  = openingCalls env path
    ++ [EvExit (GoPath.Base (GoPath.Dir path)); EvClientClose;
        EvSocketClose StatusInternalError []].
Proof.
  intros Ha Hadd. rewrite (trace_add_failed env path cleanup err Ha Hadd).
  reflexivity.
Qed.

(** C1 (amended): on every return path after a successful [adapter.Add],
    whatever [Subscribe] delivered and returned, the handler calls, in this
    order: [adapter.Remove(clientID)], the cleanup callback if there is
    one, with [(clientID, room, adapter)], [rooms.Exit(room)],
    [client.Close()], and closes the socket with the internal-error
    status. *)
Theorem C1_teardown_order env path cleanup :
  websocket_Accept env = None -> adapter_Add env = None ->
  calls (HandleRoomWithCleanup env path cleanup)
  = openingCalls env path ++ [EvSubscribe]
    ++ handled env path (fst (client_Subscribe env))
    ++ teardownCalls env path cleanup.
Proof.
  intros Ha Hadd. now apply calls_added.
Qed.

Lemma C1_teardown_order_witness :
  websocket_Accept envLeaves = None /\ adapter_Add envLeaves = None /\
  calls (HandleRoomWithCleanup envLeaves (gs "/ws/r/c") true)
  = [EvAccept; EvNewClient (gs "c"); EvEnter (gs "r"); EvAdd 0 (gs "c"); EvSubscribe;
     EvRemove 0 (gs "c");
     EvCleanup {| ce_ClientID := gs "c"; ce_Room := gs "r"; ce_Adapter := 0 |};
     EvExit (gs "r"); EvClientClose; EvSocketClose StatusInternalError []].
Proof.
  split; [reflexivity|]. split; [reflexivity|].
  exact (C1_teardown_order envLeaves (gs "/ws/r/c") true eq_refl eq_refl).
Defined.

(** C10: when [adapter.Add] fails the handler returns without calling the
    cleanup callback, [adapter.Remove], [Subscribe] or the message handler;
    it calls [rooms.Exit(room)], closes the client and closes the socket
    with the internal-error status. *)
Theorem C10_add_failed env path cleanup err :
  websocket_Accept env = None -> adapter_Add env = Some err ->
  calls (HandleRoomWithCleanup env path cleanup)
  = openingCalls env path
    ++ [EvExit (GoPath.Base (GoPath.Dir path)); EvClientClose;
        EvSocketClose StatusInternalError []].
Proof.
  intros Ha Hadd. now apply (calls_add_failed env path cleanup err).
Qed.

Lemma C10_add_failed_witness :
  websocket_Accept envAddFails = None /\
  adapter_Add envAddFails = Some (OtherError (gs "duplicate client")) /\
  calls (HandleRoomWithCleanup envAddFails (gs "/ws/r/c") true)
  = [EvAccept; EvNewClient (gs "c"); EvEnter (gs "r"); EvAdd 0 (gs "c");
     EvExit (gs "r"); EvClientClose; EvSocketClose StatusInternalError []].
Proof.
  split; [reflexivity|]. split; [reflexivity|].
  exact (C10_add_failed envAddFails (gs "/ws/r/c") true
           (OtherError (gs "duplicate client")) eq_refl eq_refl).
Defined.

Lemma not_in_handled env path l msgs : ~ In (EvLog l) (handled env path msgs).
Proof.
  unfold handled. intro H. apply in_map_iff in H.
  destruct H as [m [E _]]. discriminate E.
Qed.

Lemma in_subscriptionLog err e :
  In (EvLog (LogSubscriptionError e)) (subscriptionLog err) <->
  err = Some e /\ errors_Is_Canceled (Some e) = false /\
  CloseStatus (Some e) <> StatusNormalClosure /\
  CloseStatus (Some e) <> StatusGoingAway.
Proof.
  unfold subscriptionLog. split.
  - intro H.
    destruct (errors_Is_Canceled err) eqn:Ec; [contradiction|].
    destruct (CloseStatus err =? StatusNormalClosure)%Z eqn:En; [contradiction|].
    destruct (CloseStatus err =? StatusGoingAway)%Z eqn:Eg; [contradiction|].
    simpl in H. destruct err as [e'|]; [|contradiction].
    destruct H as [H|[]]. inversion H; subst e'.
    repeat split; [exact Ec|now apply Z.eqb_neq|now apply Z.eqb_neq].
  - intros [-> [Ec [Hn Hg]]]. rewrite Ec.
    apply Z.eqb_neq in Hn. apply Z.eqb_neq in Hg. rewrite Hn, Hg.
    now left.
Qed.

Lemma subscription_error_logged_iff env path cleanup e :
  In (EvLog (LogSubscriptionError e)) (HandleRoomWithCleanup env path cleanup)
  <->
  websocket_Accept env = None /\ adapter_Add env = None /\
  snd (client_Subscribe env) = Some e /\
  errors_Is_Canceled (Some e) = false /\
  CloseStatus (Some e) <> StatusNormalClosure /\
  CloseStatus (Some e) <> StatusGoingAway.
Proof.
  split.
  - intro H. destruct (websocket_Accept env) as [ea|] eqn:Ha.
    { rewrite (trace_accept_failed env path cleanup ea Ha) in H.
      simpl in H. intuition discriminate. }
    destruct (adapter_Add env) as [eadd|] eqn:Hadd.
    { rewrite (trace_add_failed env path cleanup eadd Ha Hadd) in H.
      simpl in H. intuition discriminate. }
    rewrite (trace_added env path cleanup Ha Hadd) in H.
    rewrite !in_app_iff in H.
    destruct H as [H|[H|[H|[H|H]]]].
    + simpl in H. intuition discriminate.
    + simpl in H. intuition discriminate.
    + now apply not_in_handled in H.
    + apply in_subscriptionLog in H. intuition.
    + unfold teardown in H. rewrite !in_app_iff in H.
      destruct (adapter_Remove env); destruct cleanup;
        simpl in H; intuition discriminate.
  - intros [Ha [Hadd H]]. rewrite (trace_added env path cleanup Ha Hadd).
    rewrite !in_app_iff. right. right. right. left.
    now apply in_subscriptionLog.
Qed.

(** C7: the handler writes the line "Subscription error" for the error [e]
    exactly when [Subscribe] was reached and returned [e], [e] is not a
    cancelled context and its close status is neither normal closure nor
    going away.  So a cancelled context, a normal closure and a going away
    are never logged as errors, and every other error [Subscribe] returns
    is. *)
Theorem C7_subscription_error_logged env path cleanup e :
  In (EvLog (LogSubscriptionError e)) (HandleRoomWithCleanup env path cleanup)
  <->
  websocket_Accept env = None /\ adapter_Add env = None /\
  snd (client_Subscribe env) = Some e /\
  errors_Is_Canceled (Some e) = false /\
  CloseStatus (Some e) <> StatusNormalClosure /\
  CloseStatus (Some e) <> StatusGoingAway.
Proof. apply subscription_error_logged_iff. Qed.

(** Context cancellation, normal closure and going away are never logged
    as a subscription error. *)
Corollary quiet_results_not_logged env path cleanup e :
  errors_Is_Canceled (snd (client_Subscribe env)) = true
  \/ CloseStatus (snd (client_Subscribe env)) = StatusNormalClosure
  \/ CloseStatus (snd (client_Subscribe env)) = StatusGoingAway ->
  ~ In (EvLog (LogSubscriptionError e)) (HandleRoomWithCleanup env path cleanup).
Proof.
  intros Hq H. apply subscription_error_logged_iff in H.
  destruct H as [_ [_ [Es [Ec [Hn Hg]]]]]. rewrite Es in Hq.
  destruct Hq as [Hq|[Hq|Hq]]; [congruence|contradiction|contradiction].
Qed.

Lemma segment_dot : PathProps.segment (gs ".").
Proof. split; [discriminate|]. simpl. intuition discriminate. Qed.

Lemma segment_c : PathProps.segment (gs "c").
Proof. split; [discriminate|]. simpl. intuition discriminate. Qed.

(** C8 fails on [/ws/./c]: the segment before the last is [.], and the
    room the handler enters is [ws], because [path.Dir] cleans the path. *)
Lemma C8_counterexample : ~ lastTwoSegments envLeaves (gs "/ws/./c").
Proof.
  intro H.
  destruct (H (gs "/ws") (gs ".") (gs "c") eq_refl segment_dot segment_c) as [_ Hr].
  vm_compute in Hr. intuition discriminate.
Qed.

(** C8 (amended): for a path [<pre>/<room>/<clientID>] whose last two
    segments are not empty and hold no slash, and whose room segment is
    neither [.] nor [..], the client ID is the last segment and the room
    is the segment before it: the handler creates the client [clientID],
    enters [room] and adds the client to the adapter of [room]. *)
Theorem C8_room_and_client env pre room clientID cleanup :
  websocket_Accept env = None ->
  PathProps.segment room -> PathProps.segment clientID ->
  room <> gs "." -> room <> gs ".." ->
  firstn 4 (calls (HandleRoomWithCleanup env
                     (pre ++ GoPath.slash :: room ++ GoPath.slash :: clientID) cleanup))
  = [EvAccept; EvNewClient clientID; EvEnter room;
     EvAdd (rooms_Enter env room) clientID].
Proof.
  intros Ha Hr Hc Hd Hdd.
  destruct (PathFacts.Base_Dir_layout pre room clientID Hr Hc Hd Hdd) as [Eb Ed].
  set (path := pre ++ GoPath.slash :: room ++ GoPath.slash :: clientID) in *.
  assert (Eo : openingCalls env path
               = [EvAccept; EvNewClient clientID; EvEnter room;
                  EvAdd (rooms_Enter env room) clientID]).
  { unfold openingCalls. now rewrite Eb, Ed. }
  destruct (adapter_Add env) as [err|] eqn:Hadd.
  - rewrite (calls_add_failed env path cleanup err Ha Hadd). now rewrite Eo.
  - rewrite (calls_added env path cleanup Ha Hadd). now rewrite Eo.
Qed.

Lemma C8_room_and_client_witness :
  websocket_Accept envLeaves = None /\
  PathProps.segment (gs "myroom") /\ PathProps.segment (gs "client1") /\
  gs "myroom" <> gs "." /\ gs "myroom" <> gs ".." /\
  firstn 4 (calls (HandleRoomWithCleanup envLeaves (gs "/ws/myroom/client1") true))
  = [EvAccept; EvNewClient (gs "client1"); EvEnter (gs "myroom");
     EvAdd 0 (gs "client1")].
Proof.
  assert (Hr : PathProps.segment (gs "myroom"))
    by (split; [discriminate|simpl; intuition discriminate]).
  assert (Hc : PathProps.segment (gs "client1"))
    by (split; [discriminate|simpl; intuition discriminate]).
  assert (Hd : gs "myroom" <> gs ".") by discriminate.
  assert (Hdd : gs "myroom" <> gs "..") by discriminate.
  repeat (split; [first [reflexivity|assumption]|]).
  exact (C8_room_and_client envLeaves (gs "/ws") (gs "myroom") (gs "client1") true
           eq_refl Hr Hc Hd Hdd).
Defined.


End HandlerFacts.

(* ===================================================================== *)
(** * The signaller *)
(* ===================================================================== *)

Module SignallerFacts.
Import GoErrors Signals SignallerProps.

Ltac unfold_monad :=
  unfold ret, when, this, emit, call;
  unfold State.bind, State.ret, State.when;
  cbn [signaller events fst snd].

(** ** [SendTransceiverRequest] *)

(** C9: [SendTransceiverRequest(kind, direction)] emits exactly one
    transceiver-request payload through [onSignal] when the signaller is
    not the initiator, and does nothing (no call, no change of the
    signaller) when it is. *)
Theorem C9_SendTransceiverRequest kind direction w :
  SendTransceiverRequest kind direction w
  = (tt,
     if initiator (signaller w) then w
     else {| signaller := signaller w;
             events := events w
                       ++ [OnSignal (NewTransceiverRequest
                                       (localPeerID (signaller w)) kind direction)] |}).
Proof.
  unfold SendTransceiverRequest. unfold_monad.
  destruct w as [s h]. cbn [signaller events].
  destruct (initiator s); reflexivity.
Qed.

(** ** The constructor *)

(** C6, as the specification states it, fails when the peer connection
    refuses the video transceiver: the initiator then adds no audio
    transceiver and does not negotiate. *)
Lemma C6_counterexample :
  ~ specConstructor true
      (events (snd (NewSignaller envVideoFails true (gs "local") (gs "remote")))).
Proof.
  intros [_ [_ [_ H]]].
  assert (Hin : In Negotiator_Negotiate
                  (events (snd (NewSignaller envVideoFails true (gs "local") (gs "remote")))))
    by (now apply H).
  vm_compute in Hin. intuition discriminate.
Qed.

(** C6 (amended): the constructor registers the default codecs exactly
    when it is the initiator, then asks for a receive-only video
    transceiver, initiator or not; if that succeeds it asks for a
    receive-only audio transceiver; if both succeed it calls
    [negotiator.Negotiate()] exactly when it is the initiator, after both
    transceivers, and returns no error.  If one of the two additions
    fails it returns an error and makes no further call. *)
Theorem C6_constructor env init localID remoteID :
  let h0 := [Negotiator_New init remoteID; PC_OnICEConnectionStateChange]
            ++ (if init then [MediaEngine_RegisterDefaultCodecs] else []) in
  let h1 := h0 ++ [PC_AddTransceiverFromKind RTPCodecTypeVideo recvonly] in
  let h2 := h1 ++ [PC_AddTransceiverFromKind RTPCodecTypeAudio recvonly] in
  let r := NewSignaller env init localID remoteID in
  match pc_AddTransceiverFromKind env h0 RTPCodecTypeVideo recvonly with
  | Some _ => events (snd r) = h1 /\ fst r <> None
  | None =>
      match pc_AddTransceiverFromKind env h1 RTPCodecTypeAudio recvonly with
      | Some _ => events (snd r) = h2 /\ fst r <> None
      | None =>
          events (snd r) = h2 ++ (if init then [Negotiator_Negotiate] else [])
          /\ fst r = None
      end
  end.
Proof.
  unfold NewSignaller, initialize. unfold_monad.
  destruct init; cbn;
    (destruct (pc_AddTransceiverFromKind env _ RTPCodecTypeVideo recvonly); cbn;
     [split; [reflexivity|discriminate]|]);
    (destruct (pc_AddTransceiverFromKind env _ RTPCodecTypeAudio recvonly); cbn;
     [split; [reflexivity|discriminate]|]);
    split; reflexivity.
Qed.

(** ** [Signal]: an SDP offer *)

Lemma handleRemoteOffer_outcome env sd w :
  offerOutcome env sd w (handleRemoteOffer env sd w).
Proof.
  unfold offerOutcome, handleRemoteOffer, offerSteps. unfold_monad.
  cbn [firstn]. destruct w as [s h]. cbn [signaller events].
  destruct (me_PopulateFromSDP env h sd); cbn;
    [split; [reflexivity|split; [reflexivity|discriminate]]|].
  destruct (pc_SetRemoteDescription env (h ++ [MediaEngine_PopulateFromSDP sd]) sd); cbn;
    rewrite <- ?app_assoc; cbn [app];
    [split; [reflexivity|split; [reflexivity|discriminate]]|].
  destruct (pc_CreateAnswer env
              (h ++ [MediaEngine_PopulateFromSDP sd; PC_SetRemoteDescription sd]))
    as [answer [e|]]; cbn;
    rewrite <- ?app_assoc; cbn [app];
    [split; [reflexivity|split; [reflexivity|discriminate]]|].
  destruct (pc_SetLocalDescription env
              (h ++ [MediaEngine_PopulateFromSDP sd; PC_SetRemoteDescription sd;
                     PC_CreateAnswer]) answer); cbn;
    rewrite <- ?app_assoc; cbn [app];
    (split; [reflexivity|split; [reflexivity|first [discriminate|reflexivity]]]).
Qed.

Lemma Signal_offer env payload w p sd :
  NewPayloadFromMap env payload = (p, None) ->
  Signal_ p = SessionDescriptionSignal sd ->
  Type_ sd = SDPTypeOffer ->
  Signal env payload w = handleRemoteOffer env sd w.
Proof.
  intros Hp Hs Ht. unfold Signal, handleRemoteSDP. now rewrite Hp, Hs, Ht.
Qed.

(** C5: for an SDP offer received through [Signal], the signaller
    populates the codecs of the media engine from the SDP, sets the remote
    description, creates an answer, sets it as local description and emits
    it through [onSignal], in this order; the first step that fails ends
    the sequence, and [Signal] then returns an error; it returns [nil]
    exactly when all five steps are done. *)
Theorem C5_offer env payload w p sd :
  NewPayloadFromMap env payload = (p, None) ->
  Signal_ p = SessionDescriptionSignal sd ->
  Type_ sd = SDPTypeOffer ->
  offerOutcome env sd w (Signal env payload w).
Proof.
  intros Hp Hs Ht. rewrite (Signal_offer env payload w p sd Hp Hs Ht).
  apply handleRemoteOffer_outcome.
Qed.

Lemma C5_offer_witness :
  NewPayloadFromMap envOffer [] = (NewPayloadSDP (gs "remote") offer0, None) /\
  Signal_ (NewPayloadSDP (gs "remote") offer0) = SessionDescriptionSignal offer0 /\
  Type_ offer0 = SDPTypeOffer /\
  offerOutcome envOffer offer0 responder0 (Signal envOffer [] responder0).
Proof.
  split; [reflexivity|]. split; [reflexivity|]. split; [reflexivity|].
  exact (C5_offer envOffer [] responder0 (NewPayloadSDP (gs "remote") offer0) offer0
           eq_refl eq_refl eq_refl).
Defined.

Example offer_run :
  Signal envOffer [] responder0
  = (None,
     {| signaller := signaller responder0;
        events := offerSteps (gs "local") offer0 answer0 |}).
Proof. reflexivity. Qed.

(** ** [Signal]: unexpected signals *)

(** C4: when the decoded signal is none of the known variants, [Signal]
    returns an unexpected-signal error and leaves the world as it was: no
    call on the peer connection nor on anything else.  For a renegotiate
    signal and for a transceiver request it returns [nil]. *)
Theorem C4_unexpected_signal env payload w p :
  NewPayloadFromMap env payload = (p, None) ->
  (knownSignal (Signal_ p) = false ->
   exists e, unexpected e /\ Signal env payload w = (Some e, w)) /\
  (requestsNegotiation (Signal_ p) = true -> fst (Signal env payload w) = None).
Proof.
  intro Hp. unfold Signal, handleRemoteSDP. rewrite Hp. split.
  - intro Hk. destruct (Signal_ p) as [c| |kind dir|sd|ty]; try discriminate Hk.
    + simpl in Hk. destruct (Type_ sd); try discriminate Hk;
        (eexists; split; [right; reflexivity|reflexivity]).
    + eexists; split; [left; reflexivity|reflexivity].
  - intro Hr. destruct (Signal_ p); try discriminate Hr; reflexivity.
Qed.

Lemma C4_unexpected_signal_witness :
  NewPayloadFromMap envOK []
  = ({| UserID := gs "remote"; Signal_ := OtherSignal (gs "string") |}, None) /\
  knownSignal (OtherSignal (gs "string")) = false /\
  exists e, unexpected e /\ Signal envOK [] responder0 = (Some e, responder0).
Proof.
  split; [reflexivity|]. split; [reflexivity|].
  exact (proj1 (C4_unexpected_signal envOK [] responder0
                  {| UserID := gs "remote"; Signal_ := OtherSignal (gs "string") |}
                  eq_refl) eq_refl).
Defined.

Example renegotiate_run :
  Signal envVideoFails [] responder0
  = (None, {| signaller := signaller responder0; events := [Negotiator_Negotiate] |}).
Proof. reflexivity. Qed.

(** ** [Close] *)

Lemma Quiet_ret {A} (a : A) : Quiet (State.ret (St:=World) a).
Proof. intro w. split; [reflexivity|]. exists []. now rewrite app_nil_r. Qed.

Lemma Quiet_this : Quiet this.
Proof. intro w. split; [reflexivity|]. exists []. now rewrite app_nil_r. Qed.

Lemma Quiet_emit e : quiet e = true -> Quiet (emit e).
Proof.
  intros He w. split; [reflexivity|]. exists [e]. split; [reflexivity|].
  simpl. now rewrite He.
Qed.

Lemma Quiet_call {A} e (f : list Event -> A) : quiet e = true -> Quiet (call e f).
Proof.
  intros He w. split; [reflexivity|]. exists [e]. split; [reflexivity|].
  simpl. now rewrite He.
Qed.

Lemma Quiet_bind {A B} (m : M A) (k : A -> M B) :
  Quiet m -> (forall a, Quiet (k a)) -> Quiet (State.bind m k).
Proof.
  intros Hm Hk w. unfold State.bind.
  destruct (Hm w) as [Hs [es [He Hq]]]. destruct (m w) as [a w1].
  cbn [snd] in Hs, He.
  destruct (Hk a w1) as [Hs' [es' [He' Hq']]].
  split; [congruence|].
  exists (es ++ es'). split.
  - rewrite He', He. now rewrite app_assoc.
  - rewrite forallb_app. now rewrite Hq, Hq'.
Qed.

Create HintDb quiet.
#[local] Hint Resolve Quiet_ret Quiet_this Quiet_emit Quiet_call Quiet_bind : quiet.

Ltac quiet_step :=
  match goal with
  | |- Quiet (State.bind _ _) => apply Quiet_bind; [|intro]
  | |- Quiet (State.ret _) => apply Quiet_ret
  | |- Quiet (ret _) => apply Quiet_ret
  | |- Quiet this => apply Quiet_this
  | |- Quiet (emit _) => apply Quiet_emit; reflexivity
  | |- Quiet (call _ _) => apply Quiet_call; reflexivity
  | |- Quiet (when ?b _) => destruct b; cbn [when State.when]
  | |- Quiet (State.when ?b _) => destruct b; cbn [State.when]
  | |- Quiet (match ?x with _ => _ end) => destruct x
  end.

Ltac quiet_tac := repeat quiet_step.

Lemma Quiet_initialize env : Quiet (initialize env).
Proof. unfold initialize. quiet_tac. Qed.

Lemma Quiet_handleRemoteOffer env sd : Quiet (handleRemoteOffer env sd).
Proof. unfold handleRemoteOffer. quiet_tac. Qed.

Lemma Quiet_handleRemoteAnswer env sd : Quiet (handleRemoteAnswer env sd).
Proof. unfold handleRemoteAnswer. quiet_tac. Qed.

Lemma Quiet_Signal env payload : Quiet (Signal env payload).
Proof.
  unfold Signal, handleRemoteSDP, Negotiate, handleTransceiverRequest.
  destruct (NewPayloadFromMap env payload) as [p [e|]]; [apply Quiet_ret|].
  destruct (Signal_ p) as [c| |kind dir|sd|ty]; try solve [quiet_tac].
  destruct (Type_ sd);
    auto using Quiet_handleRemoteOffer, Quiet_handleRemoteAnswer with quiet.
Qed.

Lemma Quiet_SendTransceiverRequest kind direction :
  Quiet (SendTransceiverRequest kind direction).
Proof. unfold SendTransceiverRequest. quiet_tac. Qed.

Lemma count_app p t1 t2 : count p (t1 ++ t2) = count p t1 + count p t2.
Proof. unfold count. now rewrite filter_app, length_app. Qed.

Lemma count_quiet p es :
  (forall e, quiet e = true -> p e = false) ->
  forallb quiet es = true -> count p es = 0.
Proof.
  intros Hp. unfold count. induction es as [|e es IH]; simpl; [reflexivity|].
  intro H. apply andb_true_iff in H. destruct H as [He Hes].
  rewrite (Hp e He). now apply IH.
Qed.

Lemma quiet_not_PCClose e : quiet e = true -> isPCClose e = false.
Proof. destruct e; cbv; intros; congruence. Qed.
Lemma quiet_not_ChanClose e : quiet e = true -> isChanClose e = false.
Proof. destruct e; cbv; intros; congruence. Qed.
Lemma quiet_not_Panic e : quiet e = true -> isPanic e = false.
Proof. destruct e; cbv; intros; congruence. Qed.

Lemma latch_Quiet {A} (m : M A) b w : Quiet m -> latch b w -> latch b (snd (m w)).
Proof.
  intros Hm [H1 [H2 [H3 [H4 H5]]]].
  destruct (Hm w) as [Hs [es [He Hq]]].
  unfold latch. rewrite Hs, He, !count_app.
  rewrite (count_quiet isPCClose es quiet_not_PCClose Hq).
  rewrite (count_quiet isChanClose es quiet_not_ChanClose Hq).
  rewrite (count_quiet isPanic es quiet_not_Panic Hq).
  rewrite !Nat.add_0_r. auto.
Qed.

Lemma Close_done env w :
  closeOnce (signaller w) = true -> Close env w = (None, w).
Proof.
  intro H. unfold Close, closeOnce_Do. unfold_monad. now rewrite H.
Qed.

Lemma Close_latch env b w : latch b w -> latch true (snd (Close env w)).
Proof.
  intros [H1 [H2 [H3 [H4 H5]]]]. destruct b.
  - rewrite (Close_done env w H1). cbn [snd]. unfold latch. auto.
  - unfold Close, closeOnce_Do, close_closeChannel. unfold_monad.
    rewrite H1. cbn [signaller events closeChannel snd]. rewrite H2.
    cbn [snd signaller events closeOnce closeChannel]. unfold latch.
    cbn [signaller events closeOnce closeChannel].
    rewrite !count_app, H3, H4, H5. repeat split.
Qed.

Lemma Close_closed env w : closeOnce (signaller (snd (Close env w))) = true.
Proof.
  unfold Close, closeOnce_Do, close_closeChannel. unfold_monad.
  destruct (closeOnce (signaller w)) eqn:E; cbn [snd]; [exact E|].
  cbn [signaller events closeChannel].
  destruct (closeChannel (signaller w)); reflexivity.
Qed.

Lemma closeTimes_once env n w : closeTimes env (S n) w = snd (Close env w).
Proof.
  induction n as [|n IH]; [reflexivity|].
  change (closeTimes env (S (S n)) w) with (snd (Close env (closeTimes env (S n) w))).
  rewrite IH. rewrite Close_done by apply Close_closed. reflexivity.
Qed.

Lemma snd_then_ret {A} (m : M A) w : snd ((m ;; ret tt) w) = snd (m w).
Proof. unfold State.bind, ret, State.ret. now destruct (m w). Qed.

Lemma step_latch env op b w : latch b w -> latch (b || closes op) (snd (step env op w)).
Proof.
  intro H. destruct op as [|st|payload| |kind direction]; cbn [step closes].
  - rewrite orb_true_r, snd_then_ret. now apply (Close_latch env b).
  - unfold handleICEConnectionStateChange.
    destruct st; cbn [closes]; rewrite ?orb_false_r, ?orb_true_r;
      try (apply latch_Quiet; [apply Quiet_ret|exact H]);
      rewrite snd_then_ret; now apply (Close_latch env b).
  - rewrite orb_false_r. apply latch_Quiet; [|exact H].
    apply Quiet_bind; [apply Quiet_Signal|intro; apply Quiet_ret].
  - rewrite orb_false_r. apply latch_Quiet; [|exact H].
    unfold Negotiate. apply Quiet_emit. reflexivity.
  - rewrite orb_false_r. apply latch_Quiet; [|exact H].
    apply Quiet_SendTransceiverRequest.
Qed.

Lemma run_latch env ops : forall b w,
  latch b w -> latch (b || existsb closes ops) (run env ops w).
Proof.
  induction ops as [|op ops IH]; intros b w H; cbn [run existsb].
  - now rewrite orb_false_r.
  - rewrite orb_assoc. apply IH. now apply step_latch.
Qed.

Lemma NewSignaller_latch env init localID remoteID :
  latch false (snd (NewSignaller env init localID remoteID)).
Proof.
  unfold NewSignaller. apply latch_Quiet.
  - apply Quiet_bind; [apply Quiet_emit; reflexivity|intro].
    apply Quiet_bind; [apply Quiet_emit; reflexivity|intro].
    apply Quiet_initialize.
  - unfold latch. cbn. repeat split.
Qed.

(** C3: on a signaller made by [NewSignaller], after any sequence of calls
    ([Close], ICE connection state changes, inbound signals, negotiation
    and transceiver requests), [peerConnection.Close()] has been called
    once if one of the calls was [Close] or a state change to closed,
    disconnected or failed, and never otherwise; the close channel has
    been closed as many times, and is then closed; nothing panicked.
    From any state, [Close] called several times in a row leaves the
    state [Close] called once leaves. *)
Theorem C3_Close_idempotent env init localID remoteID ops :
  let w := run env ops (snd (NewSignaller env init localID remoteID)) in
  let closed := existsb closes ops in
  count isPCClose (events w) = (if closed then 1 else 0) /\
  count isChanClose (events w) = (if closed then 1 else 0) /\
  closeChannel (signaller w) = (if closed then ChanClosed else ChanOpen) /\
  count isPanic (events w) = 0 /\
  (forall w' n, closeTimes env (S n) w' = snd (Close env w')).
Proof.
  intros w closed.
  destruct (run_latch env ops false _ (NewSignaller_latch env init localID remoteID))
    as [_ [H2 [H3 [H4 H5]]]].
  cbn [orb] in *. fold w in H2, H3, H4, H5. fold closed in H2, H3, H4.
  repeat split; try assumption. intros w' n. apply closeTimes_once.
Qed.

Example close_thrice :
  let w := run envOK [OpClose; OpICEConnectionStateChange ICEConnectionStateFailed; OpClose]
               (snd (NewSignaller envOK false (gs "local") (gs "remote"))) in
  events w
  = [Negotiator_New false (gs "remote"); PC_OnICEConnectionStateChange;
     PC_AddTransceiverFromKind RTPCodecTypeVideo recvonly;
     PC_AddTransceiverFromKind RTPCodecTypeAudio recvonly;
     PC_Close; Chan_close].
Proof. reflexivity. Qed.


End SignallerFacts.

(* ===================================================================== *)
(** * The message codec *)
(* ===================================================================== *)

Module CodecFacts.
Import WsMessage CodecProps.

(** Induction on JSON values, through the items of arrays and the fields of
    objects. *)
Lemma Json_induction (P : Json -> Prop) :
  P JNull ->
  (forall b, P (JBool b)) ->
  (forall n, P (JNumber n)) ->
  (forall s, P (JString s)) ->
  (forall items, Forall P items -> P (JArray items)) ->
  (forall fields, Forall (fun kv => P (snd kv)) fields -> P (JObject fields)) ->
  forall v, P v.
Proof.
  intros Hnull Hbool Hnumber Hstring Harray Hobject.
  fix IH 1. intros [|b|n|s|items|fields].
  - exact Hnull.
  - apply Hbool.
  - apply Hnumber.
  - apply Hstring.
  - apply Harray. induction items as [|x items IHitems]; constructor.
    + apply IH.
    + exact IHitems.
  - apply Hobject. induction fields as [|[k x] fields IHfields]; constructor.
    + apply IH.
    + exact IHfields.
Qed.

(** ** Strings *)

Lemma parse_escape c t :
  parse_string_body (escape c ++ t) = prepend [c] (parse_string_body t).
Proof.
  destruct c as [[] [] [] [] [] [] [] []]; reflexivity.
Qed.

Lemma parse_escaped s rest :
  parse_string_body (flat_map escape s ++ quote :: rest) = Some (s, rest).
Proof.
  induction s as [|c s IH]; [reflexivity|].
  cbn [flat_map]. rewrite <- app_assoc, parse_escape, IH. reflexivity.
Qed.

(** ** Numbers *)

Lemma delimited_cases rest :
  delimited rest = true ->
  rest = [] \/ exists c r, rest = c :: r /\ (c = "," \/ c = "]" \/ c = "}")%char.
Proof.
  destruct rest as [|c r]; [now left|]. simpl. intro H. right. exists c, r.
  split; [reflexivity|].
  apply orb_true_iff in H. destruct H as [H|H].
  - apply orb_true_iff in H. destruct H as [H|H]; apply Ascii.eqb_eq in H; auto.
  - apply Ascii.eqb_eq in H. auto.
Qed.

Lemma uint_chars d :
  forallb isNumChar (list_ascii_of_string (NilEmpty.string_of_uint d)) = true.
Proof. induction d; simpl; auto. Qed.

Lemma print_number_chars n : forallb isNumChar (print_number n) = true.
Proof.
  unfold print_number.
  destruct (Z.to_int n) as [d|d]; destruct d; simpl; auto using uint_chars.
Qed.

Lemma spanNum_token t rest :
  forallb isNumChar t = true -> delimited rest = true ->
  spanNum (t ++ rest) = (t, rest).
Proof.
  intros Ht Hr. induction t as [|c t IH]; simpl in *.
  - destruct (delimited_cases rest Hr) as [-> | [c [r [-> [-> | [-> | ->]]]]]]; reflexivity.
  - apply andb_true_iff in Ht. destruct Ht as [Hc Ht].
    rewrite Hc, (IH Ht). reflexivity.
Qed.

Lemma to_int_parses n :
  NilZero.int_of_string (string_of_list_ascii (print_number n)) = Some (Z.to_int n).
Proof.
  unfold print_number. rewrite string_of_list_ascii_of_string.
  apply NilZero.isi; destruct n; simpl; try discriminate;
    intro E; inversion E as [E'];
    now apply DecimalPos.Unsigned.to_uint_nonnil in E'.
Qed.

Lemma parse_print_number n rest :
  delimited rest = true ->
  parse_number (print_number n ++ rest) = Some (JNumber n, rest).
Proof.
  intro Hr. unfold parse_number.
  rewrite (spanNum_token _ _ (print_number_chars n) Hr).
  assert (Hf : startsFraction rest = false).
  { destruct (delimited_cases rest Hr) as [-> | [c [r [-> [-> | [-> | ->]]]]]]; reflexivity. }
  rewrite Hf, to_int_parses, DecimalZ.of_to. reflexivity.
Qed.

(** ** The first byte of a printed value *)

(** A byte that is [-] or a digit is no white space and opens no literal,
    string, array or object. *)
Lemma numChar_dispatch c :
  isNumChar c = true ->
  isSpace c = false /\ Ascii.eqb c "n" = false /\ Ascii.eqb c "t" = false /\
  Ascii.eqb c "f" = false /\ Ascii.eqb c quote = false /\
  Ascii.eqb c "[" = false /\ Ascii.eqb c "{" = false /\
  Ascii.eqb c "]" = false /\ Ascii.eqb c "}" = false.
Proof.
  destruct c as [[] [] [] [] [] [] [] []]; intro H;
    try discriminate H; repeat split.
Qed.

Lemma print_number_head n :
  exists c r, print_number n = c :: r /\ isNumChar c = true.
Proof.
  pose proof (print_number_chars n) as H.
  destruct (print_number n) as [|c r] eqn:E.
  - exfalso. unfold print_number in E.
    destruct (Z.to_int n) as [d|d]; destruct d; discriminate E.
  - exists c, r. simpl in H. apply andb_true_iff in H. now destruct H.
Qed.

Lemma print_head v : exists c r, print v = c :: r /\ opens c = true.
Proof.
  destruct v as [|[|]|n|s|items|fields]; try (eexists; eexists; split; reflexivity).
  destruct (print_number_head n) as [c [r [E Hc]]].
  exists c, r. split; [exact E|].
  destruct (numChar_dispatch c Hc) as [Hs [_ [_ [_ [_ [_ [_ [Hb Hcb]]]]]]]].
  unfold opens. now rewrite Hs, Hb, Hcb.
Qed.

Lemma skip_ws_opens c r : opens c = true -> skip_ws (c :: r) = c :: r.
Proof.
  unfold opens. intro H. simpl.
  destruct (isSpace c); [discriminate H|reflexivity].
Qed.

Lemma skip_ws_print v rest : skip_ws (print v ++ rest) = print v ++ rest.
Proof.
  destruct (print_head v) as [c [r [E Hc]]]. rewrite E.
  now apply skip_ws_opens.
Qed.

(** ** Values *)

Lemma delimited_items xs rest : delimited (itemsText xs ++ "]"%char :: rest) = true.
Proof. destruct xs; reflexivity. Qed.

Lemma delimited_fields fs rest : delimited (fieldsText fs ++ "}"%char :: rest) = true.
Proof. destruct fs; reflexivity. Qed.

(** One step of the parser on a known first byte. *)
Lemma parse_items_comma fuel r :
  parse_items (S fuel) (","%char :: r)
  = match parse_value fuel r with
    | Some (v, r1) =>
        match parse_items fuel r1 with
        | Some (vs, r2) => Some (v :: vs, r2)
        | None => None
        end
    | None => None
    end.
Proof. reflexivity. Qed.

Lemma parse_fields_comma fuel r :
  parse_fields (S fuel) (","%char :: r)
  = match parse_field (parse_value fuel) r with
    | Some (kv, r1) =>
        match parse_fields fuel r1 with
        | Some (kvs, r2) => Some (kv :: kvs, r2)
        | None => None
        end
    | None => None
    end.
Proof. reflexivity. Qed.

Lemma parse_field_quote pv r :
  parse_field pv (quote :: r)
  = match parse_string_body r with
    | Some (k, r1) =>
        match skip_ws r1 with
        | d :: r2 =>
            if Ascii.eqb d ":" then
              match pv r2 with
              | Some (v, r3) => Some ((k, v), r3)
              | None => None
              end
            else None
        | [] => None
        end
    | None => None
    end.
Proof. reflexivity. Qed.

Lemma opens_not_closing c :
  opens c = true -> Ascii.eqb c "]" = false /\ Ascii.eqb c "}" = false.
Proof.
  unfold opens. intro H.
  destruct (Ascii.eqb c "]"); [now rewrite andb_false_r in H|].
  destruct (Ascii.eqb c "}"); [now rewrite andb_false_r in H|]. now split.
Qed.

Lemma parse_value_array fuel x tail :
  parse_value (S fuel) ("["%char :: print x ++ tail)
  = match parse_value fuel (print x ++ tail) with
    | Some (v, r1) =>
        match parse_items fuel r1 with
        | Some (vs, r2) => Some (JArray (v :: vs), r2)
        | None => None
        end
    | None => None
    end.
Proof.
  destruct (print_head x) as [c [r [E Hc]]].
  destruct (opens_not_closing c Hc) as [Hb _].
  change (parse_value (S fuel) ("["%char :: print x ++ tail))
    with (match skip_ws (print x ++ tail) with
          | [] => None
          | d :: r' =>
              if Ascii.eqb d "]" then Some (JArray [], r')
              else
                match parse_value fuel (print x ++ tail) with
                | Some (v, r1) =>
                    match parse_items fuel r1 with
                    | Some (vs, r2) => Some (JArray (v :: vs), r2)
                    | None => None
                    end
                | None => None
                end
          end).
  rewrite skip_ws_print. rewrite E at 1. cbn [app]. now rewrite Hb.
Qed.

Lemma parse_value_object fuel k tail :
  parse_value (S fuel) ("{"%char :: print_string k ++ tail)
  = match parse_field (parse_value fuel) (print_string k ++ tail) with
    | Some (kv, r1) =>
        match parse_fields fuel r1 with
        | Some (kvs, r2) => Some (JObject (kv :: kvs), r2)
        | None => None
        end
    | None => None
    end.
Proof. reflexivity. Qed.

Lemma parse_value_string fuel s rest :
  parse_value (S fuel) (print_string s ++ rest) = Some (JString s, rest).
Proof.
  unfold print_string. rewrite <- app_comm_cons, <- app_assoc. cbn [app].
  change (parse_value (S fuel) (quote :: flat_map escape s ++ quote :: rest))
    with (match parse_string_body (flat_map escape s ++ quote :: rest) with
          | Some (str, r') => Some (JString str, r')
          | None => None
          end).
  now rewrite parse_escaped.
Qed.

Lemma parse_value_number fuel c r :
  isNumChar c = true -> parse_value (S fuel) (c :: r) = parse_number (c :: r).
Proof.
  intro Hc.
  destruct (numChar_dispatch c Hc) as [Hs [Hn [Ht [Hf [Hq [Ha [Ho _]]]]]]].
  cbn [parse_value skip_ws]. now rewrite Hs, Hn, Ht, Hf, Hq, Ha, Ho.
Qed.

Lemma parse_items_print xs :
  Forall roundTrips xs ->
  forall fuel rest,
    length (itemsText xs) + 1 <= fuel ->
    parse_items fuel (itemsText xs ++ "]"%char :: rest) = Some (xs, rest).
Proof.
  induction 1 as [|x xs Hx Hxs IH]; intros fuel rest Hlen.
  - destruct fuel as [|fuel]; [simpl in Hlen; lia|]. reflexivity.
  - destruct fuel as [|fuel]; [simpl in Hlen; lia|].
    unfold itemsText in *. cbn [flat_map] in *.
    rewrite <- app_assoc. cbn [app].
    rewrite length_app in Hlen. cbn [length] in Hlen.
    rewrite parse_items_comma.
    rewrite Hx; [|lia|apply delimited_items].
    rewrite IH by lia. reflexivity.
Qed.

Lemma parse_field_print fuel k x rest :
  roundTrips x -> length (print x) <= fuel -> delimited rest = true ->
  parse_field (parse_value fuel) (print_string k ++ ":"%char :: print x ++ rest)
  = Some ((k, x), rest).
Proof.
  intros Hx Hlen Hr. unfold print_string.
  rewrite <- app_comm_cons, <- app_assoc. cbn [app].
  rewrite parse_field_quote, parse_escaped.
  change (skip_ws (":"%char :: print x ++ rest)) with (":"%char :: print x ++ rest).
  change (Ascii.eqb ":" ":") with true. cbv iota.
  now rewrite Hx.
Qed.

Lemma parse_fields_print fs :
  Forall (fun kv => roundTrips (snd kv)) fs ->
  forall fuel rest,
    length (fieldsText fs) + 1 <= fuel ->
    parse_fields fuel (fieldsText fs ++ "}"%char :: rest) = Some (fs, rest).
Proof.
  induction 1 as [|[k x] fs Hx Hfs IH]; intros fuel rest Hlen.
  - destruct fuel as [|fuel]; [simpl in Hlen; lia|]. reflexivity.
  - destruct fuel as [|fuel]; [simpl in Hlen; lia|].
    unfold fieldsText in *. cbn [flat_map fst snd] in *.
    rewrite <- !app_assoc. cbn [app]. rewrite <- !app_assoc. cbn [app].
    rewrite !length_app in Hlen. cbn [length] in Hlen.
    rewrite !length_app in Hlen. cbn [length] in Hlen.
    rewrite parse_fields_comma.
    rewrite parse_field_print; [|exact Hx|lia|apply delimited_fields].
    rewrite IH by lia. reflexivity.
Qed.

(** Every value round-trips. *)
Lemma parse_print v : roundTrips v.
Proof.
  induction v as [|b|n|s|items Hitems|fields Hfields] using Json_induction;
    intros fuel rest Hlen Hr.
  - destruct fuel as [|fuel]; [simpl in Hlen; lia|]. reflexivity.
  - destruct fuel as [|fuel]; [destruct b; simpl in Hlen; lia|].
    destruct b; reflexivity.
  - destruct (print_number_head n) as [c [r [E Hc]]].
    cbn [print] in *.
    destruct fuel as [|fuel]; [rewrite E in Hlen; simpl in Hlen; lia|].
    rewrite E. cbn [app].
    rewrite (parse_value_number fuel c (r ++ rest) Hc).
    change (c :: r ++ rest) with ((c :: r) ++ rest). rewrite <- E.
    now apply parse_print_number.
  - destruct fuel as [|fuel]; [simpl in Hlen; lia|].
    apply parse_value_string.
  - destruct fuel as [|fuel]; [simpl in Hlen; lia|].
    destruct items as [|x xs].
    + reflexivity.
    + inversion Hitems as [|? ? Hx Hxs]; subst.
      cbn [print] in *. fold (itemsText xs) in *.
      cbn [length] in Hlen. rewrite !length_app in Hlen. cbn [length] in Hlen.
      rewrite <- app_comm_cons, <- !app_assoc. cbn [app].
      rewrite parse_value_array.
      rewrite Hx; [|lia|apply delimited_items].
      rewrite (parse_items_print xs Hxs) by lia. reflexivity.
  - destruct fuel as [|fuel]; [simpl in Hlen; lia|].
    destruct fields as [|[k x] fs].
    + reflexivity.
    + inversion Hfields as [|? ? Hx Hfs]; subst. cbn [snd] in Hx.
      cbn [print fst snd] in *. fold (fieldsText fs) in *.
      cbn [length] in Hlen. rewrite !length_app in Hlen. cbn [length] in Hlen.
      rewrite !length_app in Hlen.
      rewrite <- app_comm_cons, <- !app_assoc. cbn [app].
      rewrite <- !app_assoc. cbn [app].
      rewrite parse_value_object.
      rewrite parse_field_print; [|exact Hx|lia|apply delimited_fields].
      rewrite (parse_fields_print fs Hfs) by lia. reflexivity.
Qed.

(** ** Messages *)

Lemma Deserialize_Serialize m : Deserialize (Serialize m) = Some m.
Proof.
  unfold Deserialize, Serialize.
  pose proof (parse_print (toJson m) (S (length (print (toJson m)))) []) as H.
  rewrite app_nil_r in H. rewrite H; [|lia|reflexivity].
  destruct m as [t r p]. reflexivity.
Qed.


(** The frames of [TestMessageSerializeDeserialize] and of the adapter
    test. *)
Example serialize_test_message :
  Serialize (NewMessage (gs "test-type") (gs "test-room") (JString (gs "test-payload")))
  = text "{'type':'test-type','room':'test-room','payload':'test-payload'}".
Proof. reflexivity. Qed.

Example serialize_join :
  Serialize (NewMessageRoomJoin (gs "myroom") (gs "client1") (gs "a"))
  = text "{'type':'ws_room_join','room':'myroom','payload':{'clientID':'client1','metadata':'a'}}".
Proof. reflexivity. Qed.

Example deserialize_leave :
  Deserialize (text "{'type':'ws_room_leave','room':'myroom','payload':'client1'}")
  = Some (NewMessageRoomLeave (gs "myroom") (gs "client1")).
Proof. reflexivity. Qed.

Example deserialize_spaced :
  Deserialize (text " { 'payload' : [1, -20, true, null, {'a': 'b\n'}, []] , 'type':'x'} ")
  = Some (NewMessage (gs "x") []
            (JArray [JNumber 1; JNumber (-20); JBool true; JNull;
                     JObject [(gs "a", JString [ascii_of_nat 98; ascii_of_nat 10])];
                     JArray []])).
Proof. reflexivity. Qed.

Example deserialize_malformed : Deserialize (text "{'type':") = None.
Proof. reflexivity. Qed.

Example deserialize_fraction : Deserialize (text "{'payload':1.5}") = None.
Proof. reflexivity. Qed.


End CodecFacts.

(* ===================================================================== *)
(** * The socket handler: every path through it *)
(* ===================================================================== *)

Module HandlerMoreFacts.
Import GoErrors WsHandler HandlerProps HandlerCounts.

(** ** The names [path.Base] gives *)

Lemma lastSlash_from_spec s : forall k,
  (GoPath.lastSlash_from s k = (-1)%Z /\
   forall j, j < k -> nth j s zero <> GoPath.slash)
  \/ (exists m, GoPath.lastSlash_from s k = Z.of_nat m /\ m < k /\
                forall j, m < j -> j < k -> nth j s zero <> GoPath.slash).
Proof.
  induction k as [|k IH]; simpl.
  - left. split; [reflexivity|]. intros j Hj. lia.
  - destruct (Ascii.eqb_spec (nth k s zero) GoPath.slash) as [E|E].
    + right. exists k. split; [reflexivity|]. split; [lia|]. intros j H1 H2. lia.
    + destruct IH as [[Hl Hall]|[m [Hl [Hm Hall]]]].
      * left. split; [exact Hl|]. intros j Hj.
        destruct (Nat.eq_dec j k) as [->|Hne]; [exact E|apply Hall; lia].
      * right. exists m. split; [exact Hl|]. split; [lia|]. intros j H1 H2.
        destruct (Nat.eq_dec j k) as [->|Hne]; [exact E|apply Hall; lia].
Qed.

Lemma not_In_nth (s : gostring) :
  (forall j, j < length s -> nth j s zero <> GoPath.slash) -> ~ In GoPath.slash s.
Proof.
  intros H Hin. destruct (In_nth s GoPath.slash zero Hin) as [j [Hj E]].
  now apply (H j Hj).
Qed.

Lemma Base_oneElement path : oneElement (GoPath.Base path).
Proof.
  unfold GoPath.Base. destruct path as [|c path'].
  - split; [discriminate|]. right. simpl. intuition discriminate.
  - set (path1 := GoPath.stripTrailingSlashes _ _).
    assert (Hres : forall path2, ~ In GoPath.slash path2 ->
                oneElement match path2 with [] => [GoPath.slash] | _ => path2 end).
    { intros [|a l] Hno; split; try discriminate; [now left|now right]. }
    unfold GoPath.lastSlash.
    destruct (lastSlash_from_spec path1 (length path1)) as [[Hl Hall]|[m [Hl [Hm Hall]]]];
      rewrite Hl.
    + apply Hres. now apply not_In_nth.
    + replace (0 <=? Z.of_nat m)%Z with true by (symmetry; apply Z.leb_le; lia).
      replace (Z.to_nat (Z.of_nat m + 1)) with (m + 1) by lia.
      apply Hres. apply not_In_nth. intros j Hj.
      rewrite nth_skipn. rewrite length_skipn in Hj. apply Hall; lia.
Qed.

(** ** The events of each kind *)

Lemma project_app {A} (f : Event -> option A) t1 t2 :
  project f (t1 ++ t2) = project f t1 ++ project f t2.
Proof. unfold project. apply flat_map_app. Qed.

Lemma project_handled {A} (f : Event -> option A) env path msgs :
  (forall ev, f (EvHandleMessage ev) = None) ->
  project f (handled env path msgs) = [].
Proof.
  intro Hf. unfold handled, project.
  induction msgs as [|m msgs IH]; simpl; [reflexivity|]. now rewrite Hf, IH.
Qed.

Lemma project_log {A} (f : Event -> option A) err :
  (forall l, f (EvLog l) = None) -> project f (subscriptionLog err) = [].
Proof.
  intro Hf. unfold subscriptionLog.
  destruct (errors_Is_Canceled err); [reflexivity|].
  destruct ((CloseStatus err =? StatusNormalClosure)%Z
            || (CloseStatus err =? StatusGoingAway)%Z); [reflexivity|].
  destruct err; [|reflexivity]. unfold project. simpl. now rewrite Hf.
Qed.

Lemma in_project {A} (f : Event -> option A) e a t :
  f e = Some a -> In e t -> In a (project f t).
Proof.
  intros Hf Hin. unfold project. apply in_flat_map. exists e.
  split; [exact Hin|]. rewrite Hf. now left.
Qed.

(** The values of the events of one kind in a trace of the handler, given
    the values in its three parts. *)
Lemma project_one {A} (f : Event -> option A) e :
  f e = None -> project f [e] = [].
Proof. intro H. unfold project. simpl. now rewrite H. Qed.

Lemma project_trace {A} (f : Event -> option A) env path cleanup :
  (forall ev, f (EvHandleMessage ev) = None) ->
  (forall l, f (EvLog l) = None) ->
  f EvAccept = None -> f EvSubscribe = None ->
  project f (HandleRoomWithCleanup env path cleanup)
  = only (accepted env)
      (project f (opening env path)
       ++ (if added env then project f (teardown env path cleanup)
           else project f (closing path))).
Proof.
  intros Hh Hl Ha Hs. unfold added, accepted.
  destruct (websocket_Accept env) as [ea|] eqn:Eacc.
  - rewrite (HandlerFacts.trace_accept_failed env path cleanup ea Eacc).
    unfold project. simpl. now rewrite Ha, Hl.
  - destruct (adapter_Add env) as [eadd|] eqn:Eadd.
    + rewrite (HandlerFacts.trace_add_failed env path cleanup eadd Eacc Eadd).
      rewrite !project_app. rewrite (project_one f _ (Hl _)). reflexivity.
    + rewrite (HandlerFacts.trace_added env path cleanup Eacc Eadd).
      rewrite !project_app, project_handled, project_log by assumption.
      rewrite (project_one f _ Hs). reflexivity.
Qed.

Lemma accept_failed_calls env path cleanup err :
  websocket_Accept env = Some err ->
  calls (HandleRoomWithCleanup env path cleanup) = [EvAccept].
Proof.
  intro Ha. now rewrite (HandlerFacts.trace_accept_failed env path cleanup err Ha).
Qed.

(** X1: when the upgrade of the connection fails the handler makes no
    other call: it enters no room, creates no client and closes
    nothing. *)
Theorem X1_upgrade_failed env path cleanup err :
  websocket_Accept env = Some err ->
  calls (HandleRoomWithCleanup env path cleanup) = [EvAccept].
Proof. apply accept_failed_calls. Qed.

Lemma X1_upgrade_failed_witness :
  websocket_Accept envNoUpgrade = Some (OtherError (gs "not a websocket handshake")) /\
  calls (HandleRoomWithCleanup envNoUpgrade (gs "/ws/r/c") true) = [EvAccept].
Proof.
  split; [reflexivity|].
  exact (X1_upgrade_failed envNoUpgrade (gs "/ws/r/c") true
           (OtherError (gs "not a websocket handshake")) eq_refl).
Defined.

(** X2: on every path through the handler the rooms entered are the rooms
    exited (one when the upgrade succeeded, none otherwise); the one
    client created is closed once and the socket is closed once, with the
    internal-error status; the client is removed from the adapter it was
    added to exactly when adding it succeeded; and the cleanup callback
    runs once exactly when adding succeeded and there is a callback. *)
Theorem X2_balanced env path cleanup :
  let t := HandleRoomWithCleanup env path cleanup in
  let clientID := GoPath.Base path in
  let room := GoPath.Base (GoPath.Dir path) in
  project enterOf t = only (accepted env) [room] /\
  project exitOf t = project enterOf t /\
  project newClientOf t = only (accepted env) [clientID] /\
  project clientCloseOf t = only (accepted env) [tt] /\
  project socketCloseOf t = only (accepted env) [StatusInternalError] /\
  project addOf t = only (accepted env) [(rooms_Enter env room, clientID)] /\
  project removeOf t = only (added env) (project addOf t) /\
  project cleanupOf t = only (added env && cleanup) [cleanupEvent env path].
Proof.
  cbv zeta.
  rewrite !project_trace by reflexivity.
  unfold added, accepted, only, teardown, closing.
  destruct (websocket_Accept env); destruct (adapter_Add env);
    destruct (adapter_Remove env); destruct cleanup; repeat split.
Qed.

(** X3: the client ID and the room the handler works with are never
    empty, and hold no slash unless they are the root [/]: whatever the
    path of the request, each is one path element. *)
Theorem X3_names_are_elements env path cleanup :
  (forall clientID,
      In (EvNewClient clientID) (HandleRoomWithCleanup env path cleanup) ->
      oneElement clientID) /\
  (forall room,
      In (EvEnter room) (HandleRoomWithCleanup env path cleanup) ->
      oneElement room).
Proof.
  split.
  - intros clientID Hin.
    apply (in_project newClientOf (EvNewClient clientID) clientID _ eq_refl) in Hin.
    rewrite project_trace in Hin by reflexivity.
    unfold only, added, accepted, teardown, closing in Hin.
    destruct (websocket_Accept env); destruct (adapter_Add env);
      destruct (adapter_Remove env); destruct cleanup; simpl in Hin;
      try contradiction; destruct Hin as [<-|[]]; apply Base_oneElement.
  - intros room Hin.
    apply (in_project enterOf (EvEnter room) room _ eq_refl) in Hin.
    rewrite project_trace in Hin by reflexivity.
    unfold only, added, accepted, teardown, closing in Hin.
    destruct (websocket_Accept env); destruct (adapter_Add env);
      destruct (adapter_Remove env); destruct cleanup; simpl in Hin;
      try contradiction; destruct Hin as [<-|[]]; apply Base_oneElement.
Qed.

Lemma filter_notCleanup_handled env path msgs :
  filter notCleanup (handled env path msgs) = handled env path msgs.
Proof.
  unfold handled. induction msgs as [|m msgs IH]; simpl; [reflexivity|].
  now rewrite IH.
Qed.

(** X4: [HandleRoom] makes the calls [HandleRoomWithCleanup] makes with a
    cleanup callback, in the same order, but for the call of the
    callback. *)
Theorem X4_HandleRoom env path :
  calls (HandleRoom env path)
  = filter notCleanup (calls (HandleRoomWithCleanup env path true)).
Proof.
  unfold HandleRoom.
  destruct (websocket_Accept env) as [ea|] eqn:Eacc.
  - now rewrite !(accept_failed_calls env path _ ea Eacc).
  - destruct (adapter_Add env) as [eadd|] eqn:Eadd.
    + now rewrite !(HandlerFacts.calls_add_failed env path _ eadd Eacc Eadd).
    + rewrite !(HandlerFacts.calls_added env path _ Eacc Eadd).
      rewrite !filter_app, filter_notCleanup_handled. reflexivity.
Qed.

End HandlerMoreFacts.

(* ===================================================================== *)
(** * The signaller: return values, answers, and what it sends *)
(* ===================================================================== *)

Module SignallerMoreFacts.
Import GoErrors Signals SignalsCallbacks SignallerProps SignallerStamps.

Ltac unfold_monad :=
  unfold ret, when, this, emit, call;
  unfold State.bind, State.ret, State.when;
  cbn [signaller events fst snd].

(** ** The error of [Close] *)

Lemma Close_first env w :
  closeOnce (signaller w) = false -> fst (Close env w) = pc_Close env (events w).
Proof.
  intro H. unfold Close, closeOnce_Do, close_closeChannel. unfold_monad.
  rewrite H. cbn [signaller events]. now destruct (closeChannel (signaller w)).
Qed.

(** X5: on a signaller that was not closed, [Close] returns what
    [peerConnection.Close()] returns; every later [Close] returns [nil],
    also when the first one returned an error. *)
Theorem X5_Close_error env w :
  closeOnce (signaller w) = false ->
  fst (Close env w) = pc_Close env (events w) /\
  forall n, fst (Close env (closeTimes env (S n) w)) = None.
Proof.
  intro H. split; [now apply Close_first|].
  intro n. rewrite SignallerFacts.closeTimes_once.
  now rewrite SignallerFacts.Close_done by apply SignallerFacts.Close_closed.
Qed.

Lemma X5_Close_error_witness :
  closeOnce (signaller responder0) = false /\
  fst (Close envCloseFails responder0)
  = Some (OtherError (gs "connection already closed")) /\
  fst (Close envCloseFails (closeTimes envCloseFails 1 responder0)) = None.
Proof.
  split; [reflexivity|].
  pose proof (X5_Close_error envCloseFails responder0 eq_refl) as [H1 H2].
  split; [exact H1|exact (H2 0)].
Defined.

(** ** [Signal]: answers and requests *)

Lemma Signal_answer env payload w p sd :
  NewPayloadFromMap env payload = (p, None) ->
  Signal_ p = SessionDescriptionSignal sd ->
  Type_ sd = SDPTypeAnswer ->
  Signal env payload w = handleRemoteAnswer env sd w.
Proof.
  intros Hp Hs Ht. unfold Signal, handleRemoteSDP. now rewrite Hp, Hs, Ht.
Qed.

(** X6: for an SDP answer received through [Signal] the signaller makes
    one call, [SetRemoteDescription(answer)], and none on the negotiator;
    it returns [nil] when the call succeeds and otherwise an error that
    wraps the error of the call. *)
Theorem X6_answer env payload w p sd :
  NewPayloadFromMap env payload = (p, None) ->
  Signal_ p = SessionDescriptionSignal sd ->
  Type_ sd = SDPTypeAnswer ->
  let r := Signal env payload w in
  signaller (snd r) = signaller w /\
  events (snd r) = events w ++ [PC_SetRemoteDescription sd] /\
  fst r = match pc_SetRemoteDescription env (events w) sd with
          | Some e => Some (Wrapped (gs "[%s] Error setting remote description: %w") e)
          | None => None
          end.
Proof.
  intros Hp Hs Ht. cbv zeta. rewrite (Signal_answer env payload w p sd Hp Hs Ht).
  unfold handleRemoteAnswer. unfold_monad.
  destruct (pc_SetRemoteDescription env (events w) sd); repeat split.
Qed.

Lemma X6_answer_witness :
  NewPayloadFromMap envAnswerRefused []
  = (NewPayloadSDP (gs "remote") answer0, None) /\
  Signal_ (NewPayloadSDP (gs "remote") answer0) = SessionDescriptionSignal answer0 /\
  Type_ answer0 = SDPTypeAnswer /\
  let r := Signal envAnswerRefused [] responder0 in
  signaller (snd r) = signaller responder0 /\
  events (snd r) = [PC_SetRemoteDescription answer0] /\
  fst r = Some (Wrapped (gs "[%s] Error setting remote description: %w")
                  (OtherError (gs "wrong state"))).
Proof.
  split; [reflexivity|]. split; [reflexivity|]. split; [reflexivity|].
  exact (X6_answer envAnswerRefused [] responder0
           (NewPayloadSDP (gs "remote") answer0) answer0 eq_refl eq_refl eq_refl).
Defined.



(** ** What [Signal] sends *)

Lemma no_OnSignal_nil q : ~ In (OnSignal q) [].
Proof. intro H. contradiction. Qed.


(** ** The stamp of the payloads *)

Lemma Stamped_ret {A} local (a : A) : Stamped local (State.ret (St:=World) a).
Proof.
  intros w _. split; [reflexivity|]. exists []. split; [now rewrite app_nil_r|constructor].
Qed.

Lemma Stamped_emit local e : stampedBy local e -> Stamped local (emit e).
Proof.
  intros He w _. split; [reflexivity|]. exists [e]. split; [reflexivity|].
  now constructor.
Qed.

Lemma Stamped_call {A} local e (f : list Event -> A) :
  stampedBy local e -> Stamped local (call e f).
Proof.
  intros He w _. split; [reflexivity|]. exists [e]. split; [reflexivity|].
  now constructor.
Qed.

Lemma Stamped_bind {A B} local (m : M A) (k : A -> M B) :
  Stamped local m -> (forall a, Stamped local (k a)) -> Stamped local (State.bind m k).
Proof.
  intros Hm Hk w Hw. unfold State.bind.
  destruct (Hm w Hw) as [Hi [es [He Hs]]]. destruct (m w) as [a w1].
  cbn [snd] in Hi, He.
  assert (Hw1 : localPeerID (signaller w1) = local).
  { unfold identity in Hi. inversion Hi. congruence. }
  destruct (Hk a w1 Hw1) as [Hi' [es' [He' Hs']]].
  split; [congruence|].
  exists (es ++ es'). split.
  - rewrite He', He. now rewrite app_assoc.
  - apply Forall_app. now split.
Qed.

(** After [s <- this], [s] has the local peer ID of the world. *)
Lemma Stamped_this {A} local (k : Signaller -> M A) :
  (forall s, localPeerID s = local -> Stamped local (k s)) ->
  Stamped local (State.bind this k).
Proof.
  intros Hk w Hw. unfold State.bind, this. now apply Hk.
Qed.

Ltac stamped_step :=
  match goal with
  | |- Stamped _ (State.bind this _) => apply Stamped_this; intros ? ?
  | |- Stamped _ (State.bind _ _) => apply Stamped_bind; [|intro]
  | |- Stamped _ (State.ret _) => apply Stamped_ret
  | |- Stamped _ (ret _) => apply Stamped_ret
  | |- Stamped _ (emit _) => apply Stamped_emit; simpl; auto
  | |- Stamped _ (call _ _) => apply Stamped_call; exact I
  | |- Stamped _ (when ?b _) => destruct b; cbn [when State.when]
  | |- Stamped _ (State.when ?b _) => destruct b; cbn [State.when]
  | |- Stamped _ (match ?x with _ => _ end) => destruct x
  end.

Ltac stamped_tac := repeat stamped_step.

Lemma Stamped_initialize local env : Stamped local (initialize env).
Proof. unfold initialize. stamped_tac. Qed.

Lemma Stamped_handleRemoteOffer local env sd : Stamped local (handleRemoteOffer env sd).
Proof. unfold handleRemoteOffer. stamped_tac. Qed.

Lemma Stamped_handleRemoteAnswer local env sd : Stamped local (handleRemoteAnswer env sd).
Proof. unfold handleRemoteAnswer. stamped_tac. Qed.

Lemma Stamped_Signal local env payload : Stamped local (Signal env payload).
Proof.
  unfold Signal, handleRemoteSDP, Negotiate, handleTransceiverRequest.
  destruct (NewPayloadFromMap env payload) as [p [e|]]; [apply Stamped_ret|].
  destruct (Signal_ p) as [c| |kind dir|sd|ty]; try solve [stamped_tac].
  destruct (Type_ sd);
    first [apply Stamped_handleRemoteOffer|apply Stamped_handleRemoteAnswer
          |apply Stamped_ret].
Qed.

Lemma Stamped_SendTransceiverRequest local kind direction :
  Stamped local (SendTransceiverRequest kind direction).
Proof. unfold SendTransceiverRequest. stamped_tac. Qed.

Lemma Stamped_handleLocalOffer local env offer err :
  Stamped local (handleLocalOffer env offer err).
Proof. unfold handleLocalOffer. stamped_tac. Qed.

Lemma Stamped_handleLocalRequestNegotiation local :
  Stamped local handleLocalRequestNegotiation.
Proof. unfold handleLocalRequestNegotiation. stamped_tac. Qed.

Lemma Stamped_handleICECandidate local (IC : Type) (ToJSON : IC -> ICECandidateInit) c :
  Stamped local (handleICECandidate ToJSON c).
Proof. unfold handleICECandidate. stamped_tac. Qed.

Lemma Stamped_Close local env : Stamped local (Close env).
Proof.
  intros w _. unfold Close, closeOnce_Do, close_closeChannel. unfold_monad.
  destruct (closeOnce (signaller w)); cbn [snd].
  - split; [reflexivity|]. exists []. split; [now rewrite app_nil_r|constructor].
  - cbn [signaller events]. destruct (closeChannel (signaller w)); cbn [snd signaller events];
      (split; [reflexivity|]; eexists; split;
       [rewrite <- app_assoc; reflexivity|repeat constructor]).
Qed.

Lemma Stamped_step local env op : Stamped local (step env op).
Proof.
  destruct op as [|st|payload| |kind direction]; cbn [step].
  - apply Stamped_bind; [apply Stamped_Close|intro; apply Stamped_ret].
  - unfold handleICEConnectionStateChange.
    destruct st; try apply Stamped_ret;
      (apply Stamped_bind; [apply Stamped_Close|intro; apply Stamped_ret]).
  - apply Stamped_bind; [apply Stamped_Signal|intro; apply Stamped_ret].
  - unfold Negotiate. apply Stamped_emit. exact I.
  - apply Stamped_SendTransceiverRequest.
Qed.

Lemma Stamped_exec local (IC : Type) (ToJSON : IC -> ICECandidateInit) env c :
  Stamped local (exec ToJSON env c).
Proof.
  destruct c as [op|offer err| |c]; cbn [exec].
  - apply Stamped_step.
  - apply Stamped_handleLocalOffer.
  - apply Stamped_handleLocalRequestNegotiation.
  - apply Stamped_handleICECandidate.
Qed.

Lemma stampedWorld_step {A} id (m : M A) w :
  Stamped (snd (fst id)) m -> stampedWorld id w -> stampedWorld id (snd (m w)).
Proof.
  intros Hm [Hi Hs].
  assert (Hw : localPeerID (signaller w) = snd (fst id)).
  { rewrite <- Hi. reflexivity. }
  destruct (Hm w Hw) as [Hi' [es [He Hes]]].
  split; [congruence|]. rewrite He. apply Forall_app. now split.
Qed.

Lemma stampedWorld_runCalls (IC : Type) (ToJSON : IC -> ICECandidateInit) env id cs :
  forall w, stampedWorld id w -> stampedWorld id (runCalls ToJSON env cs w).
Proof.
  induction cs as [|c cs IH]; intros w Hw; cbn [runCalls]; [exact Hw|].
  apply IH. apply stampedWorld_step; [apply Stamped_exec|exact Hw].
Qed.

Lemma stampedWorld_NewSignaller env init localID remoteID :
  stampedWorld (init, localID, remoteID)
    (snd (NewSignaller env init localID remoteID)).
Proof.
  unfold NewSignaller. apply stampedWorld_step.
  - cbn [fst snd].
    apply Stamped_bind; [apply Stamped_emit; exact I|intro].
    apply Stamped_bind; [apply Stamped_emit; exact I|intro].
    apply Stamped_initialize.
  - split; [reflexivity|constructor].
Qed.

(** X9: whatever is called on a signaller made by [NewSignaller] (the
    calls of its user, the callbacks of the negotiator for a local offer
    and for a renegotiation request, the callback for an ICE candidate),
    the signaller stays initiator or responder as it was made, keeps its
    local and remote peer IDs, and every payload it has sent through
    [onSignal] carries its local peer ID as user ID. *)
Theorem X9_payloads_stamped (IC : Type) (ToJSON : IC -> ICECandidateInit)
        env init localID remoteID cs :
  let w := runCalls ToJSON env cs (snd (NewSignaller env init localID remoteID)) in
  initiator (signaller w) = init /\
  localPeerID (signaller w) = localID /\
  remotePeerID (signaller w) = remoteID /\
  forall q, In (OnSignal q) (events w) -> UserID q = localID.
Proof.
  cbv zeta.
  destruct (stampedWorld_runCalls IC ToJSON env (init, localID, remoteID) cs _
              (stampedWorld_NewSignaller env init localID remoteID)) as [Hi Hs].
  unfold identity in Hi. cbn [fst snd] in Hs.
  split; [exact (f_equal (fun x => fst (fst x)) Hi)|].
  split; [exact (f_equal (fun x => snd (fst x)) Hi)|].
  split; [exact (f_equal snd Hi)|].
  intros q Hq. rewrite Forall_forall in Hs. exact (Hs (OnSignal q) Hq).
Qed.

End SignallerMoreFacts.

(* ===================================================================== *)
(** * Reading the configuration *)
(* ===================================================================== *)

Module ConfigFacts.
Import GoErrors Config ConfigProps.

(** ** Strings *)

Lemma gostring_eqb_refl a : WsMessage.gostring_eqb a a = true.
Proof. induction a as [|c a IH]; simpl; [reflexivity|]. now rewrite Ascii.eqb_refl. Qed.

Lemma gostring_eqb_eq a : forall b, WsMessage.gostring_eqb a b = true <-> a = b.
Proof.
  induction a as [|c a IH]; intros [|d b]; simpl; split; intro H;
    try reflexivity; try discriminate.
  - apply andb_true_iff in H. destruct H as [Hc Ha].
    apply Ascii.eqb_eq in Hc. apply IH in Ha. now subst.
  - inversion H; subst. now rewrite Ascii.eqb_refl, gostring_eqb_refl.
Qed.

Lemma Split_not_nil s : Split s <> [].
Proof.
  destruct s as [|c r]; simpl; [discriminate|].
  destruct (Ascii.eqb c comma); [discriminate|].
  destruct (Split r); discriminate.
Qed.

Lemma Join_cons x y rest : Join (x :: y :: rest) = x ++ comma :: Join (y :: rest).
Proof. reflexivity. Qed.

Lemma Join_Split s : Join (Split s) = s.
Proof.
  induction s as [|c r IH]; [reflexivity|]. simpl.
  destruct (Ascii.eqb_spec c comma) as [->|Hc].
  - destruct (Split r) as [|h t] eqn:E; [now apply Split_not_nil in E|].
    simpl in *. now rewrite IH.
  - destruct (Split r) as [|h t] eqn:E; [now apply Split_not_nil in E|].
    simpl in *. now rewrite IH.
Qed.

Lemma Split_commaFree s : Forall commaFree (Split s).
Proof.
  induction s as [|c r IH]; simpl.
  - constructor; [intros []|constructor].
  - destruct (Ascii.eqb_spec c comma) as [->|Hc].
    + constructor; [intros []|exact IH].
    + destruct (Split r) as [|h t]; [constructor; [|constructor]|].
      * intros [E|[]]. now apply Hc.
      * inversion IH as [|? ? Hh Ht]; subst. constructor; [|exact Ht].
        intros [E|Hin]; [now apply Hc|now apply Hh].
Qed.

Lemma Split_one x : commaFree x -> Split x = [x].
Proof.
  induction x as [|c x IH]; intro Hx; [reflexivity|]. simpl.
  destruct (Ascii.eqb_spec c comma) as [->|Hc]; [exfalso; apply Hx; now left|].
  rewrite IH; [reflexivity|]. intro Hin. apply Hx. now right.
Qed.

Lemma Split_app_comma x rest :
  commaFree x -> Split (x ++ comma :: rest) = x :: Split rest.
Proof.
  induction x as [|c x IH]; intro Hx; simpl.
  - reflexivity.
  - destruct (Ascii.eqb_spec c comma) as [->|Hc]; [exfalso; apply Hx; now left|].
    rewrite IH; [reflexivity|]. intro Hin. apply Hx. now right.
Qed.

Lemma Split_Join xs :
  xs <> [] -> Forall commaFree xs -> Split (Join xs) = xs.
Proof.
  induction xs as [|x xs IH]; intros Hne Hall; [contradiction|].
  inversion Hall as [|? ? Hx Hxs]; subst.
  destruct xs as [|y rest].
  - simpl. rewrite app_nil_r. now apply Split_one.
  - rewrite Join_cons, Split_app_comma by exact Hx.
    rewrite IH; [reflexivity|discriminate|exact Hxs].
Qed.

Lemma append_nonEmpty xs : forall dest,
  fold_left (fun dest v => if nonEmpty v then dest ++ [v] else dest) xs dest
  = dest ++ filter nonEmpty xs.
Proof.
  induction xs as [|x xs IH]; intro dest; simpl; [now rewrite app_nil_r|].
  rewrite IH. destruct (nonEmpty x); [|reflexivity].
  now rewrite <- app_assoc.
Qed.

Lemma setEnvSlice_filter Getenv dest name :
  setEnvSlice Getenv dest name = dest ++ filter nonEmpty (Split (Getenv name)).
Proof. unfold setEnvSlice. apply append_nonEmpty. Qed.

(** ** Integers *)

Lemma digits_uint d : forall n,
  digits n (list_ascii_of_string (NilEmpty.string_of_uint d)) = Some (horner n d).
Proof.
  induction d; intro n; simpl; try reflexivity;
    rewrite IHd; reflexivity.
Qed.

Lemma horner_pos d : forall acc,
  horner (Zpos acc) d = Zpos (Pos.of_uint_acc d acc).
Proof.
  induction d; intro acc; cbn [horner Pos.of_uint_acc]; try reflexivity;
    rewrite <- IHd; f_equal; lia.
Qed.

Lemma horner_of_uint d : horner 0 d = Z.of_N (Pos.of_uint d).
Proof.
  induction d; cbn [horner Pos.of_uint];
    first [reflexivity | exact IHd | exact (horner_pos d _)].
Qed.

Lemma horner_to_uint p : horner 0 (Pos.to_uint p) = Zpos p.
Proof.
  rewrite horner_of_uint, DecimalPos.Unsigned.of_to. reflexivity.
Qed.

Lemma uint_head_digit d :
  d <> Decimal.Nil ->
  exists c r, list_ascii_of_string (NilEmpty.string_of_uint d) = c :: r /\
              Ascii.eqb c "-" = false /\ Ascii.eqb c "+" = false.
Proof.
  intro Hd. destruct d; [contradiction|..]; simpl; eexists; eexists;
    (split; [reflexivity|split; reflexivity]).
Qed.

Lemma NilZero_nonnil d :
  d <> Decimal.Nil -> NilZero.string_of_uint d = NilEmpty.string_of_uint d.
Proof. destruct d; [contradiction|..]; reflexivity. Qed.

Lemma Atoi_unsigned d :
  d <> Decimal.Nil ->
  Atoi (list_ascii_of_string (NilEmpty.string_of_uint d))
  = let v := horner 0 d in
    if (minInt <=? v)%Z && (v <=? maxInt)%Z then Some v else None.
Proof.
  intro Hd. destruct (uint_head_digit d Hd) as [c [r [Es [Hm Hp]]]].
  pose proof (digits_uint d 0) as Hdig. rewrite Es in *.
  unfold Atoi. rewrite Hm, Hp. cbn [orb]. rewrite Hdig. reflexivity.
Qed.

Lemma Atoi_negative d :
  d <> Decimal.Nil ->
  Atoi ("-"%char :: list_ascii_of_string (NilEmpty.string_of_uint d))
  = let v := (- horner 0 d)%Z in
    if (minInt <=? v)%Z && (v <=? maxInt)%Z then Some v else None.
Proof.
  intro Hd. destruct (uint_head_digit d Hd) as [c [r [Es [Hm Hp]]]].
  pose proof (digits_uint d 0) as Hdig. rewrite Es in *.
  unfold Atoi. change (Ascii.eqb "-" "-") with true. cbn [orb].
  rewrite Hdig. reflexivity.
Qed.

Lemma Atoi_Itoa n :
  (minInt <= n <= maxInt)%Z -> Atoi (Itoa n) = Some n.
Proof.
  intros [Hlo Hhi]. unfold Itoa.
  assert (Hrange : forall v, (minInt <= v <= maxInt)%Z ->
            (if (minInt <=? v)%Z && (v <=? maxInt)%Z then Some v else None) = Some v).
  { intros v [H1 H2]. apply Z.leb_le in H1. apply Z.leb_le in H2. now rewrite H1, H2. }
  destruct n as [|p|p]; [reflexivity| |];
    pose proof (DecimalPos.Unsigned.to_uint_nonnil p) as Hnn;
    cbn [Z.to_int NilZero.string_of_int];
    rewrite (NilZero_nonnil _ Hnn).
  - rewrite (Atoi_unsigned _ Hnn). cbv zeta. rewrite horner_to_uint.
    apply Hrange. lia.
  - cbn [list_ascii_of_string]. rewrite (Atoi_negative _ Hnn). cbv zeta.
    rewrite horner_to_uint. apply Hrange. lia.
Qed.

Lemma Atoi_Itoa_range n :
  Atoi (Itoa n) = if inRange n then Some n else None.
Proof.
  unfold Itoa, inRange.
  destruct n as [|p|p]; [reflexivity| |];
    pose proof (DecimalPos.Unsigned.to_uint_nonnil p) as Hnn;
    cbn [Z.to_int NilZero.string_of_int];
    rewrite (NilZero_nonnil _ Hnn).
  - rewrite (Atoi_unsigned _ Hnn). cbv zeta. rewrite horner_to_uint. reflexivity.
  - cbn [list_ascii_of_string]. rewrite (Atoi_negative _ Hnn). cbv zeta.
    rewrite horner_to_uint. reflexivity.
Qed.

Lemma setEnvInt_Itoa Getenv dest name n :
  Getenv name = Itoa n ->
  setEnvInt Getenv dest name = if inRange n then n else dest.
Proof.
  intro H. unfold setEnvInt. rewrite H, Atoi_Itoa_range.
  now destruct (inRange n).
Qed.

(** ** The setters *)

Lemma filter_Split_Join xs :
  Forall commaFree xs ->
  filter nonEmpty (Split (Join xs)) = filter nonEmpty xs.
Proof.
  intro H. destruct xs as [|x xs]; [reflexivity|].
  rewrite Split_Join; [reflexivity|discriminate|exact H].
Qed.

Lemma nonEmpty_true x : nonEmpty x = true <-> x <> [].
Proof. destruct x; simpl; split; congruence. Qed.

Lemma filter_nonEmpty_entries s :
  Forall (fun u => u <> [] /\ commaFree u) (filter nonEmpty (Split s)).
Proof.
  apply Forall_forall. intros u Hu. apply filter_In in Hu. destruct Hu as [Hin Hne].
  split; [now apply nonEmpty_true|].
  pose proof (Split_commaFree s) as HF. rewrite Forall_forall in HF. now apply HF.
Qed.

Lemma known_two a b v :
  known [a; b] v = true <-> v = a \/ v = b.
Proof.
  unfold known. simpl. rewrite orb_false_r, orb_true_iff, !gostring_eqb_eq. tauto.
Qed.

Lemma choose_known a b v dest :
  (if WsMessage.gostring_eqb v a then a
   else if WsMessage.gostring_eqb v b then b else dest)
  = if known [a; b] v then v else dest.
Proof.
  unfold known. simpl. rewrite orb_false_r.
  destruct (WsMessage.gostring_eqb v a) eqn:Ea.
  - apply gostring_eqb_eq in Ea. now subst.
  - destruct (WsMessage.gostring_eqb v b) eqn:Eb; [|reflexivity].
    apply gostring_eqb_eq in Eb. now subst.
Qed.

Lemma choose_empty a b dest :
  nonEmpty a = true -> nonEmpty b = true ->
  (if WsMessage.gostring_eqb [] a then a
   else if WsMessage.gostring_eqb [] b then b else dest) = dest.
Proof. destruct a, b; simpl; congruence. Qed.

(** ** [ReadEnv], field by field *)

Lemma envICEServers_length secret none Getenv prefix :
  length (envICEServers secret none Getenv prefix) <= 1.
Proof.
  unfold envICEServers.
  destruct (setEnvSlice Getenv [] (prefix ++ gs "ICE_SERVER_URLS")); simpl; lia.
Qed.

Lemma ReadEnv_fields k Getenv prefix c :
  readEnv k Getenv prefix c =
  {| BaseURL := setEnvString Getenv (BaseURL c) (prefix ++ gs "BASE_URL");
     BindHost := setEnvString Getenv (BindHost c) (prefix ++ gs "BIND_HOST");
     BindPort := setEnvInt Getenv (BindPort c) (prefix ++ gs "BIND_PORT");
     TLS := {| Cert := setEnvString Getenv (Cert (TLS c)) (prefix ++ gs "TLS_CERT");
               Key := setEnvString Getenv (Key (TLS c)) (prefix ++ gs "TLS_KEY") |};
     Store :=
       {| Store_Type := setEnvStoreType (redis k) (memory k) Getenv
                          (Store_Type (Store c)) (prefix ++ gs "STORE_TYPE");
          Redis :=
            {| Host := setEnvString Getenv (Host (Redis (Store c)))
                         (prefix ++ gs "STORE_REDIS_HOST");
               Port := setEnvInt Getenv (Port (Redis (Store c)))
                         (prefix ++ gs "STORE_REDIS_PORT");
               Prefix := setEnvString Getenv (Prefix (Redis (Store c)))
                           (prefix ++ gs "STORE_REDIS_PREFIX") |} |};
     Network :=
       {| Network_Type := setEnvNetworkType (mesh k) (sfu k) Getenv
                            (Network_Type (Network c)) (prefix ++ gs "NETWORK_TYPE");
          SFU := {| Interfaces :=
                      setEnvStringArray Getenv (Interfaces (SFU (Network c)))
                        (prefix ++ gs "NETWORK_SFU_INTERFACES") |} |};
     ICEServers := ICEServers c ++ envICEServers (secret k) (none k) Getenv prefix |}.
Proof.
  unfold readEnv, ReadEnv, envICEServers. cbv zeta.
  cbn [zeroICEServer URLs set_URLs AuthType AuthSecret Username Secret].
  destruct (setEnvSlice Getenv [] (prefix ++ gs "ICE_SERVER_URLS")) as [|u us] eqn:E.
  - cbn. rewrite app_nil_r. reflexivity.
  - cbn. reflexivity.
Qed.

Ltac in_suffixes := unfold suffixes; repeat (first [left; reflexivity | right]).

Lemma ReadEnv_agree k prefix Getenv1 Getenv2 c :
  agree prefix Getenv1 Getenv2 ->
  readEnv k Getenv1 prefix c = readEnv k Getenv2 prefix c.
Proof.
  intro H. rewrite !ReadEnv_fields.
  unfold envICEServers, setEnvString, setEnvInt, setEnvStoreType, setEnvNetworkType,
    setEnvStringArray, setEnvAuthType, setEnvSlice. cbv zeta.
  repeat match goal with
         | |- context [Getenv1 (prefix ++ ?s)] =>
             rewrite (H s) by in_suffixes
         end.
  reflexivity.
Qed.

Lemma ReadEnv_unset k prefix Getenv c :
  namedTypes k = true -> unset prefix Getenv ->
  readEnv k Getenv prefix c = c.
Proof.
  intros Hk H. rewrite ReadEnv_fields.
  unfold namedTypes in Hk. apply andb_true_iff in Hk. destruct Hk as [Hk Hmemory].
  apply andb_true_iff in Hk. destruct Hk as [Hk Hredis].
  apply andb_true_iff in Hk. destruct Hk as [Hmesh Hsfu].
  unfold envICEServers, setEnvString, setEnvInt, setEnvStoreType, setEnvNetworkType,
    setEnvStringArray, setEnvAuthType, setEnvSlice. cbv zeta.
  repeat match goal with
         | |- context [Getenv (prefix ++ ?s)] =>
             rewrite (H s) by in_suffixes
         end.
  rewrite !choose_empty by assumption.
  cbn. rewrite app_nil_r.
  destruct c as [? ? ? [? ?] [? [? ? ?]] [? [?]] ?]. reflexivity.
Qed.

Lemma setEnvString_twice Getenv dest name :
  setEnvString Getenv (setEnvString Getenv dest name) name
  = setEnvString Getenv dest name.
Proof. unfold setEnvString. cbv zeta. now destruct (nonEmpty (Getenv name)). Qed.

Lemma setEnvInt_twice Getenv dest name :
  setEnvInt Getenv (setEnvInt Getenv dest name) name = setEnvInt Getenv dest name.
Proof. unfold setEnvInt. now destruct (Atoi (Getenv name)). Qed.

Lemma setEnvStoreType_known a b Getenv dest name :
  setEnvStoreType a b Getenv dest name
  = if known [a; b] (Getenv name) then Getenv name else dest.
Proof. apply choose_known. Qed.

Lemma setEnvNetworkType_known a b Getenv dest name :
  setEnvNetworkType a b Getenv dest name
  = if known [a; b] (Getenv name) then Getenv name else dest.
Proof. apply choose_known. Qed.

Lemma setEnvAuthType_known a b Getenv dest name :
  setEnvAuthType a b Getenv dest name
  = if known [a; b] (Getenv name) then Getenv name else dest.
Proof. apply choose_known. Qed.

Lemma setEnvStringArray_twice Getenv dest name :
  setEnvStringArray Getenv (setEnvStringArray Getenv dest name) name
  = setEnvStringArray Getenv dest name.
Proof. unfold setEnvStringArray. cbv zeta. now destruct (nonEmpty (Getenv name)). Qed.

Lemma envICEServers_fromEnv k Getenv prefix ice :
  In ice (envICEServers (secret k) (none k) Getenv prefix) ->
  fromEnv k Getenv prefix
          (filter nonEmpty (Split (Getenv (prefix ++ gs "ICE_SERVER_URLS")))) ice.
Proof.
  unfold envICEServers. rewrite setEnvSlice_filter. cbn [app].
  destruct (filter nonEmpty (Split (Getenv (prefix ++ gs "ICE_SERVER_URLS"))))
    as [|u us] eqn:E; [intros []|].
  intros [<-|[]]. unfold fromEnv. cbn [URLs AuthType AuthSecret Username Secret].
  split; [reflexivity|]. split; [apply setEnvAuthType_known|].
  unfold setEnvString. cbv zeta.
  split.
  - now destruct (Getenv (prefix ++ gs "ICE_SERVER_USERNAME")).
  - now destruct (Getenv (prefix ++ gs "ICE_SERVER_SECRET")).
Qed.

Lemma envICEServers_nil secret none Getenv prefix :
  envICEServers secret none Getenv prefix = [] <->
  filter nonEmpty (Split (Getenv (prefix ++ gs "ICE_SERVER_URLS"))) = [].
Proof.
  unfold envICEServers. rewrite setEnvSlice_filter. cbn [app].
  destruct (filter nonEmpty (Split (Getenv (prefix ++ gs "ICE_SERVER_URLS"))));
    split; intro H; try reflexivity; discriminate.
Qed.

(** ** Files *)

Lemma ReadFile_failed fs filename l cause :
  os_Open fs filename = inr cause ->
  ReadFile fs filename l
  = (Some (Wrapped (gs "Error opening YAML file: %w") cause),
     {| cfg := cfg l; fslog := fslog l ++ [FsOpen filename false] |}).
Proof. intro H. unfold ReadFile. rewrite H. reflexivity. Qed.

Lemma ReadFile_opened fs filename l content :
  os_Open fs filename = inl content ->
  ReadFile fs filename l
  = (fst (ReadYAML fs content (cfg l)),
     {| cfg := snd (ReadYAML fs content (cfg l));
        fslog := fslog l ++ [FsOpen filename true; FsDecode filename;
                             FsClose filename] |}).
Proof.
  intro H. unfold ReadFile. rewrite H.
  unfold State.bind, State.ret, logFs. cbn [cfg fslog].
  destruct (ReadYAML fs content (cfg l)) as [err c']. cbn [fst snd cfg fslog].
  rewrite <- !app_assoc. reflexivity.
Qed.

Lemma ReadYAML_error fs content c e :
  fst (ReadYAML fs content c) = Some e ->
  exists cause, snd (yaml_Decode fs content c) = Some cause /\
                e = Wrapped (gs "Error parsing YAML: %w") cause.
Proof.
  unfold ReadYAML. destruct (yaml_Decode fs content c) as [c' [cause|]];
    cbn [fst snd]; intro H; [|discriminate].
  exists cause. split; [reflexivity|congruence].
Qed.

Lemma ReadFile_error fs filename l e :
  fst (ReadFile fs filename l) = Some e -> causedBy fs filename e.
Proof.
  destruct (os_Open fs filename) as [content|cause] eqn:E.
  - rewrite (ReadFile_opened _ _ _ _ E). cbn [fst]. intro H.
    apply ReadYAML_error in H. destruct H as [cause [Hc He]].
    right. exists content, (cfg l), cause. auto.
  - rewrite (ReadFile_failed _ _ _ _ E). cbn [fst]. intro H.
    left. exists cause. split; [exact E|congruence].
Qed.

Lemma ReadFile_log fs filename l :
  exists ok,
    fslog (snd (ReadFile fs filename l))
    = fslog l ++ FsOpen filename ok ::
        (if ok then [FsDecode filename; FsClose filename] else []).
Proof.
  destruct (os_Open fs filename) as [content|cause] eqn:E.
  - exists true. now rewrite (ReadFile_opened _ _ _ _ E).
  - exists false. now rewrite (ReadFile_failed _ _ _ _ E).
Qed.

Lemma ReadFiles_cons fs filename rest l :
  ReadFiles fs (filename :: rest) l
  = match fst (ReadFile fs filename l) with
    | Some e => (Some e, snd (ReadFile fs filename l))
    | None => ReadFiles fs rest (snd (ReadFile fs filename l))
    end.
Proof.
  cbn [ReadFiles]. unfold State.bind.
  destruct (ReadFile fs filename l) as [[e|] l']; reflexivity.
Qed.

Lemma ReadFiles_app fs a : forall b l,
  ReadFiles fs (a ++ b) l
  = match fst (ReadFiles fs a l) with
    | Some e => ReadFiles fs a l
    | None => ReadFiles fs b (snd (ReadFiles fs a l))
    end.
Proof.
  induction a as [|f a IH]; intros b l; [reflexivity|].
  rewrite <- app_comm_cons, !ReadFiles_cons.
  destruct (fst (ReadFile fs f l)) as [e|]; [reflexivity|].
  apply IH.
Qed.

Lemma opens_app a b : opens (a ++ b) = opens a ++ opens b.
Proof.
  induction a as [|[f ok|f|f] a IH]; simpl; [reflexivity| |assumption|assumption].
  now rewrite IH.
Qed.

Lemma closedAll_app a : forall opened b,
  closedAll opened a = true ->
  closedAll opened (a ++ b) = closedAll None b.
Proof.
  induction a as [|e a IH]; intros opened b H.
  - destruct opened; [discriminate|reflexivity].
  - destruct e as [f ok|f|f]; destruct opened as [g|]; simpl in *;
      try discriminate.
    + now apply IH.
    + apply andb_true_iff in H. destruct H as [Hf H]. rewrite Hf. now apply IH.
    + apply andb_true_iff in H. destruct H as [Hf H]. rewrite Hf. now apply IH.
Qed.

Lemma closedAll_file filename ok :
  closedAll None (FsOpen filename ok ::
                    (if ok then [FsDecode filename; FsClose filename] else []))
  = true.
Proof. destruct ok; simpl; [|reflexivity]. now rewrite gostring_eqb_refl. Qed.

Lemma ReadFiles_log fs filenames : forall l,
  exists es, fslog (snd (ReadFiles fs filenames l)) = fslog l ++ es /\
             closedAll None es = true.
Proof.
  induction filenames as [|f rest IH]; intro l.
  - exists []. split; [now rewrite app_nil_r|reflexivity].
  - rewrite ReadFiles_cons.
    destruct (ReadFile_log fs f l) as [ok Hlog].
    destruct (fst (ReadFile fs f l)) as [e|].
    + cbn [snd]. eexists. split; [exact Hlog|apply closedAll_file].
    + destruct (IH (snd (ReadFile fs f l))) as [es [Hes Hclosed]].
      eexists. split.
      * rewrite Hes, Hlog, <- app_assoc. reflexivity.
      * rewrite (closedAll_app _ _ _ (closedAll_file f ok)). exact Hclosed.
Qed.

Lemma ReadFiles_opens fs filenames : forall l,
  exists done rest,
    filenames = done ++ rest /\
    opens (fslog (snd (ReadFiles fs filenames l))) = opens (fslog l) ++ done /\
    match fst (ReadFiles fs filenames l) with
    | None => rest = []
    | Some e => exists before filename,
                  done = before ++ [filename] /\ causedBy fs filename e
    end.
Proof.
  induction filenames as [|f rest IH]; intro l.
  - exists [], []. cbn. rewrite app_nil_r. auto.
  - rewrite ReadFiles_cons.
    destruct (ReadFile_log fs f l) as [ok Hlog].
    assert (Hopens : opens (fslog (snd (ReadFile fs f l))) = opens (fslog l) ++ [f]).
    { rewrite Hlog, opens_app. now destruct ok. }
    destruct (fst (ReadFile fs f l)) as [e|] eqn:E.
    + exists [f], rest. cbn [fst snd]. split; [reflexivity|]. split; [exact Hopens|].
      exists [], f. split; [reflexivity|]. exact (ReadFile_error _ _ _ _ E).
    + destruct (IH (snd (ReadFile fs f l))) as [done [rest' [Hsplit [Ho Hres]]]].
      exists (f :: done), rest'. split; [now rewrite Hsplit|]. split.
      * rewrite Ho, Hopens, <- app_assoc. reflexivity.
      * destruct (fst (ReadFiles fs rest (snd (ReadFile fs f l)))) as [e|];
          [|exact Hres].
        destruct Hres as [before [g [Hd Hc]]]. exists (f :: before), g.
        split; [now rewrite Hd|exact Hc].
Qed.

Lemma Read_unfold k Getenv fs filenames :
  read k Getenv fs filenames
  = (readEnv k Getenv (gs "PEERCALLS_")
       (cfg (snd (readFiles fs filenames (init k zeroConfig)))),
     fst (readFiles fs filenames (init k zeroConfig)),
     fslog (snd (readFiles fs filenames (init k zeroConfig)))).
Proof.
  unfold read, Read, readFiles, readEnv, init. cbv zeta.
  destruct (ReadFiles fs filenames _) as [err l]. reflexivity.
Qed.

(** ** The properties *)

(** X10: [ReadEnv] reads the fifteen variables [prefix+BASE_URL], ...,
    [prefix+ICE_SERVER_USERNAME] and no other: two environments that give
    these the same values give the same configuration. *)
Theorem X10_ReadEnv_reads_its_variables k prefix Getenv1 Getenv2 c :
  agree prefix Getenv1 Getenv2 ->
  readEnv k Getenv1 prefix c = readEnv k Getenv2 prefix c.
Proof. apply ReadEnv_agree. Qed.

Lemma X10_ReadEnv_reads_its_variables_witness :
  readEnv testConstants testEnv (gs "PEERCALLSTEST_") zeroConfig
  = readEnv testConstants (withHome testEnv) (gs "PEERCALLSTEST_") zeroConfig.
Proof.
  apply (X10_ReadEnv_reads_its_variables testConstants (gs "PEERCALLSTEST_")
           testEnv (withHome testEnv) zeroConfig).
  intros s _. reflexivity.
Defined.

(** X11: when none of its variables is set, and no network or store type
    is the empty string, [ReadEnv] leaves the configuration as it is. *)
Theorem X11_ReadEnv_nothing_set k prefix Getenv c :
  namedTypes k = true ->
  unset prefix Getenv ->
  readEnv k Getenv prefix c = c.
Proof. apply ReadEnv_unset. Qed.

Lemma X11_ReadEnv_nothing_set_witness :
  readEnv testConstants homeEnv (gs "PEERCALLS_") (defaults testConstants)
  = defaults testConstants.
Proof.
  apply (X11_ReadEnv_nothing_set testConstants (gs "PEERCALLS_") homeEnv
           (defaults testConstants)).
  - reflexivity.
  - intros s _. reflexivity.
Defined.

(** X12: [ReadEnv] keeps the ICE servers of the configuration and adds at
    most one, at the end: none when [ICE_SERVER_URLS] has no entry that is
    not empty, and otherwise one whose URLs are these entries in order,
    none of them empty or with a comma, whose auth type is the variable's
    value if that is a known one and empty if not, and whose user name and
    secret are the variables' values. *)
Theorem X12_ICE_server k Getenv prefix c :
  let urls := filter nonEmpty (Split (Getenv (prefix ++ gs "ICE_SERVER_URLS"))) in
  exists extra,
    ICEServers (readEnv k Getenv prefix c) = ICEServers c ++ extra /\
    length extra <= 1 /\
    (extra = [] <-> urls = []) /\
    (forall ice, In ice extra -> fromEnv k Getenv prefix urls ice) /\
    Forall (fun u => u <> [] /\ commaFree u) urls.
Proof.
  intro urls. exists (envICEServers (secret k) (none k) Getenv prefix).
  split; [now rewrite ReadEnv_fields|].
  split; [apply envICEServers_length|].
  split; [apply envICEServers_nil|].
  split; [apply envICEServers_fromEnv|apply filter_nonEmpty_entries].
Qed.

(** X13: reading the environment a second time changes no setting, but
    adds the ICE server of the environment a second time. *)
Theorem X13_ReadEnv_twice k Getenv prefix c :
  sameSettings (readEnv k Getenv prefix (readEnv k Getenv prefix c))
               (readEnv k Getenv prefix c) /\
  exists extra,
    ICEServers (readEnv k Getenv prefix c) = ICEServers c ++ extra /\
    ICEServers (readEnv k Getenv prefix (readEnv k Getenv prefix c))
    = ICEServers c ++ extra ++ extra.
Proof.
  split.
  - unfold sameSettings.
    rewrite (ReadEnv_fields k Getenv prefix (readEnv k Getenv prefix c)).
    rewrite (ReadEnv_fields k Getenv prefix c).
    cbn [BaseURL BindHost BindPort TLS Cert Key Store Store_Type Redis Host Port
         Prefix Network Network_Type SFU Interfaces].
    rewrite !setEnvString_twice, !setEnvInt_twice, setEnvStringArray_twice.
    rewrite ?setEnvStoreType_known, ?setEnvNetworkType_known.
    destruct (known [redis k; memory k] (Getenv (prefix ++ gs "STORE_TYPE")));
      destruct (known [mesh k; sfu k] (Getenv (prefix ++ gs "NETWORK_TYPE")));
      repeat (split; [reflexivity|]); reflexivity.
  - exists (envICEServers (secret k) (none k) Getenv prefix).
    rewrite (ReadEnv_fields k Getenv prefix (readEnv k Getenv prefix c)).
    rewrite (ReadEnv_fields k Getenv prefix c).
    cbn [ICEServers]. split; [reflexivity|now rewrite app_assoc].
Qed.

(** X14: the store type and the network type are set from the
    environment only to a known value: [STORE_TYPE] counts when it is
    [StoreTypeRedis] or [StoreTypeMemory], [NETWORK_TYPE] when it is
    [NetworkTypeMesh] or [NetworkTypeSFU]; any other value is ignored. *)
Theorem X14_types k Getenv prefix c :
  Store_Type (Store (readEnv k Getenv prefix c))
  = (let value := Getenv (prefix ++ gs "STORE_TYPE") in
     if known [redis k; memory k] value then value else Store_Type (Store c)) /\
  Network_Type (Network (readEnv k Getenv prefix c))
  = (let value := Getenv (prefix ++ gs "NETWORK_TYPE") in
     if known [mesh k; sfu k] value then value else Network_Type (Network c)).
Proof.
  rewrite ReadEnv_fields. cbn [Store Store_Type Network Network_Type].
  split; [apply setEnvStoreType_known|apply setEnvNetworkType_known].
Qed.

(** X15: a port written in the environment as [strconv.Itoa] writes it is
    read back as the same number; a number that is no [int] leaves the
    port as it was. *)
Theorem X15_ports k Getenv prefix c n m :
  Getenv (prefix ++ gs "BIND_PORT") = Itoa n ->
  Getenv (prefix ++ gs "STORE_REDIS_PORT") = Itoa m ->
  BindPort (readEnv k Getenv prefix c) = (if inRange n then n else BindPort c) /\
  Port (Redis (Store (readEnv k Getenv prefix c)))
  = (if inRange m then m else Port (Redis (Store c))).
Proof.
  intros Hn Hm. rewrite ReadEnv_fields. cbn [BindPort Store Redis Port].
  split; now apply setEnvInt_Itoa.
Qed.

Lemma X15_ports_witness :
  BindPort (readEnv testConstants portsEnv (gs "PEERCALLS_") (defaults testConstants))
  = 8080%Z /\
  Port (Redis (Store (readEnv testConstants portsEnv (gs "PEERCALLS_")
                        (defaults testConstants)))) = 0%Z.
Proof.
  apply (X15_ports testConstants portsEnv (gs "PEERCALLS_") (defaults testConstants)
           8080%Z 99999999999999999999%Z); reflexivity.
Defined.

(** X16: of a list written with commas between its entries,
    [setEnvSlice] appends the entries that are not empty, and
    [setEnvStringArray] takes all entries, the empty ones too, unless the
    value is empty, when it leaves the list as it was. *)
Theorem X16_lists Getenv dest name xs :
  Forall commaFree xs ->
  Getenv name = Join xs ->
  setEnvSlice Getenv dest name = dest ++ filter nonEmpty xs /\
  setEnvStringArray Getenv dest name = (if nonEmpty (Join xs) then xs else dest).
Proof.
  intros Hxs H. split.
  - rewrite setEnvSlice_filter, H. now rewrite filter_Split_Join.
  - unfold setEnvStringArray. cbv zeta. rewrite H.
    destruct (nonEmpty (Join xs)) eqn:E; [|reflexivity].
    apply Split_Join; [|exact Hxs]. intros ->. discriminate.
Qed.

Lemma X16_lists_witness :
  setEnvSlice listEnv [gs "z"] (gs "LIST") = [gs "z"] ++ [gs "a"; gs "b"] /\
  setEnvStringArray listEnv [gs "z"] (gs "LIST") = [gs "a"; []; gs "b"].
Proof.
  apply (X16_lists listEnv [gs "z"] (gs "LIST") [gs "a"; []; gs "b"]).
  - repeat (constructor; [vm_compute; intuition discriminate|]). constructor.
  - reflexivity.
Defined.

(** X17: reading the files [a] and then [b] is reading [a] and, if that
    gave no error, reading [b] from where it left; if it gave an error,
    no file of [b] is read. *)
Theorem X17_ReadFiles_app fs a b l :
  ReadFiles fs (a ++ b) l
  = match fst (ReadFiles fs a l) with
    | Some e => ReadFiles fs a l
    | None => ReadFiles fs b (snd (ReadFiles fs a l))
    end.
Proof. apply ReadFiles_app. Qed.

(** X18: [ReadFiles] opens the files in the order given, each once, and
    stops at the first that fails: without an error it has opened all of
    them; with an error it has opened those up to one file, and the error
    wraps the error of opening or of decoding that file. *)
Theorem X18_ReadFiles_stops fs filenames l :
  exists done rest,
    filenames = done ++ rest /\
    opens (fslog (snd (ReadFiles fs filenames l))) = opens (fslog l) ++ done /\
    match fst (ReadFiles fs filenames l) with
    | None => rest = []
    | Some e => exists before filename,
                  done = before ++ [filename] /\ causedBy fs filename e
    end.
Proof. apply ReadFiles_opens. Qed.


(** X20: [Read] reads the environment after the files, whether they
    failed or not: a string setting is the value of its [PEERCALLS_]
    variable when that is not empty, and what the files left otherwise;
    the error is that of the files. *)
Theorem X20_environment_over_files k Getenv fs filenames :
  let files := readFiles fs filenames (init k zeroConfig) in
  let c := fst (fst (read k Getenv fs filenames)) in
  Forall (fun setting =>
            snd setting c
            = (let value := Getenv (gs "PEERCALLS_" ++ fst setting) in
               if nonEmpty value then value else snd setting (cfg (snd files))))
         stringSettings /\
  snd (fst (read k Getenv fs filenames)) = fst files /\
  snd (read k Getenv fs filenames) = fslog (snd files).
Proof.
  intros files c. subst files c. rewrite Read_unfold. cbn [fst snd].
  split; [|split; reflexivity].
  rewrite ReadEnv_fields. unfold stringSettings.
  repeat (constructor; [reflexivity|]). constructor.
Qed.

(** X21: with none of the [PEERCALLS_] variables set, [Read] gives what
    the files left, and with no files the defaults: port 3000, the mesh
    network, the memory store and the two STUN servers, no error and no
    call on the file system. *)
Theorem X21_defaults k Getenv fs :
  namedTypes k = true ->
  unset (gs "PEERCALLS_") Getenv ->
  (forall filenames,
      fst (fst (read k Getenv fs filenames))
      = cfg (snd (readFiles fs filenames (init k zeroConfig)))) /\
  read k Getenv fs [] = (defaults k, None, []).
Proof.
  intros Hk Hunset. split.
  - intro filenames. rewrite Read_unfold. cbn [fst].
    now apply ReadEnv_unset.
  - rewrite Read_unfold. cbn [readFiles ReadFiles State.ret fst snd cfg fslog].
    rewrite ReadEnv_unset by assumption. reflexivity.
Qed.

Lemma X21_defaults_witness :
  (forall filenames,
      fst (fst (read testConstants homeEnv oneFile filenames))
      = cfg (snd (readFiles oneFile filenames (init testConstants zeroConfig)))) /\
  read testConstants homeEnv oneFile [] = (defaults testConstants, None, []).
Proof.
  apply (X21_defaults testConstants homeEnv oneFile).
  - reflexivity.
  - intros s _. reflexivity.
Defined.

(** [TestReadFromEnv], on the model. *)
Example TestReadFromEnv :
  readEnv testConstants testEnv (gs "PEERCALLSTEST_") zeroConfig
  = {| BaseURL := gs "/test"; BindHost := []; BindPort := 0;
       TLS := {| Cert := gs "test.pem"; Key := gs "test.key" |};
       Store := {| Store_Type := gs "redis";
                   Redis := {| Host := gs "localhost"; Port := 6379;
                               Prefix := gs "peercalls" |} |};
       Network := {| Network_Type := gs "sfu";
                     SFU := {| Interfaces := [gs "a"; gs "b"] |} |};
       ICEServers :=
         [{| URLs := [gs "stun:stun.l.google.com:19302";
                      gs "stuns:stun.l.google.com:19302"];
             AuthType := gs "secret";
             AuthSecret := {| Username := gs "test_user";
                              Secret := gs "test_secret" |} |}] |}.
Proof. vm_compute. reflexivity. Qed.

(** [TestReadFiles_error] and [TestReadYAML_error], on the model: a
    missing file and a file that does not decode. *)
Example TestReadFiles_error :
  fst (readFiles oneFile [gs "config_missing.yml"] zeroConfig)
  = Some (Wrapped (gs "Error opening YAML file: %w")
                  (OtherError (gs "no such file or directory"))).
Proof. vm_compute. reflexivity. Qed.

End ConfigFacts.
